(** * The doubao gateway core: chat.ts, embedded and verified

    A shallow embedding of [src/api/controllers/chat.ts]: the message
    packer ([messagesPrepare]), the upload pipeline ([checkFileUrl],
    [uploadToTos], [uploadFile]), the request signer ([canonicalQuery],
    [buildAuthorization]), the two stream transcoders ([receiveStream],
    [createTransStream]) and the two orchestrators ([createCompletion],
    [createCompletionStream]).

    Part I holds the definitions, Part II the theorems.

    Conventions.
    - A JavaScript string is the list of its UTF-16 code units ([jstr]),
      so that [.length], indexing and the regular expressions of the
      source (none has the [u] flag) see what the engine sees.
    - A [Buffer] is a list of bytes ([list N], each below 256).
    - Mutation of the caller's [messages] array is explicit state
      passing: [messagesPrepare] returns the array it leaves behind.
    - Network peers are an explicit [world] that answers each call.
    - Logging is not modelled. *)

From Stdlib Require Import List String Ascii NArith ZArith Arith Bool Lia FinFun.
From Stdlib Require Import Permutation Sorted.
Import ListNotations.

Set Implicit Arguments.
Set Warnings "-register-all".

(* ===================================================================== *)
(** * Part I. Definitions *)
(* ===================================================================== *)

(** ** JavaScript strings *)

Module Js.

Definition jstr := list N.

(** An ASCII literal of the source. *)
Definition lit (s : string) : jstr :=
  map N_of_ascii (list_ascii_of_string s).

Fixpoint eqb (a b : jstr) : bool :=
  match a, b with
  | [], [] => true
  | x :: a', y :: b' => N.eqb x y && eqb a' b'
  | _, _ => false
  end.

Fixpoint startsWith (p s : jstr) : bool :=
  match p, s with
  | [], _ => true
  | x :: p', y :: s' => N.eqb x y && startsWith p' s'
  | _ :: _, [] => false
  end.

(** [s.includes(p)] *)
Fixpoint includes (p s : jstr) : bool :=
  startsWith p s ||
  match s with
  | [] => false
  | _ :: s' => includes p s'
  end.

(** [s.replace(p, r)] with a string pattern: the first occurrence only.
    No replacement text of the source holds a dollar sign. *)
Fixpoint replace (p r s : jstr) : jstr :=
  if startsWith p s then r ++ skipn (List.length p) s
  else match s with
       | [] => []
       | c :: s' => c :: replace p r s'
       end.

Fixpoint join (sep : jstr) (l : list jstr) : jstr :=
  match l with
  | [] => []
  | [x] => x
  | x :: l' => x ++ sep ++ join sep l'
  end.

(** The line feed. *)
Definition nl : jstr := [10%N].

(** [a || b] on strings. *)
Definition or_else (a b : jstr) : jstr :=
  match a with [] => b | _ => a end.

Definition in_range (lo hi c : N) : bool := N.leb lo c && N.leb c hi.

(** The class [[A-Za-z0-9+/=]]. *)
Definition is_b64char (c : N) : bool :=
  in_range 65 90 c || in_range 97 122 c || in_range 48 57 c
  || N.eqb c 43 || N.eqb c 47 || N.eqb c 61.

(** Line terminators: what [.] of a regular expression refuses. *)
Definition is_line_terminator (c : N) : bool :=
  N.eqb c 10 || N.eqb c 13 || N.eqb c 8232 || N.eqb c 8233.

(** White space and line terminators: what [trim] removes. *)
Definition is_space (c : N) : bool :=
  in_range 9 13 c || N.eqb c 32 || N.eqb c 160 || N.eqb c 5760
  || in_range 8192 8202 c || N.eqb c 8232 || N.eqb c 8233
  || N.eqb c 8239 || N.eqb c 8287 || N.eqb c 12288 || N.eqb c 65279.

Fixpoint trimStart (s : jstr) : jstr :=
  match s with
  | [] => []
  | c :: s' => if is_space c then trimStart s' else s
  end.

Definition trimEnd (s : jstr) : jstr := rev (trimStart (rev s)).

Definition trim (s : jstr) : jstr := trimEnd (trimStart s).

(** [s.split(/\r?\n/)]: [cur] is the piece being read, reversed. *)
Fixpoint split_lines_aux (s : jstr) (cur : jstr) : list jstr :=
  match s with
  | [] => [rev cur]
  | 10 :: s' => rev cur :: split_lines_aux s' []
  | 13 :: s' =>
      match s' with
      | 10 :: s'' => rev cur :: split_lines_aux s'' []
      | _ => split_lines_aux s' (13 :: cur)
      end
  | c :: s' => split_lines_aux s' (c :: cur)
  end%N.

Definition split_lines (s : jstr) : list jstr := split_lines_aux s [].

(** [s.split("/")] *)
Fixpoint split_char_aux (d : N) (s : jstr) (cur : jstr) : list jstr :=
  match s with
  | [] => [rev cur]
  | c :: s' => if N.eqb c d then rev cur :: split_char_aux d s' []
               else split_char_aux d s' (c :: cur)
  end.

Definition split_char (d : N) (s : jstr) : list jstr := split_char_aux d s [].

(** The longest prefix whose characters satisfy [f], as a length. *)
Fixpoint run (f : N -> bool) (s : jstr) : nat :=
  match s with
  | [] => 0
  | c :: s' => if f c then S (run f s') else 0
  end.

(** [s.replace(re, empty)] for a global regular expression [re] none of
    whose matches is empty: [m s] is the length of the match of [re]
    that starts at the head of [s], if there is one. [skip] counts the
    characters of the current match still to be dropped. *)
Fixpoint remove_matches (m : jstr -> option nat) (s : jstr) (skip : nat) : jstr :=
  match s with
  | [] => []
  | c :: s' =>
      match skip with
      | S k => remove_matches m s' k
      | O =>
          match m s with
          | Some (S k) => remove_matches m s' k
          | _ => c :: remove_matches m s' 0
          end
      end
  end.

Definition replace_all (m : jstr -> option nat) (s : jstr) : jstr :=
  remove_matches m s 0.

End Js.


(** ** UTF-8: [Buffer.prototype.toString()]

    The decoder of the platform: every maximal ill-formed subsequence
    becomes one U+FFFD, a truncated sequence at the end of the buffer too.
    Code points above the basic plane become surrogate pairs. *)

Module Utf8.

Local Open Scope N_scope.

Inductive dstate :=
| Start
| Cont (cp : N) (needed : nat) (lo hi : N).

Definition start_byte (b : N) : list N * dstate :=
  if N.leb b 0x7F then ([b], Start)
  else if Js.in_range 0xC2 0xDF b then
    ([], Cont (N.land b 0x1F) 1%nat 0x80 0xBF)
  else if Js.in_range 0xE0 0xEF b then
    ([], Cont (N.land b 0xF) 2%nat
              (if N.eqb b 0xE0 then 0xA0 else 0x80)
              (if N.eqb b 0xED then 0x9F else 0xBF))
  else if Js.in_range 0xF0 0xF4 b then
    ([], Cont (N.land b 0x7) 3%nat
              (if N.eqb b 0xF0 then 0x90 else 0x80)
              (if N.eqb b 0xF4 then 0x8F else 0xBF))
  else ([0xFFFD], Start).

Definition step (st : dstate) (b : N) : list N * dstate :=
  match st with
  | Start => start_byte b
  | Cont cp n lo hi =>
      if Js.in_range lo hi b then
        let cp' := N.lor (N.shiftl cp 6) (N.land b 0x3F) in
        match n with
        | S (S n') => ([], Cont cp' (S n') 0x80 0xBF)
        | _ => ([cp'], Start)
        end
      else
        let '(out, st') := start_byte b in (0xFFFD :: out, st')
  end.

Fixpoint decode_from (st : dstate) (buf : list N) : list N :=
  match buf with
  | [] => match st with Start => [] | Cont _ _ _ _ => [0xFFFD] end
  | b :: r => let '(out, st') := step st b in out ++ decode_from st' r
  end.

(** The code points read from a buffer and the state the decoder is left
    in: [decode_from] without the U+FFFD for a sequence cut by the end. *)
Fixpoint run (st : dstate) (buf : list N) : list N * dstate :=
  match buf with
  | [] => ([], st)
  | b :: r =>
      let '(out, st') := step st b in
      let '(out', st'') := run st' r in
      (out ++ out', st'')
  end.

Definition utf16 (cp : N) : list N :=
  if N.ltb cp 0x10000 then [cp]
  else [0xD800 + (cp - 0x10000) / 0x400; 0xDC00 + (cp - 0x10000) mod 0x400].

Definition toString (buf : list N) : Js.jstr :=
  flat_map utf16 (decode_from Start buf).

(** The UTF-8 bytes of a code point. *)
Definition encode_cp (cp : N) : list N :=
  if N.ltb cp 0x80 then [cp]
  else if N.ltb cp 0x800 then [0xC0 + cp / 64; 0x80 + cp mod 64]
  else if N.ltb cp 0x10000 then
    [0xE0 + cp / 4096; 0x80 + (cp / 64) mod 64; 0x80 + cp mod 64]
  else [0xF0 + cp / 262144; 0x80 + (cp / 4096) mod 64;
        0x80 + (cp / 64) mod 64; 0x80 + cp mod 64].

Definition is_high (c : N) : bool := Js.in_range 0xD800 0xDBFF c.
Definition is_low (c : N) : bool := Js.in_range 0xDC00 0xDFFF c.

Definition pair_cp (h l : N) : N :=
  0x10000 + (h - 0xD800) * 0x400 + (l - 0xDC00).

(** [Buffer.from(s, "utf8")]: a surrogate without its partner is
    written as U+FFFD. *)
Fixpoint fromString (s : Js.jstr) : list N :=
  match s with
  | [] => []
  | c :: r =>
      if is_high c then
        match r with
        | l :: r' =>
            if is_low l then encode_cp (pair_cp c l) ++ fromString r'
            else encode_cp 0xFFFD ++ fromString r
        | [] => encode_cp 0xFFFD
        end
      else if is_low c then encode_cp 0xFFFD ++ fromString r
      else encode_cp c ++ fromString r
  end.

Definition bytes_of (s : string) : list N :=
  map N_of_ascii (list_ascii_of_string s).

(** A literal of the source that is not ASCII, given by its UTF-8 text. *)
Definition text (s : string) : Js.jstr := toString (bytes_of s).

(** [buffer.toString().indexOf('�') != -1] *)
Definition has_replacement (buf : list N) : bool :=
  existsb (N.eqb 0xFFFD) (toString buf).

End Utf8.

(** ** SHA-256 and HMAC: [crypto.createHash] and [crypto.createHmac]

    The two primitives of the platform the signer calls, after FIPS 180-4
    and RFC 2104. Words are numbers below [2^32], buffers lists of bytes. *)

Module Sha256.

Local Open Scope N_scope.

Definition add32 (a b : N) : N := (a + b) mod 4294967296.

Definition rotr (n x : N) : N :=
  N.lor (N.shiftr x n) ((N.shiftl x (32 - n)) mod 4294967296).

Definition Ch (x y z : N) : N :=
  N.lxor (N.land x y) (N.land (N.lxor x 0xFFFFFFFF) z).

Definition Maj (x y z : N) : N :=
  N.lxor (N.land x y) (N.lxor (N.land x z) (N.land y z)).

Definition Sigma0 (x : N) : N := N.lxor (rotr 2 x) (N.lxor (rotr 13 x) (rotr 22 x)).
Definition Sigma1 (x : N) : N := N.lxor (rotr 6 x) (N.lxor (rotr 11 x) (rotr 25 x)).
Definition sigma0 (x : N) : N := N.lxor (rotr 7 x) (N.lxor (rotr 18 x) (N.shiftr x 3)).
Definition sigma1 (x : N) : N := N.lxor (rotr 17 x) (N.lxor (rotr 19 x) (N.shiftr x 10)).

(** The constants of the standard are defined by it as the first 32
    bits of the fractional parts of roots of the first primes: cube
    roots of the first 64 for the round constants, square roots of the
    first 8 for the initial state. They are computed here from that
    definition. *)
Definition is_prime (n : N) : bool :=
  forallb (fun d => negb (N.eqb (n mod N.of_nat d) 0)) (seq 2 (N.to_nat n - 2)).

Definition first_primes (k : nat) : list N :=
  firstn k (filter is_prime (map N.of_nat (seq 2 400))).

(** The integer cube root, by bisection between [lo] and [hi]. *)
Fixpoint cube_root (fuel : nat) (lo hi x : N) : N :=
  match fuel with
  | O => lo
  | S f =>
      let mid := (lo + hi) / 2 in
      if N.leb (mid * mid * mid) x then cube_root f mid hi x
      else cube_root f lo mid x
  end.

Definition frac_cube_root (p : N) : N :=
  cube_root 40 0 (2 ^ 36) (p * 2 ^ 96) mod 4294967296.

Definition frac_square_root (p : N) : N :=
  N.sqrt (p * 2 ^ 64) mod 4294967296.

Definition K : list N :=
  Eval vm_compute in map frac_cube_root (first_primes 64).

Record state := {
  ha : N; hb : N; hc : N; hd : N; he : N; hf : N; hg : N; hh : N
}.

Definition H0 : state :=
  Eval vm_compute in
    match map frac_square_root (first_primes 8) with
    | [a; b; c; d; e; f; g; h] =>
        {| ha := a; hb := b; hc := c; hd := d; he := e; hf := f; hg := g; hh := h |}
    | _ => {| ha := 0; hb := 0; hc := 0; hd := 0; he := 0; hf := 0; hg := 0; hh := 0 |}
    end.

Definition round (s : state) (k w : N) : state :=
  let t1 := add32 (hh s) (add32 (Sigma1 (he s))
              (add32 (Ch (he s) (hf s) (hg s)) (add32 k w))) in
  let t2 := add32 (Sigma0 (ha s)) (Maj (ha s) (hb s) (hc s)) in
  {| ha := add32 t1 t2; hb := ha s; hc := hb s; hd := hc s;
     he := add32 (hd s) t1; hf := he s; hg := hf s; hh := hg s |}.

(** The 64 rounds over a window of the sixteen words of the schedule
    that start at the current round. *)
Fixpoint rounds (ks : list N) (w : list N) (s : state) : state :=
  match ks with
  | [] => s
  | k :: ks' =>
      let w0 := nth 0 w 0 in
      let next := add32 (sigma1 (nth 14 w 0))
                    (add32 (nth 9 w 0) (add32 (sigma0 (nth 1 w 0)) w0)) in
      rounds ks' (tl w ++ [next]) (round s k w0)
  end.

Fixpoint words (bytes : list N) : list N :=
  match bytes with
  | a :: b :: c :: d :: r => (a * 16777216 + b * 65536 + c * 256 + d) :: words r
  | _ => []
  end.

Definition compress (s : state) (block : list N) : state :=
  let r := rounds K (words block) s in
  {| ha := add32 (ha s) (ha r); hb := add32 (hb s) (hb r);
     hc := add32 (hc s) (hc r); hd := add32 (hd s) (hd r);
     he := add32 (he s) (he r); hf := add32 (hf s) (hf r);
     hg := add32 (hg s) (hg r); hh := add32 (hh s) (hh r) |}.

Definition be_bytes (n : nat) (x : N) : list N :=
  map (fun i => (x / 256 ^ N.of_nat i) mod 256) (rev (seq 0 n)).

Definition pad (msg : list N) : list N :=
  let len := N.of_nat (List.length msg) in
  let zeros := N.to_nat ((119 - len mod 64) mod 64) in
  msg ++ [0x80] ++ repeat 0 zeros ++ be_bytes 8 (8 * len).

Fixpoint blocks (fuel : nat) (s : state) (bytes : list N) : state :=
  match fuel with
  | O => s
  | S fuel' =>
      match bytes with
      | [] => s
      | _ => blocks fuel' (compress s (firstn 64 bytes)) (skipn 64 bytes)
      end
  end.

Definition digest_of (s : state) : list N :=
  flat_map (be_bytes 4) [ha s; hb s; hc s; hd s; he s; hf s; hg s; hh s].

(** The 32 bytes of the digest. *)
Definition sha256 (msg : list N) : list N :=
  let p := pad msg in
  digest_of (blocks (List.length p) H0 p).

(** [createHmac("sha256", key).update(data).digest()] *)
Definition hmac (key data : list N) : list N :=
  let key := if Nat.ltb 64 (List.length key) then sha256 key else key in
  let key := key ++ repeat 0 (64 - List.length key) in
  sha256 (map (N.lxor 0x5c) key ++ sha256 (map (N.lxor 0x36) key ++ data)).

Definition hex_digit (n : N) : N :=
  if N.ltb (n mod 16) 10 then 48 + n mod 16 else 87 + n mod 16.

(** [digest("hex")]: two lower-case digits for each byte. *)
Definition hex (bytes : list N) : Js.jstr :=
  flat_map (fun b => [hex_digit (b / 16); hex_digit b]) bytes.

End Sha256.

(** ** JSON values: [JSON.parse] and the coercions the callbacks use

    A number is kept as its literal reads, [JNum m e] for the decimal
    [m * 10^e]. The program sees the double that [JSON.parse] rounds the
    decimal to, so every operation on a number goes through [to_double]. *)

Module Json.

Import Js.

Inductive value :=
| JNull
| JBool (b : bool)
| JNum (m : Z) (e : Z)
| JStr (s : jstr)
| JArr (l : list value)
| JObj (fields : list (jstr * value)).

Definition is_ws (c : N) : bool :=
  N.eqb c 32 || N.eqb c 9 || N.eqb c 10 || N.eqb c 13.

Fixpoint skip_ws (s : jstr) : jstr :=
  match s with
  | c :: s' => if is_ws c then skip_ws s' else s
  | [] => []
  end.

Definition is_digit (c : N) : bool := in_range 48 57 c.

Definition hex_val (c : N) : option N :=
  if in_range 48 57 c then Some (c - 48)%N
  else if in_range 97 102 c then Some (c - 87)%N
  else if in_range 65 70 c then Some (c - 55)%N
  else None.

(** The four hexadecimal digits after [\u]. *)
Definition parse_hex4 (s : jstr) : option (N * jstr) :=
  match s with
  | a :: b :: c :: d :: s' =>
      match hex_val a, hex_val b, hex_val c, hex_val d with
      | Some a, Some b, Some c, Some d =>
          Some (a * 4096 + b * 256 + c * 16 + d, s')%N
      | _, _, _, _ => None
      end
  | _ => None
  end.

(** The characters of a string literal after its opening quote; [acc]
    is what has been read, reversed. *)
Fixpoint parse_chars (s : jstr) (acc : jstr) : option (jstr * jstr) :=
  match s with
  | [] => None
  | c :: s' =>
      if N.eqb c 34 then Some (rev acc, s')
      else if N.eqb c 92 then
        match s' with
        | [] => None
        | e :: s'' =>
            if N.eqb e 117 then
              match s'' with
              | a :: s3 =>
                  match s3 with
                  | b :: s4 =>
                      match s4 with
                      | c1 :: s5 =>
                          match s5 with
                          | d :: s6 =>
                              match parse_hex4 [a; b; c1; d] with
                              | Some (u, _) => parse_chars s6 (u :: acc)
                              | None => None
                              end
                          | [] => None
                          end
                      | [] => None
                      end
                  | [] => None
                  end
              | [] => None
              end
            else
              match (if N.eqb e 34 then Some 34
                     else if N.eqb e 92 then Some 92
                     else if N.eqb e 47 then Some 47
                     else if N.eqb e 98 then Some 8
                     else if N.eqb e 102 then Some 12
                     else if N.eqb e 110 then Some 10
                     else if N.eqb e 114 then Some 13
                     else if N.eqb e 116 then Some 9
                     else None)%N with
              | Some u => parse_chars s'' (u :: acc)
              | None => None
              end
        end
      else if N.ltb c 32 then None
      else parse_chars s' (c :: acc)
  end.

Fixpoint digits (s : jstr) (acc : Z) (n : nat) : Z * nat * jstr :=
  match s with
  | c :: s' =>
      if is_digit c then digits s' (acc * 10 + Z.of_N (c - 48)) (S n)
      else (acc, n, s)
  | [] => (acc, n, [])
  end.

(** A number literal: an optional minus, an integer part without a
    leading zero, an optional fraction, an optional exponent. *)
Definition parse_number (s : jstr) : option (value * jstr) :=
  let '(neg, s1) :=
    match s with
    | 45%N :: s' => (true, s')
    | _ => (false, s)
    end in
  let '(int, n, s2) := digits s1 0 0 in
  match n with
  | O => None
  | S _ =>
      if (Nat.ltb 1 n && match s1 with 48%N :: _ => true | _ => false end)%bool
      then None
      else
        let frac :=
          match s2 with
          | 46%N :: s' =>
              let '(m, k, s3) := digits s' int 0 in
              match k with
              | O => None
              | S _ => Some (m, k, s3)
              end
          | _ => Some (int, 0, s2)
          end in
        match frac with
        | None => None
        | Some (m, k, s3) =>
            let expo :=
              match s3 with
              | c :: s' =>
                  if N.eqb c 101 || N.eqb c 69 then
                    let '(sg, s4) :=
                      match s' with
                      | 43%N :: r => (1%Z, r)
                      | 45%N :: r => ((-1)%Z, r)
                      | _ => (1%Z, s')
                      end in
                    let '(x, j, s5) := digits s4 0 0 in
                    match j with
                    | O => None
                    | S _ => Some ((sg * x)%Z, s5)
                    end
                  else Some (0%Z, s3)
              | [] => Some (0%Z, s3)
              end in
            match expo with
            | None => None
            | Some (x, s5) =>
                Some (JNum (if neg then - m else m)%Z (x - Z.of_nat k)%Z, s5)
            end
        end
  end.

(** A value, an array after its first bracket, an object after its
    first brace: one recursion on [fuel], [mode] saying which. *)
Inductive mode := MValue | MElems (acc : list value)
                | MFields (acc : list (jstr * value)).

Fixpoint parse_at (fuel : nat) (m : mode) (s : jstr) : option (value * jstr) :=
  match fuel with
  | O => None
  | S fuel' =>
      match m with
      | MValue =>
          match skip_ws s with
          | [] => None
          | c :: s' =>
              if N.eqb c 34 then
                match parse_chars s' [] with
                | Some (str, r) => Some (JStr str, r)
                | None => None
                end
              else if N.eqb c 91 then
                match skip_ws s' with
                | 93%N :: r => Some (JArr [], r)
                | _ => parse_at fuel' (MElems []) s'
                end
              else if N.eqb c 123 then
                match skip_ws s' with
                | 125%N :: r => Some (JObj [], r)
                | _ => parse_at fuel' (MFields []) s'
                end
              else if startsWith (lit "true") (c :: s') then
                Some (JBool true, skipn 4 (c :: s'))
              else if startsWith (lit "false") (c :: s') then
                Some (JBool false, skipn 5 (c :: s'))
              else if startsWith (lit "null") (c :: s') then
                Some (JNull, skipn 4 (c :: s'))
              else parse_number (c :: s')
          end
      | MElems acc =>
          match parse_at fuel' MValue s with
          | None => None
          | Some (v, r) =>
              match skip_ws r with
              | 44%N :: r' => parse_at fuel' (MElems (v :: acc)) r'
              | 93%N :: r' => Some (JArr (rev (v :: acc)), r')
              | _ => None
              end
          end
      | MFields acc =>
          match skip_ws s with
          | 34%N :: s' =>
              match parse_chars s' [] with
              | None => None
              | Some (k, r) =>
                  match skip_ws r with
                  | 58%N :: r' =>
                      match parse_at fuel' MValue r' with
                      | None => None
                      | Some (v, r'') =>
                          match skip_ws r'' with
                          | 44%N :: r3 => parse_at fuel' (MFields ((k, v) :: acc)) r3
                          | 125%N :: r3 => Some (JObj (rev ((k, v) :: acc)), r3)
                          | _ => None
                          end
                      end
                  | _ => None
                  end
              end
          | _ => None
          end
      end
  end.

(** [_.attempt(() => JSON.parse(s))]: [None] is the error. Every round
    of [parse_at] that calls itself has consumed a character or will
    consume one at once, so twice the length is fuel enough. *)
Definition parse (s : jstr) : option value :=
  match parse_at (2 * List.length s + 2) MValue s with
  | Some (v, r) => match skip_ws r with [] => Some v | _ => None end
  | None => None
  end.

(** Reading a property: [None] is [undefined]. The last of several
    equal keys wins. Reading a property of [null] throws; the callers
    deal with that. Strings, numbers, booleans and arrays have none of
    the properties the source reads. *)
Fixpoint lookup (k : jstr) (fields : list (jstr * value)) : option value :=
  match fields with
  | [] => None
  | (k', v) :: r =>
      match lookup k r with
      | Some v' => Some v'
      | None => if Js.eqb k k' then Some v else None
      end
  end.

Definition prop (v : value) (k : string) : option value :=
  match v with
  | JObj fields => lookup (lit k) fields
  | _ => None
  end.

(** *** Numbers

    A double: zero (the source never tells [-0] from [0]), a finite
    value [M * 2^E] in the one spelling with [2^52 <= M < 2^53], or with
    [M < 2^52] and [E = -1074] when it is subnormal, or an infinity.
    [JSON.parse] gives no NaN. *)
Inductive double :=
| DZero
| DFin (neg : bool) (M : Z) (E : Z)
| DInf (neg : bool).

Definition double_eqb (a b : double) : bool :=
  match a, b with
  | DZero, DZero => true
  | DFin s M E, DFin s' M' E' => Bool.eqb s s' && Z.eqb M M' && Z.eqb E E'
  | DInf s, DInf s' => Bool.eqb s s'
  | _, _ => false
  end.

(** The integer nearest to [p / q], the even one of two that are
    equally near; [0 <= p] and [0 < q]. *)
Definition round_div (p q : Z) : Z :=
  let d := (p / q)%Z in
  let r := (2 * (p mod q))%Z in
  if Z.ltb r q then d
  else if Z.ltb q r then (d + 1)%Z
  else if Z.even d then d else (d + 1)%Z.

(** The fraction [p / (q * b^k)], for an exponent [k] of either sign. *)
Definition scale (b p q k : Z) : Z * Z :=
  if Z.leb 0 k then (p, q * b ^ k)%Z else (p * b ^ (- k), q)%Z.

(** The [k] with [2^k <= p / q < 2^(k+1)]; [0 < p] and [0 < q]. *)
Definition floor_log2 (p q : Z) : Z :=
  let k := (Z.log2 p - Z.log2 q)%Z in
  let '(p', q') := scale 2 p q k in
  if Z.ltb p' q' then (k - 1)%Z else k.

(** The double nearest to [m * 10^e], ties to even: 53 bits of
    mantissa, exponents from [-1074] to [971], beyond them infinity. *)
Definition to_double (m e : Z) : double :=
  let a := Z.abs m in
  if Z.eqb a 0 then DZero
  else
    let '(p, q) := scale 10 a 1 (- e) in
    let E := Z.max (floor_log2 p q - 52) (-1074) in
    let '(p', q') := scale 2 p q E in
    let M := round_div p' q' in
    if Z.eqb M 0 then DZero
    else if Z.eqb M (2 ^ 53) then
      if Z.ltb 970 E then DInf (Z.ltb m 0)
      else DFin (Z.ltb m 0) (2 ^ 52) (E + 1)
    else if Z.ltb 971 E then DInf (Z.ltb m 0)
    else DFin (Z.ltb m 0) M E.

Fixpoint nat_digits (fuel : nat) (n : N) (acc : jstr) : jstr :=
  match fuel with
  | O => acc
  | S f =>
      if N.ltb n 10 then (48 + n)%N :: acc
      else nat_digits f (n / 10)%N ((48 + n mod 10)%N :: acc)
  end.

(** The decimal digits of an integer, with its sign. *)
Definition int_text (z : Z) : jstr :=
  let n := Z.to_N (Z.abs z) in
  (if Z.ltb z 0 then [45%N] else []) ++ nat_digits (S (N.to_nat (N.size n))) n [].

(** [Number::toString]: the least [n], counted up from [n], with
    [p / q < 10^n]. *)
Fixpoint magnitude (fuel : nat) (p q n : Z) : Z :=
  match fuel with
  | O => n
  | S f =>
      let '(p', q') := scale 10 p q n in
      if Z.ltb p' q' then n else magnitude f p q (n + 1)
  end.

(** A bound from below on that [n]: [p / q] is above [2^c]. *)
Definition magnitude_from (p q : Z) : Z :=
  let c := (Z.log2 p - Z.log2 q - 1)%Z in
  if Z.leb 0 c then (c * 3 / 10)%Z else (c / 3)%Z.

(** The integer [s] of [k] digits for which [s * 10^(n-k)] rounds to
    [x], if there is one: the nearer to [p / q], which is [x], of the
    two around it, the even one of two that are equally near. *)
Definition candidate (x : double) (p q n k : Z) : option (Z * Z) :=
  let t := (n - k)%Z in
  let '(p', q') := scale 10 p q t in
  let lo := (p' / q')%Z in
  let hi := (lo + 1)%Z in
  let ok s := double_eqb (to_double s t) x in
  match ok lo, ok hi with
  | true, true =>
      match (2 * p' ?= (lo + hi) * q')%Z with
      | Lt => Some (lo, t)
      | Gt => Some (hi, t)
      | Eq => Some (if Z.even lo then lo else hi, t)
      end
  | true, false => Some (lo, t)
  | false, true => Some (hi, t)
  | false, false => None
  end.

(** The least number of digits that gives the double back; 17 always
    do. *)
Fixpoint shortest (fuel : nat) (x : double) (p q n k : Z) : Z * Z :=
  match fuel with
  | O => (0, 0)%Z
  | S f =>
      match candidate x p q n k with
      | Some r => r
      | None => shortest f x p q n (k + 1)
      end
  end.

Fixpoint strip_zeros (fuel : nat) (s t : Z) : Z * Z :=
  match fuel with
  | O => (s, t)
  | S f =>
      if Z.eqb (s mod 10) 0 then strip_zeros f (s / 10) (t + 1) else (s, t)
  end.

Definition zeros (n : Z) : jstr := repeat 48%N (Z.to_nat n).

(** The digits [ds] of [s] laid out for the value [0.ds * 10^n]. *)
Definition layout (ds : jstr) (n : Z) : jstr :=
  let k := Z.of_nat (List.length ds) in
  if Z.leb k n && Z.leb n 21 then ds ++ zeros (n - k)
  else if Z.ltb 0 n && Z.leb n 21 then
    firstn (Z.to_nat n) ds ++ lit "." ++ skipn (Z.to_nat n) ds
  else if Z.ltb (-6) n && Z.leb n 0 then lit "0." ++ zeros (- n) ++ ds
  else
    let ex := (if Z.ltb 0 (n - 1) then lit "+" else lit "-")
                ++ int_text (Z.abs (n - 1)) in
    match ds with
    | [] => []
    | [d] => [d] ++ lit "e" ++ ex
    | d :: r => [d] ++ lit "." ++ r ++ lit "e" ++ ex
    end.

(** [String(x)] for a number [x]. *)
Definition double_text (x : double) : jstr :=
  match x with
  | DZero => lit "0"
  | DInf neg => if neg then lit "-Infinity" else lit "Infinity"
  | DFin neg M E =>
      let '(p, q) := scale 2 M 1 (- E) in
      let n := magnitude 64 p q (magnitude_from p q) in
      let '(s, t) := shortest 17 (DFin false M E) p q n 1 in
      let '(s, t) := strip_zeros 17 s t in
      let ds := int_text s in
      (if neg then lit "-" else [])
        ++ layout ds (t + Z.of_nat (List.length ds))
  end.

(** The value of a digit in a radix up to 16. *)
Definition digit_in (b : N) (c : N) : option N :=
  match hex_val c with
  | Some d => if N.ltb d b then Some d else None
  | None => None
  end.

Fixpoint radix_value (b : N) (s : jstr) (acc : Z) : option Z :=
  match s with
  | [] => Some acc
  | c :: r =>
      match digit_in b c with
      | Some d => radix_value b r (acc * Z.of_N b + Z.of_N d)
      | None => None
      end
  end.

(** A decimal literal without its sign: digits, an optional fraction,
    an optional exponent, with a digit before or after the point. *)
Definition unsigned_decimal (t : jstr) : option (Z * Z) :=
  let '(int, n, s2) := digits t 0 0 in
  let '(m, k, s3) :=
    match s2 with
    | 46%N :: s' => digits s' int 0
    | _ => (int, O, s2)
    end in
  match (n + k)%nat with
  | O => None
  | S _ =>
      match s3 with
      | [] => Some (m, (- Z.of_nat k)%Z)
      | c :: s' =>
          if N.eqb c 101 || N.eqb c 69 then
            let '(sg, s4) :=
              match s' with
              | 43%N :: r => (1%Z, r)
              | 45%N :: r => ((-1)%Z, r)
              | _ => (1%Z, s')
              end in
            match digits s4 0 0 with
            | (x, S _, []) => Some (m, (sg * x - Z.of_nat k)%Z)
            | _ => None
            end
          else None
      end
  end.

(** [Number(s)] for a string: [None] is NaN. White space around the
    literal is set aside; an empty string is 0; a literal is a decimal
    one with an optional sign, [Infinity] with an optional sign, or an
    unsigned one in radix 16, 8 or 2. *)
Definition string_to_number (s : jstr) : option double :=
  let t := trim s in
  let radix b r :=
    match r with
    | [] => None
    | _ => option_map (fun z => to_double z 0) (radix_value b r 0)
    end in
  let signed neg r :=
    if Js.eqb r (lit "Infinity") then Some (DInf neg)
    else option_map (fun me => to_double (if neg then - fst me else fst me)%Z
                                         (snd me))
                    (unsigned_decimal r) in
  match t with
  | [] => Some DZero
  | 48%N :: 120%N :: r | 48%N :: 88%N :: r => radix 16%N r
  | 48%N :: 111%N :: r | 48%N :: 79%N :: r => radix 8%N r
  | 48%N :: 98%N :: r | 48%N :: 66%N :: r => radix 2%N r
  | 45%N :: r => signed true r
  | 43%N :: r => signed false r
  | _ => signed false t
  end.

Definition truthy (v : option value) : bool :=
  match v with
  | None => false
  | Some JNull => false
  | Some (JBool b) => b
  | Some (JNum m e) => negb (double_eqb (to_double m e) DZero)
  | Some (JStr s) => match s with [] => false | _ => true end
  | Some (JArr _) => true
  | Some (JObj _) => true
  end.

(** [String(v)], as [JSON.parse] and [==] apply it to a value that is
    not a string. *)
Fixpoint to_text (v : value) : jstr :=
  match v with
  | JNull => lit "null"
  | JBool true => lit "true"
  | JBool false => lit "false"
  | JNum m e => double_text (to_double m e)
  | JStr s => s
  | JArr l =>
      join (lit ",")
           (map (fun x => match x with JNull => [] | _ => to_text x end) l)
  | JObj _ => lit "[object Object]"
  end.

Definition to_text_opt (v : option value) : jstr :=
  match v with Some x => to_text x | None => lit "undefined" end.

(** [v === n] for a number [n]. *)
Definition strict_eq (v : option value) (n : Z) : bool :=
  match v with
  | Some (JNum m e) => double_eqb (to_double m e) (to_double n 0)
  | _ => false
  end.

(** [v == n] for a number [n]: [null] and [undefined] equal no number,
    a boolean is 1 or 0, a string is read as a number, an array or an
    object is first written as a string. *)
Definition loose_eq (v : option value) (n : Z) : bool :=
  let same d :=
    match d with
    | Some x => double_eqb x (to_double n 0)
    | None => false
    end in
  match v with
  | None | Some JNull => false
  | Some (JBool b) => same (Some (to_double (if b then 1 else 0) 0))
  | Some (JNum m e) => same (Some (to_double m e))
  | Some (JStr s) => same (string_to_number s)
  | Some (JArr l) => same (string_to_number (to_text (JArr l)))
  | Some (JObj f) => same (string_to_number (to_text (JObj f)))
  end.

End Json.

(** ** The event-stream parser: [createParser] of eventsource-parser

    The transcoders hand decoded text to a parser of the package
    eventsource-parser and receive its events in a callback. Of an event
    they read [type] and [data] only, so a parser is modelled by what it
    keeps between two calls of [feed] and by the [data] of the events of
    type ["event"] it reports during one call, in order. *)

Module Sse.

Import Js.

Record parser := {
  pstate : Type;
  pinit : pstate;
  feed : pstate -> jstr -> pstate * list jstr
}.

(** *** A reference parser

    The parser of eventsource-parser 1.x as the transcoders see it:
    lines end in CR LF, LF or CR; a line that starts with a colon is a
    comment; the text after the first colon, less one leading space, is
    the value of the field before it; [data] values are joined by line
    feeds; an empty line reports the event if any data was read. Two
    traits of the package are kept: what it strips from the head of the
    first chunk is the three code units 239, 187, 191, not U+FEFF; and
    it remembers a CR only within one call of [feed], so that a line
    feed at the head of the next call ends a line of its own. *)

Record rstate := {
  pending : jstr;     (* the unfinished last line *)
  databuf : jstr;     (* the data of the event being read *)
  first : bool        (* nothing was fed yet *)
}.

Definition rinit : rstate :=
  {| pending := []; databuf := []; first := true |}.

(** The field name and the value of a line that is not empty. *)
Fixpoint split_field (line : jstr) (name : jstr) : jstr * jstr :=
  match line with
  | [] => (rev name, [])
  | 58%N :: r => (rev name, match r with 32%N :: r' => r' | _ => r end)
  | c :: r => split_field r (c :: name)
  end.

(** One complete line: the data buffer after it and the event it
    reports, if it reports one. *)
Definition line_step (data : jstr) (line : jstr) : jstr * list jstr :=
  match line with
  | [] =>
      match data with
      | [] => ([], [])
      | _ => ([], [removelast data])
      end
  | _ =>
      let '(name, v) := split_field line [] in
      if Js.eqb name (lit "data") then (data ++ v ++ nl, []) else (data, [])
  end.

(** The characters of one call: [cur] is the line being read, reversed;
    [skip] says that the last line ended in CR, so that a line feed
    that follows at once belongs to it. *)
Fixpoint scan (s : jstr) (cur : jstr) (skip : bool) (data : jstr)
         (out : list jstr) : rstate * list jstr :=
  match s with
  | [] => ({| pending := rev cur; databuf := data; first := false |}, out)
  | c :: s' =>
      if N.eqb c 10 then
        if skip then scan s' cur false data out
        else let '(data', ev) := line_step data (rev cur) in
             scan s' [] false data' (out ++ ev)
      else if N.eqb c 13 then
        let '(data', ev) := line_step data (rev cur) in
        scan s' [] true data' (out ++ ev)
      else scan s' (c :: cur) false data out
  end.

Definition rfeed (st : rstate) (chunk : jstr) : rstate * list jstr :=
  let buffer := pending st ++ chunk in
  let buffer :=
    match first st, buffer with
    | true, 239%N :: 187%N :: 191%N :: r => r
    | _, _ => buffer
    end in
  scan buffer [] false (databuf st) [].

Definition reference : parser :=
  {| pstate := rstate; pinit := rinit; feed := rfeed |}.

End Sse.

(** ** Messages, content parts and asset references *)

Module Data.

Import Js.

(** A field such as [image_url] or [file_url]: absent (or of another
    type), a string, or an object whose [url] is a string or not. *)
Inductive url_field :=
| UrlAbsent
| UrlString (s : jstr)
| UrlObject (url : option jstr).

(** An object among the parts of a message. A part without a [type]
    behaves as one whose type is none of the compared literals. *)
Record part_obj := {
  p_type : jstr;
  p_text : option jstr;
  p_file_url : url_field;
  p_image_url : url_field
}.

Inductive part :=
| PStr (s : jstr)
| PObj (o : part_obj).

Inductive content :=
| CText (s : jstr)
| CParts (l : list part).

Record message := { role : jstr; content_of : content }.

(** What [uploadFile] returns for one asset; [None] below stands for
    the [null] it returns for an image that could not be staged. *)
Record ref := {
  file_url_url : jstr;
  name : jstr;
  ext : jstr;
  kind : jstr;
  width : option N;
  height : option N
}.

Record attachment := {
  a_type : jstr;
  a_name : jstr;
  a_key : jstr;
  a_width : N;
  a_height : N
}.

(** The one element of the array [messagesPrepare] returns. Its
    [content] is [JSON.stringify({ text })]; [references] is empty. *)
Record packed := {
  text : jstr;
  content_type : N;
  attachments : list attachment
}.

Definition text_part (t : jstr) : part :=
  PObj {| p_type := lit "text"; p_text := Some t;
          p_file_url := UrlAbsent; p_image_url := UrlAbsent |}.

Definition image_part (u : jstr) : part :=
  PObj {| p_type := lit "image_url"; p_text := None;
          p_file_url := UrlAbsent; p_image_url := UrlObject (Some u) |}.

Definition file_part (u : jstr) : part :=
  PObj {| p_type := lit "file"; p_text := None;
          p_file_url := UrlObject (Some u); p_image_url := UrlAbsent |}.

End Data.

(** ** The message packer: [messagesPrepare] *)

Module Packer.

Import Js Data.

(** [v.text], or the empty string when it is falsy. *)
Definition text_or_empty (t : option jstr) : jstr :=
  match t with Some s => s | None => [] end.

Definition is_text_obj (v : part) : option part_obj :=
  match v with
  | PObj o => if Js.eqb (p_type o) (lit "text") then Some o else None
  | PStr _ => None
  end.

(** The pass-through branch: the reducer of lines 570-578. *)
Definition passthrough_message (acc : jstr) (m : message) : jstr :=
  match content_of m with
  | CParts l =>
      fold_left
        (fun acc' v =>
           match is_text_obj v with
           | None => acc'
           | Some o => acc' ++ text_or_empty (p_text o) ++ nl
           end) l acc
  | CText s => acc ++ s ++ nl
  end.

Definition passthrough (messages : list message) : jstr :=
  fold_left passthrough_message messages [].

(** [typeof v === "object" && ["file", "image_url"].includes(v["type"])] *)
Definition is_file_or_image (v : part) : bool :=
  match v with
  | PObj o => Js.eqb (p_type o) (lit "file") || Js.eqb (p_type o) (lit "image_url")
  | PStr _ => false
  end.

Definition hasFileOrImage (latest : message) : bool :=
  match content_of latest with
  | CParts l => existsb is_file_or_image l
  | CText _ => false
  end.

Definition newFileMessage : message :=
  {| role := lit "system";
     content_of := CText (Utf8.text "关注用户最新发送文件和消息") |}.

(** [messages.splice(messages.length - 1, 0, item)] *)
Definition splice_before_last (messages : list message) (item : message)
  : list message :=
  firstn (List.length messages - 1) messages ++ item ::
  skipn (List.length messages - 1) messages.

(** The match of [data:[^;]+;base64,] at the head of [s], as a length. *)
Definition match_dataUri_prefix (s : jstr) : option nat :=
  if startsWith (lit "data:") s then
    let r := skipn 5 s in
    let n := run (fun c => negb (N.eqb c 59)) r in
    match n with
    | O => None
    | S _ =>
        if startsWith (lit ";base64,") (skipn n r) then Some (5 + n + 8)
        else None
    end
  else None.

(** The match of [data:[^;]+;base64,[A-Za-z0-9+/=]+] at the head. *)
Definition match_dataUri (s : jstr) : option nat :=
  match match_dataUri_prefix s with
  | None => None
  | Some n =>
      match run is_b64char (skipn n s) with
      | O => None
      | S k => Some (n + S k)
      end
  end.

(** The match of [[A-Za-z0-9+/=]{500,}] at the head. *)
Definition match_b64run (s : jstr) : option nat :=
  let n := run is_b64char s in
  if Nat.leb 500 n then Some n else None.

Section WithUtil.

(** [util.isBASE64], of [lib/util.ts]. *)
Variable isBASE64 : jstr -> bool.

(** Lines 606-623. *)
Definition cleanTextContent (text : jstr) : jstr :=
  match text with
  | [] => []
  | _ =>
      let t := replace_all match_dataUri text in
      let t := replace_all match_b64run t in
      join (nl)
           (filter
              (fun line =>
                 let trimmed := trim line in
                 negb (Nat.ltb 300 (List.length trimmed) && isBASE64 trimmed))
              (split_lines t))
  end.

(** The match of [\!\[.+\]\(.+\)] at the head: both [.+] are greedy
    and stay on the line, so the match runs to the last closing
    parenthesis of the line, and exists when some ["]("] stands at
    least one character after ["!["] and at least one character
    before that parenthesis. *)
Fixpoint last_index (c : N) (l : jstr) (i : nat) (found : option nat)
  : option nat :=
  match l with
  | [] => found
  | x :: l' => last_index c l' (S i) (if N.eqb x c then Some i else found)
  end.

Definition match_mdImage (s : jstr) : option nat :=
  if startsWith (lit "![") s then
    let rest := skipn 2 s in
    let line := firstn (run (fun c => negb (is_line_terminator c)) rest) rest in
    match last_index 41 line 0 None with
    | None => None
    | Some k =>
        if existsb
             (fun j => N.eqb (nth j line 0%N) 93 && N.eqb (nth (S j) line 0%N) 40)
             (seq 1 (k - 3))
        then Some (2 + k + 1)
        else None
    end
  else None.

(** The match of [\/mnt\/data\/.+] at the head. *)
Definition match_mntData (s : jstr) : option nat :=
  if startsWith (lit "/mnt/data/") s then
    match run (fun c => negb (is_line_terminator c)) (skipn 10 s) with
    | O => None
    | S n => Some (10 + S n)
    end
  else None.

(** [message.role.replace(...).replace(...).replace(...)] *)
Definition role_tag (r : jstr) : jstr :=
  replace (lit "user") (lit "<|im_start|>user")
    (replace (lit "assistant") (lit "<|im_start|>assistant")
       (replace (lit "system") (lit "<|im_start|>system") r)).

(** The merging branch: the reducer of lines 626-640. *)
Definition merge_message (acc : jstr) (m : message) : jstr :=
  let role := role_tag (role m) in
  match content_of m with
  | CParts l =>
      fold_left
        (fun acc' v =>
           match is_text_obj v with
           | None => acc'
           | Some o =>
               acc' ++ (role ++ nl ++ cleanTextContent (text_or_empty (p_text o)))
                    ++ nl
           end) l acc
  | CText s =>
      (acc ++ role ++ nl ++ cleanTextContent s ++ nl) ++ lit "<|im_end|>" ++ nl
  end.

Definition merged (messages : list message) : jstr :=
  replace_all match_mntData
    (replace_all match_mdImage (fold_left merge_message messages [])).

(** [ref.width || ref.height] *)
Definition truthy_dim (d : option N) : bool :=
  match d with Some n => negb (N.eqb n 0) | None => false end.

Definition has_dims (r : ref) : bool :=
  truthy_dim (width r) || truthy_dim (height r).

Definition or_one (d : option N) : N :=
  match d with Some n => if N.eqb n 0 then 1%N else n | None => 1%N end.

(** [refs.filter(Boolean)] *)
Definition safeRefs (refs : list (option ref)) : list ref :=
  flat_map (fun r => match r with Some x => [x] | None => [] end) refs.

Definition fileRefs (refs : list (option ref)) : list ref :=
  filter (fun r => negb (has_dims r)) (safeRefs refs).

Definition rawImageRefs (refs : list (option ref)) : list ref :=
  filter has_dims (safeRefs refs).

(** Only keys that match [^tos-cn-i-] stay. *)
Definition imageRefs (refs : list (option ref)) : list ref :=
  filter (fun r => startsWith (lit "tos-cn-i-") (file_url_url r))
         (rawImageRefs refs).

(** One [vlm_image] attachment; its [identifier] is a fresh random
    UUID, and its review and parse states are the constant 3. *)
Definition attachment_of (r : ref) : attachment :=
  {| a_type := lit "vlm_image";
     a_name := or_else (name r)
                 (or_else (last (split_char 47 (file_url_url r)) [])
                         (lit "image." ++ or_else (ext r) (lit "png")));
     a_key := file_url_url r;
     a_width := or_one (width r);
     a_height := or_one (height r) |}.

(** Lines 676-685: the text of the last message. *)
Definition lastText (messages : list message) : jstr :=
  match last (map Some messages) None with
  | None => []
  | Some m =>
      match content_of m with
      | CParts l =>
          join nl (map (fun o => text_or_empty (p_text o))
                       (flat_map (fun v => match is_text_obj v with
                                           | Some o => [o]
                                           | None => []
                                           end) l))
      | CText s => s
      end
  end.

(** [dataUriPattern.exec(t)] with [lastIndex = pos]: the leftmost match
    at or after [pos], as its start and the length of the prefix. *)
Fixpoint find_dataUri (s : jstr) (pos : nat) : option (nat * nat) :=
  match match_dataUri_prefix s with
  | Some n => Some (pos, n)
  | None =>
      match s with
      | [] => None
      | _ :: s' => find_dataUri s' (S pos)
      end
  end.

(** The loop of lines 695-705. Every round shortens [t], so a fuel of
    its length never runs out. *)
Fixpoint strip_dataUris (fuel : nat) (t : jstr) (lastIndex : nat) : jstr :=
  match fuel with
  | O => t
  | S fuel' =>
      match find_dataUri (skipn lastIndex t) lastIndex with
      | None => t
      | Some (start, n) =>
          let e := start + n + run is_b64char (skipn (start + n) t) in
          strip_dataUris fuel' (firstn start t ++ skipn e t) start
      end
  end.

(** [base64Chars > trimmed.length * 0.9], on integers: a count exceeds
    nine tenths of a length exactly when ten times the count exceeds
    nine times the length. *)
Definition looks_base64 (line : jstr) : bool :=
  let trimmed := trim line in
  Nat.ltb 200 (List.length trimmed) &&
  Nat.ltb (9 * List.length trimmed)
          (10 * List.length (filter is_b64char trimmed)).

(** Lines 688-722. *)
Definition cleanBase64 (text : jstr) : jstr :=
  match text with
  | [] => []
  | _ =>
      let t := strip_dataUris (List.length text) text 0 in
      trim (join nl (filter (fun line => negb (looks_base64 line))
                            (split_lines t)))
  end.

(** [messagesPrepare(messages, refs, isRefConv)]: the packed payload
    and the [messages] array as the call leaves it. *)
Definition messagesPrepare (messages : list message)
           (refs : list (option ref)) (isRefConv : bool)
  : packed * list message :=
  let '(content, messages) :=
    if isRefConv || Nat.ltb (List.length messages) 2 then
      (passthrough messages, messages)
    else
      let messages :=
        match last (map Some messages) None with
        | Some latestMessage =>
            if hasFileOrImage latestMessage
            then splice_before_last messages newFileMessage
            else messages
        | None => messages
        end in
      (merged messages, messages) in
  let attachments := map attachment_of (imageRefs refs) in
  let hasImages := Nat.ltb 0 (List.length attachments) in
  let cleanedLastText := cleanBase64 (lastText messages) in
  let finalContent :=
    if hasImages then cleanedLastText else cleanBase64 content in
  ({| text := finalContent; content_type := 2001; attachments := attachments |},
   messages).

End WithUtil.

End Packer.

(** ** Failures *)

Module Exn.

(** What the source throws or rejects with; messages are left out. *)
Inductive exn :=
| API_REQUEST_FAILED        (* APIException(EX.API_REQUEST_FAILED, ...) *)
| API_FILE_URL_INVALID      (* APIException(EX.API_FILE_URL_INVALID, ...) *)
| API_FILE_EXECEEDS_SIZE    (* APIException(EX.API_FILE_EXECEEDS_SIZE, ...) *)
| StreamInvalid             (* Error("Stream response invalid: ...") *)
| TypeError                 (* reading a property of null *)
| URIError                  (* encodeURIComponent on a lone surrogate *)
| AxiosError                (* a call that got no answer, or a refused status *)
| StreamError.              (* the error event of the upstream stream *)

Inductive result (A : Type) :=
| Ok (a : A)
| Throw (e : exn).

Arguments Ok {A} a.
Arguments Throw {A} e.

Definition bind {A B} (r : result A) (k : A -> result B) : result B :=
  match r with
  | Ok a => k a
  | Throw e => Throw e
  end.

End Exn.

(** ** The stream transcoders: [receiveStream] and [createTransStream] *)

Module Transcoder.

Import Js Json Exn.

(** What reaches the handlers of one request, in the order of time: the
    three events of the upstream stream, and the moment the stream
    handed to the caller is closed. *)
Inductive event :=
| Data (buffer : list N)
| Error
| Close
| DownstreamClosed.

(** Lines 1333-1346 and, word for word, 1471-1484: the new [temp] and
    the bytes to decode and feed, if this chunk is fed. *)
Definition on_data (temp buffer : list N) : list N * option (list N) :=
  if Utf8.has_replacement buffer then (temp ++ buffer, None)
  else
    match temp with
    | [] => (temp, Some buffer)
    | _ => ([], Some (temp ++ buffer))
    end.

(** [content.replace(/\n$/, empty)] *)
Definition drop_final_nl (s : jstr) : jstr :=
  match rev s with
  | 10%N :: r => rev r
  | _ => s
  end.

(** Lines 1315-1324 and 1440-1449: the text of a delta. [m] is
    [message.content], known to be truthy. Reading [content.text] of a
    content that parsed to [null] throws. *)
Definition delta_text (m : value) : result jstr :=
  match Json.parse (to_text m) with
  | Some content =>
      match content with
      | JStr s => Ok s
      | JNull => Throw TypeError
      | _ =>
          match prop content "text" with
          | Some (JStr s) => Ok s
          | _ =>
              match (if truthy (prop content "delta")
                     then match prop content "delta" with
                          | Some d => prop d "text"
                          | None => None
                          end
                     else None) with
              | Some (JStr s) => Ok s
              | _ =>
                  match prop content "content" with
                  | Some (JStr s) => Ok s
                  | _ => Ok []
                  end
              end
          end
      end
  | None =>
      match m with
      | JStr s => Ok s
      | _ => Ok []
      end
  end.

(** [JSON.parse] followed by the first property read, which throws on
    [null]. *)
Definition parse_object (s : jstr) : result value :=
  match Json.parse s with
  | None => Throw StreamInvalid
  | Some JNull => Throw TypeError
  | Some v => Ok v
  end.

Section WithParser.

Variable P : Sse.parser.

(** *** Buffered mode: [receiveStream] *)

(** The completion object: [model], [object], [usage] and
    [finish_reason: "stop"] are constants, [created] is the clock. *)
Record answer := { id : value; content : jstr }.

(** A call of [resolve] or [reject], and the place it is made. *)
Inductive origin := FromFrame | FromClose | FromError.

Inductive settle :=
| Resolve (o : origin) (a : answer)
| Reject (o : origin) (e : exn).

Record rs_state := {
  rs_temp : list N;
  rs_parser : Sse.pstate P;
  rs_isEnd : bool;
  rs_data : answer;
  rs_calls : list settle;      (* every resolve and reject, in order *)
  rs_error_seen : bool;        (* [once]: the handler has run *)
  rs_close_seen : bool
}.

Definition rs_init : rs_state :=
  {| rs_temp := []; rs_parser := Sse.pinit P; rs_isEnd := false;
     rs_data := {| id := JStr []; content := [] |};
     rs_calls := []; rs_error_seen := false; rs_close_seen := false |}.

Definition rs_set_data (st : rs_state) (d : answer) : rs_state :=
  {| rs_temp := rs_temp st; rs_parser := rs_parser st;
     rs_isEnd := rs_isEnd st; rs_data := d; rs_calls := rs_calls st;
     rs_error_seen := rs_error_seen st; rs_close_seen := rs_close_seen st |}.

Definition rs_call (st : rs_state) (c : settle) : rs_state :=
  {| rs_temp := rs_temp st; rs_parser := rs_parser st;
     rs_isEnd := rs_isEnd st; rs_data := rs_data st;
     rs_calls := rs_calls st ++ [c];
     rs_error_seen := rs_error_seen st; rs_close_seen := rs_close_seen st |}.

(** Lines 1296-1298 and 1306-1308. *)
Definition rs_finish (st : rs_state) : rs_state :=
  let d := {| id := id (rs_data st);
              content := drop_final_nl (content (rs_data st)) |} in
  {| rs_temp := rs_temp st; rs_parser := rs_parser st;
     rs_isEnd := true; rs_data := d;
     rs_calls := rs_calls st ++ [Resolve FromFrame d];
     rs_error_seen := rs_error_seen st; rs_close_seen := rs_close_seen st |}.

(** The body of the [try] of lines 1286-1326, for an event of type
    ["event"] that arrives while [isEnd] is false: the state it
    leaves and what it throws, if it throws. *)
Definition rs_try (st : rs_state) (data : jstr) : rs_state * option exn :=
  match parse_object data with
  | Throw e => (st, Some e)
  | Ok rawResult =>
      if truthy (prop rawResult "code") then (st, Some API_REQUEST_FAILED)
      else if loose_eq (prop rawResult "event_type") 2003 then
        (rs_finish st, None)
      else if negb (loose_eq (prop rawResult "event_type") 2001) then
        (st, None)
      else
        match parse_object (to_text_opt (prop rawResult "event_data")) with
        | Throw e => (st, Some e)
        | Ok result =>
            if truthy (prop result "is_finish") then (rs_finish st, None)
            else
              let st :=
                if negb (truthy (Some (id (rs_data st))))
                   && truthy (prop result "conversation_id")
                then
                  match prop result "conversation_id" with
                  | Some c => rs_set_data st {| id := c;
                                                content := content (rs_data st) |}
                  | None => st
                  end
                else st in
              match prop result "message" with
              | Some message =>
                  if truthy (Some message) then
                    match prop message "content" with
                    | Some mc =>
                        if truthy (Some mc) then
                          match delta_text mc with
                          | Throw e => (st, Some e)
                          | Ok [] => (st, None)
                          | Ok t =>
                              (rs_set_data st
                                 {| id := id (rs_data st);
                                    content := content (rs_data st) ++ t |},
                               None)
                          end
                        else (st, None)
                    | None => (st, None)
                    end
                  else (st, None)
              | None => (st, None)
              end
        end
  end.

(** The callback handed to [createParser], lines 1285-1331. *)
Definition rs_on_event (st : rs_state) (data : jstr) : rs_state :=
  if rs_isEnd st then st
  else
    match rs_try st data with
    | (st', None) => st'
    | (st', Some err) => rs_call st' (Reject FromFrame err)
    end.

Definition rs_set_feed (st : rs_state) (temp : list N)
           (p : Sse.pstate P) : rs_state :=
  {| rs_temp := temp; rs_parser := p; rs_isEnd := rs_isEnd st;
     rs_data := rs_data st; rs_calls := rs_calls st;
     rs_error_seen := rs_error_seen st; rs_close_seen := rs_close_seen st |}.

(** One event of the upstream stream. *)
Definition rs_step (st : rs_state) (ev : event) : rs_state :=
  match ev with
  | Data buffer =>
      match on_data (rs_temp st) buffer with
      | (temp, None) => rs_set_feed st temp (rs_parser st)
      | (temp, Some bytes) =>
          let '(p, events) := Sse.feed P (rs_parser st) (Utf8.toString bytes) in
          fold_left rs_on_event events (rs_set_feed st temp p)
      end
  | Error =>
      if rs_error_seen st then st
      else
        {| rs_temp := rs_temp st; rs_parser := rs_parser st;
           rs_isEnd := rs_isEnd st; rs_data := rs_data st;
           rs_calls := rs_calls st ++ [Reject FromError StreamError];
           rs_error_seen := true; rs_close_seen := rs_close_seen st |}
  | Close =>
      if rs_close_seen st then st
      else
        {| rs_temp := rs_temp st; rs_parser := rs_parser st;
           rs_isEnd := rs_isEnd st; rs_data := rs_data st;
           rs_calls := rs_calls st ++ [Resolve FromClose (rs_data st)];
           rs_error_seen := rs_error_seen st; rs_close_seen := true |}
  | DownstreamClosed => st
  end.

Definition rs_run (events : list event) : rs_state :=
  fold_left rs_step events rs_init.

(** The promise [receiveStream] returns: settled by the first call of
    [resolve] or [reject], pending while there is none. *)
Inductive promise :=
| Pending
| Resolved (a : answer)
| Rejected (e : exn).

Definition promise_of (calls : list settle) : promise :=
  match calls with
  | [] => Pending
  | Resolve _ a :: _ => Resolved a
  | Reject _ e :: _ => Rejected e
  end.

Definition receiveStream (events : list event) : promise :=
  promise_of (rs_calls (rs_run events)).

(** *** Live mode: [createTransStream] *)

(** What is written to the stream handed to the caller. A chunk is
    the text [data: <json>] and an empty line, where the JSON has the
    fields below and the constants [model], [object], [index],
    [role] and [created]. *)
Inductive frame :=
| Chunk (id : option value) (content : jstr) (finish_reason : option jstr)
| DoneMarker                  (* "data: [DONE]\n\n" *)
| BlankLines.                 (* "\n\n" *)

(** The [PassThrough] stream, seen from its writing end: what was
    accepted, whether [end] was called, whether the stream is closed,
    and how many writes came after the end; the stream refuses those
    and raises an error for each. *)
Record passthrough := {
  written : list frame;
  ended : bool;
  closed : bool;
  writes_after_end : nat
}.

Definition pt_new : passthrough :=
  {| written := []; ended := false; closed := false; writes_after_end := 0 |}.

(** [transStream.write(f)]. A write that comes after the end, or after
    the stream was closed, is refused with an error, and the error
    destroys the stream: from then on it is closed. *)
Definition pt_write (f : frame) (s : passthrough) : passthrough :=
  if ended s || closed s then
    {| written := written s; ended := ended s; closed := true;
       writes_after_end := S (writes_after_end s) |}
  else
    {| written := written s ++ [f]; ended := ended s; closed := closed s;
       writes_after_end := writes_after_end s |}.

(** [transStream.end(f)]: the write of [f], then the end. *)
Definition pt_end (f : frame) (s : passthrough) : passthrough :=
  if ended s || closed s then
    {| written := written s; ended := true; closed := true;
       writes_after_end := S (writes_after_end s) |}
  else
    {| written := written s ++ [f]; ended := true; closed := closed s;
       writes_after_end := writes_after_end s |}.

(** [!transStream.closed && transStream.end(f)] *)
Definition pt_end_unless_closed (f : frame) (s : passthrough) : passthrough :=
  if closed s then s else pt_end f s.

Definition pt_close (s : passthrough) : passthrough :=
  {| written := written s; ended := ended s; closed := true;
     writes_after_end := writes_after_end s |}.

Record ts_state := {
  ts_convId : option value;          (* [None] is [undefined] *)
  ts_temp : list N;
  ts_parser : Sse.pstate P;
  ts_stream : passthrough;
  ts_endCallback : list (option value);   (* the calls of [endCallback] *)
  ts_error_seen : bool;
  ts_close_seen : bool
}.

Definition stop : option jstr := Some (lit "stop").

(** Lines 1361-1382. *)
Definition ts_init : ts_state :=
  {| ts_convId := Some (JStr []); ts_temp := [];
     ts_parser := Sse.pinit P;
     ts_stream := pt_write (Chunk (Some (JStr [])) [] None) pt_new;
     ts_endCallback := []; ts_error_seen := false; ts_close_seen := false |}.

Definition ts_with (st : ts_state) (convId : option value)
           (s : passthrough) (cb : list (option value)) : ts_state :=
  {| ts_convId := convId; ts_temp := ts_temp st; ts_parser := ts_parser st;
     ts_stream := s; ts_endCallback := cb;
     ts_error_seen := ts_error_seen st; ts_close_seen := ts_close_seen st |}.

(** Lines 1394-1409 and 1420-1435. *)
Definition ts_finish (st : ts_state) (convId : option value) : ts_state :=
  ts_with st convId
    (pt_end_unless_closed DoneMarker
       (pt_write (Chunk convId [] stop) (ts_stream st)))
    (ts_endCallback st ++ [convId]).

(** The body of the [try] of lines 1384-1464, for an event of type
    ["event"]. *)
Definition ts_try (st : ts_state) (data : jstr) : ts_state * option exn :=
  match parse_object data with
  | Throw e => (st, Some e)
  | Ok rawResult =>
      if truthy (prop rawResult "code") then (st, Some API_REQUEST_FAILED)
      else if loose_eq (prop rawResult "event_type") 2003 then
        (ts_finish st (ts_convId st), None)
      else if negb (loose_eq (prop rawResult "event_type") 2001) then
        (st, None)
      else
        match parse_object (to_text_opt (prop rawResult "event_data")) with
        | Throw e => (st, Some e)
        | Ok result =>
            let convId :=
              if truthy (ts_convId st) then ts_convId st
              else prop result "conversation_id" in
            let st := ts_with st convId (ts_stream st) (ts_endCallback st) in
            if truthy (prop result "is_finish") then
              (ts_finish st convId, None)
            else
              match prop result "message" with
              | Some message =>
                  if truthy (Some message) then
                    match prop message "content" with
                    | Some mc =>
                        if truthy (Some mc) then
                          match delta_text mc with
                          | Throw e => (st, Some e)
                          | Ok [] => (st, None)
                          | Ok t =>
                              (ts_with st convId
                                 (pt_write (Chunk convId t None) (ts_stream st))
                                 (ts_endCallback st),
                               None)
                          end
                        else (st, None)
                    | None => (st, None)
                    end
                  else (st, None)
              | None => (st, None)
              end
        end
  end.

(** The callback handed to [createParser], lines 1383-1469. *)
Definition ts_on_event (st : ts_state) (data : jstr) : ts_state :=
  match ts_try st data with
  | (st', None) => st'
  | (st', Some _) =>
      ts_with st' (ts_convId st')
        (pt_end_unless_closed BlankLines (ts_stream st'))
        (ts_endCallback st')
  end.

Definition ts_set_feed (st : ts_state) (temp : list N)
           (p : Sse.pstate P) : ts_state :=
  {| ts_convId := ts_convId st; ts_temp := temp; ts_parser := p;
     ts_stream := ts_stream st; ts_endCallback := ts_endCallback st;
     ts_error_seen := ts_error_seen st; ts_close_seen := ts_close_seen st |}.

Definition ts_step (st : ts_state) (ev : event) : ts_state :=
  match ev with
  | Data buffer =>
      match on_data (ts_temp st) buffer with
      | (temp, None) => ts_set_feed st temp (ts_parser st)
      | (temp, Some bytes) =>
          let '(p, events) := Sse.feed P (ts_parser st) (Utf8.toString bytes) in
          fold_left ts_on_event events (ts_set_feed st temp p)
      end
  | Error =>
      if ts_error_seen st then st
      else
        {| ts_convId := ts_convId st; ts_temp := ts_temp st;
           ts_parser := ts_parser st;
           ts_stream := pt_end_unless_closed DoneMarker (ts_stream st);
           ts_endCallback := ts_endCallback st;
           ts_error_seen := true; ts_close_seen := ts_close_seen st |}
  | Close =>
      if ts_close_seen st then st
      else
        {| ts_convId := ts_convId st; ts_temp := ts_temp st;
           ts_parser := ts_parser st;
           ts_stream := pt_end_unless_closed DoneMarker (ts_stream st);
           ts_endCallback := ts_endCallback st;
           ts_error_seen := ts_error_seen st; ts_close_seen := true |}
  | DownstreamClosed =>
      ts_with st (ts_convId st) (pt_close (ts_stream st)) (ts_endCallback st)
  end.

(** [createTransStream(stream, endCallback)], after the events given. *)
Definition createTransStream (events : list event) : ts_state :=
  fold_left ts_step events ts_init.

(** The text a transcoder has gathered: the [content] of the object
    in buffered mode, the deltas accepted by the stream in live mode. *)
Definition buffered_text (events : list event) : jstr :=
  content (rs_data (rs_run events)).

Definition frame_text (f : frame) : jstr :=
  match f with
  | Chunk _ t _ => t
  | _ => []
  end.

Definition live_text (events : list event) : jstr :=
  flat_map frame_text (written (ts_stream (createTransStream events))).



(** The calls of [resolve] that the callback of the parser made. *)
Definition frame_resolves (calls : list settle) : list answer :=
  flat_map (fun c => match c with
                     | Resolve FromFrame a => [a]
                     | _ => []
                     end) calls.

(** What the latch [isEnd] stands for: while it is down the callback
    has not resolved, and the callback has resolved at most once. *)
Definition latched (st : rs_state) : Prop :=
  (rs_isEnd st = false -> frame_resolves (rs_calls st) = [])
  /\ (List.length (frame_resolves (rs_calls st)) <= 1)%nat.

End WithParser.

(** The texts handed to [parser.feed], in order, when the chunks given
    arrive one after the other: what the handler of the data event does,
    whatever the parser. *)
Fixpoint fed_texts (temp : list N) (chunks : list (list N)) : list jstr :=
  match chunks with
  | [] => []
  | buffer :: rest =>
      match on_data temp buffer with
      | (temp', None) => fed_texts temp' rest
      | (temp', Some bytes) => Utf8.toString bytes :: fed_texts temp' rest
      end
  end.

End Transcoder.

(** ** The packer in the words of the spec

    What the spec calls the text parts of a message and its flattened
    text, to be compared with what [messagesPrepare] computes. *)

Module PackerSpec.

Import Js Data.

(** The text parts of a message, in order; a message whose content is a
    plain string has that string for its one text part. *)
Definition text_parts (m : message) : list jstr :=
  match content_of m with
  | CText s => [s]
  | CParts l =>
      flat_map (fun v => match Packer.is_text_obj v with
                         | Some o => [Packer.text_or_empty (p_text o)]
                         | None => []
                         end) l
  end.

(** Flattened: the text parts, each followed by a line feed. *)
Definition flattened (m : message) : jstr :=
  flat_map (fun t => t ++ nl) (text_parts m).

(** The text parts of a message, joined by line feeds. *)
Definition joined (m : message) : jstr := join nl (text_parts m).

(** What the cleaning deletes: [data:], a media type of at least one
    character none of which is a semicolon, [;base64,], and the base64
    characters that follow, if any. The length of such a text at the
    head of [s]. *)
Definition embedded_data (s : jstr) : option nat :=
  if startsWith (lit "data:") s then
    let mime := run (fun c => negb (N.eqb c 59)) (skipn 5 s) in
    if Nat.ltb 0 mime && startsWith (lit ";base64,") (skipn (5 + mime) s) then
      Some (5 + mime + 8 + run is_b64char (skipn (5 + mime + 8) s))
    else None
  else None.

(** A line that is dropped: trimmed, it has more than 200 characters,
    and more than nine tenths of them are base64 characters. *)
Definition mostly_base64 (line : jstr) : bool :=
  let t := trim line in
  let n := List.length t in
  let b := List.length (filter is_b64char t) in
  Nat.ltb 200 n && Nat.ltb (9 * n) (10 * b).

(** The cleaning: every embedded data deleted in one pass from left to
    right, the lines that are mostly base64 dropped, the lines put
    together again with line feeds, and the whole trimmed. *)
Definition cleaned (t : jstr) : jstr :=
  trim (join nl (filter (fun line => negb (mostly_base64 line))
                        (split_lines (replace_all embedded_data t)))).

(** A message has a part of type [file] or [image_url]. *)
Definition has_file_or_image_part (m : message) : Prop :=
  exists l o,
    content_of m = CParts l /\ In (PObj o) l
    /\ (p_type o = lit "file" \/ p_type o = lit "image_url").

(** An asset reference that was staged as an image: it has a dimension
    and its key is a key of the store. *)
Definition staged_image (r : ref) : Prop :=
  Packer.has_dims r = true
  /\ startsWith (lit "tos-cn-i-") (file_url_url r) = true.

End PackerSpec.

(** ** The request signer: [canonicalQuery] and [buildAuthorization] *)

Module Signer.

Import Js Exn.

Definition IMAGEX_REGION : jstr := lit "cn-north-1".
Definition IMAGEX_SERVICE : jstr := lit "imagex".

(** The characters [encodeURIComponent] leaves alone. *)
Definition uri_unreserved (c : N) : bool :=
  in_range 65 90 c || in_range 97 122 c || in_range 48 57 c
  || N.eqb c 45 || N.eqb c 95 || N.eqb c 46 || N.eqb c 33
  || N.eqb c 126 || N.eqb c 42 || N.eqb c 39 || N.eqb c 40 || N.eqb c 41.

Definition upper_hex_digit (n : N) : N :=
  (if N.ltb (n mod 16) 10 then 48 + n mod 16 else 55 + n mod 16)%N.

(** [%XY], in upper case. *)
Definition pct (b : N) : jstr :=
  [37%N; upper_hex_digit (b / 16); upper_hex_digit b].

(** [encodeURIComponent(s)]; [None] is the URIError thrown for a
    surrogate without its partner. *)
Fixpoint encodeURIComponent (s : jstr) : option jstr :=
  match s with
  | [] => Some []
  | c :: r =>
      if uri_unreserved c then option_map (cons c) (encodeURIComponent r)
      else if Utf8.is_high c then
        match r with
        | l :: r' =>
            if Utf8.is_low l then
              option_map (app (flat_map pct (Utf8.encode_cp (Utf8.pair_cp c l))))
                         (encodeURIComponent r')
            else None
        | [] => None
        end
      else if Utf8.is_low c then None
      else option_map (app (flat_map pct (Utf8.encode_cp c)))
                      (encodeURIComponent r)
  end.

(** The class [[!*'()]]. *)
Definition is_sub_delim (c : N) : bool :=
  N.eqb c 33 || N.eqb c 42 || N.eqb c 39 || N.eqb c 40 || N.eqb c 41.

(** [.replace(/[!*'()]/g, (c) => "%" + c.charCodeAt(0).toString(16).toUpperCase())] *)
Definition escape_sub_delims (s : jstr) : jstr :=
  flat_map (fun c => if is_sub_delim c then pct c else [c]) s.

Definition rfc3986Encode (s : jstr) : option jstr :=
  option_map escape_sub_delims (encodeURIComponent s).

Definition sha256Hex (data : jstr) : jstr :=
  Sha256.hex (Sha256.sha256 (Utf8.fromString data)).

Definition hmac (key : list N) (data : jstr) : list N :=
  Sha256.hmac key (Utf8.fromString data).

(** The calendar date of a day counted from 1970-01-01, as the methods
    [getUTCFullYear], [getUTCMonth] and [getUTCDate] give it. *)
Definition civil (days : Z) : Z * Z * Z :=
  let z := (days + 719468)%Z in
  let era := (z / 146097)%Z in
  let doe := (z - era * 146097)%Z in
  let yoe := ((doe - doe / 1460 + doe / 36524 - doe / 146096) / 365)%Z in
  let doy := (doe - (365 * yoe + yoe / 4 - yoe / 100))%Z in
  let mp := ((5 * doy + 2) / 153)%Z in
  let d := (doy - (153 * mp + 2) / 5 + 1)%Z in
  let m := (if Z.ltb mp 10 then mp + 3 else mp - 9)%Z in
  ((yoe + era * 400 + (if Z.leb m 2 then 1 else 0))%Z, m, d).

(** [pad] of line 802. *)
Definition pad2 (n : Z) : jstr :=
  if Z.ltb n 10 then lit "0" ++ Json.int_text n else Json.int_text n.

(** [amzDates(date)], for a date given in milliseconds since the epoch. *)
Definition amzDates (date : Z) : jstr * jstr :=
  let secs := (date / 1000)%Z in
  let '(yyyy, mm, dd) := civil (secs / 86400) in
  let sod := (secs mod 86400)%Z in
  let dateStamp := Json.int_text yyyy ++ pad2 mm ++ pad2 dd in
  let amzDate := dateStamp ++ lit "T" ++ pad2 (sod / 3600)
                   ++ pad2 ((sod / 60) mod 60) ++ pad2 (sod mod 60) ++ lit "Z" in
  (amzDate, dateStamp).

(** The order of [Array.prototype.sort()] on strings: by code units. *)
Fixpoint ltb (a b : jstr) : bool :=
  match a, b with
  | _, [] => false
  | [], _ :: _ => true
  | x :: a', y :: b' => N.ltb x y || (N.eqb x y && ltb a' b')
  end.

Fixpoint insert (k : jstr) (l : list jstr) : list jstr :=
  match l with
  | [] => [k]
  | x :: l' => if ltb x k then x :: insert k l' else k :: l
  end.

Definition sort (l : list jstr) : list jstr := fold_right insert [] l.

(** A [Record<string, string>] as it is at run time: its own
    properties, keys distinct. The values come from answers of the
    peers through casts that check nothing, so a value is a string, or
    [None] for a property that holds [null] or [undefined]. *)
Definition record := list (jstr * option jstr).

Definition keys (r : record) : list jstr := map fst r.

(** [v ?? empty], [empty] being the empty string. *)
Definition or_empty (v : option jstr) : jstr :=
  match v with Some s => s | None => [] end.

(** [r[k] ?? empty] *)
Fixpoint get (r : record) (k : jstr) : jstr :=
  match r with
  | [] => []
  | (k', v) :: r' => if Js.eqb k k' then or_empty v else get r' k
  end.

Fixpoint sequence {A} (l : list (option A)) : option (list A) :=
  match l with
  | [] => Some []
  | Some x :: l' => option_map (cons x) (sequence l')
  | None :: _ => None
  end.

Definition query_pair (params : record) (k : jstr) : option jstr :=
  match rfc3986Encode k, rfc3986Encode (get params k) with
  | Some ek, Some ev => Some (ek ++ lit "=" ++ ev)
  | _, _ => None
  end.

(** Lines 813-818. *)
Definition canonicalQuery (params : record) : option jstr :=
  option_map (join (lit "&"))
             (sequence (map (query_pair params) (sort (keys params)))).

Record opts := { payloadHash_opt : option jstr; signContentSha256 : bool }.

Definition no_opts : opts :=
  {| payloadHash_opt := None; signContentSha256 := false |}.

Record authorization := {
  auth_header : jstr;
  amzDate : jstr;
  payloadHash : jstr
}.

Definition headersMap (host amz sessionToken ph : jstr) (o : opts) : record :=
  [(lit "host", Some host); (lit "x-amz-date", Some amz)]
    ++ (match sessionToken with
        | [] => []
        | _ => [(lit "x-amz-security-token", Some sessionToken)]
        end)
    ++ (if signContentSha256 o then [(lit "x-amz-content-sha256", Some ph)]
        else []).

Definition algorithm : jstr := lit "AWS4-HMAC-SHA256".

(** The text that is hashed into the string to sign, lines 848-855. *)
Definition canonicalRequest (date : Z) (method host path : jstr)
           (params : record) (sessionToken : jstr) (o : opts) : option jstr :=
  let ph := match payloadHash_opt o with Some h => h | None => sha256Hex [] end in
  let hm := headersMap host (fst (amzDates date)) sessionToken ph o in
  let headerNames := sort (keys hm) in
  match canonicalQuery params with
  | None => None
  | Some canonicalQS =>
      Some (join nl [method; path; canonicalQS;
                     flat_map (fun k => k ++ lit ":" ++ get hm k ++ nl) headerNames;
                     join (lit ";") headerNames; ph])
  end.

Definition credentialScope (date : Z) (region service : jstr) : jstr :=
  snd (amzDates date) ++ lit "/" ++ region ++ lit "/" ++ service
      ++ lit "/aws4_request".

Definition stringToSign (date : Z) (region service canonical : jstr) : jstr :=
  join nl [algorithm; fst (amzDates date); credentialScope date region service;
           sha256Hex canonical].

Definition signingKey (date : Z) (secretKey region service : jstr) : list N :=
  let kDate := hmac (Utf8.fromString (lit "AWS4" ++ secretKey)) (snd (amzDates date)) in
  let kRegion := hmac kDate region in
  let kService := hmac kRegion service in
  hmac kService (lit "aws4_request").

(** The hexadecimal signature, lines 866-873. *)
Definition signature (date : Z) (method host path : jstr) (params : record)
           (sessionToken secretKey region service : jstr) (o : opts)
  : option jstr :=
  match canonicalRequest date method host path params sessionToken o with
  | None => None
  | Some cr =>
      Some (Sha256.hex (hmac (signingKey date secretKey region service)
                             (stringToSign date region service cr)))
  end.

(** [buildAuthorization], lines 819-878; [date] is the clock read by
    [amzDates()]. *)
Definition buildAuthorization (date : Z) (method host path : jstr)
           (params : record) (sessionToken accessKey secretKey : jstr)
           (region service : jstr) (o : opts) : result authorization :=
  match signature date method host path params sessionToken secretKey
                  region service o with
  | None => Throw URIError
  | Some sig =>
      let ph := match payloadHash_opt o with Some h => h | None => sha256Hex [] end in
      let hm := headersMap host (fst (amzDates date)) sessionToken ph o in
      Ok {| auth_header :=
              algorithm ++ lit " Credential=" ++ accessKey ++ lit "/"
                ++ credentialScope date region service
                ++ lit ", SignedHeaders=" ++ join (lit ";") (sort (keys hm))
                ++ lit ", Signature=" ++ sig;
            amzDate := fst (amzDates date);
            payloadHash := ph |}
  end.

(** The encoder read head by head. The characters it leaves alone are
    those of [encodeURIComponent] less the five escaped afterwards. *)
Definition is_unreserved (c : N) : bool := uri_unreserved c && negb (is_sub_delim c).

(** What the head of a string is written as, and what follows the head:
    a character left alone, or the escaped UTF-8 bytes of a code point
    that is one code unit or a surrogate pair. [None] is the lone
    surrogate. *)
Definition head_token (c : N) (r : jstr) : option (jstr * jstr) :=
  if is_unreserved c then Some ([c], r)
  else if Utf8.is_high c then
    match r with
    | l :: r' =>
        if Utf8.is_low l then
          Some (flat_map pct (Utf8.encode_cp (Utf8.pair_cp c l)), r')
        else None
    | [] => None
    end
  else if Utf8.is_low c then None
  else Some (flat_map pct (Utf8.encode_cp c), r).

(** A head is written either as itself, a character that is not the
    percent sign, or as the escaped bytes of a code point, which start
    with the percent sign. *)
Inductive head_shape : N -> jstr -> jstr -> jstr -> Prop :=
| Left_alone c r :
    is_unreserved c = true -> head_shape c r [c] r
| Escaped_unit c r :
    is_unreserved c = false -> Utf8.is_high c = false -> Utf8.is_low c = false ->
    head_shape c r (flat_map pct (Utf8.encode_cp c)) r
| Escaped_pair h l r :
    Utf8.is_high h = true -> Utf8.is_low l = true ->
    head_shape h (l :: r) (flat_map pct (Utf8.encode_cp (Utf8.pair_cp h l))) r.

(** A string of code units: each below [2^16]. *)
Definition code_units (s : jstr) : Prop := Forall (fun c => (c < 65536)%N) s.

(** Every string of [k] lower-case hexadecimal digits: the values a
    signature can take. *)
Definition hex_alphabet : list N :=
  [48; 49; 50; 51; 52; 53; 54; 55; 56; 57; 97; 98; 99; 100; 101; 102]%N.

Fixpoint all_hex (k : nat) : list jstr :=
  match k with
  | O => [[]]
  | S k' => flat_map (fun s => map (fun d => d :: s) hex_alphabet) (all_hex k')
  end.

(** The record with the one parameter [a], its value [n] times the
    letter [a]. *)
Definition one_param (n : nat) : record := [(lit "a", Some (repeat 97%N n))].

End Signer.

(** ** The platform and the network *)

Module Env.

Import Js Exn.

(** The helpers of [lib/util.ts] and of the packages mime and path,
    and the base64 decoder of [Buffer.from]. *)
Record platform := {
  isBASE64Data : jstr -> bool;
  isBASE64 : jstr -> bool;
  isURL : jstr -> bool;
  extractBASE64DataFormat : jstr -> jstr;
  removeBASE64DataHeader : jstr -> jstr;
  crc32 : list N -> Z;
  base64_decode : jstr -> list N;
  mime_getType : jstr -> option jstr;
  mime_getExtension : jstr -> option jstr;
  path_basename : jstr -> jstr;
  path_extname : jstr -> jstr;
  toLowerCase : jstr -> jstr
}.

(** The answer to [axios.head]: its status and the number in its
    [content-length] header, if the header is there and is a number. *)
Record head_response := { h_status : N; h_content_length : option N }.

(** The [data] of the answer to [prepare_upload]. Its [service_id] is
    read with a cast that checks nothing: [None] is an answer without
    one. *)
Record upload_auth_token := {
  access_key : jstr; secret_key : jstr; session_token : jstr
}.

Record prepare_data := {
  service_id : option jstr;
  upload_host : jstr;
  upload_auth_token_of : option upload_auth_token
}.

(** [Result.UploadAddress] of the answer to ApplyImageUpload. An empty
    string stands for a field that is absent or falsy. *)
Record upload_address := {
  StoreInfos0 : option (jstr * jstr);      (* StoreUri and Auth *)
  UploadHosts0 : jstr;
  SessionKey : jstr
}.

Record signed_get := {
  g_url : jstr;
  g_x_amz_date : jstr;
  g_security_token : jstr;
  g_authorization : jstr
}.

(** The request [uploadToTos] sends. *)
Record tos_request := {
  t_method : jstr;
  t_url : jstr;
  t_Authorization : jstr;
  t_Content_CRC32 : jstr;
  t_Content_Type : jstr;
  t_body : list N
}.

(** An answer with a status and a body: the body is [None] when the
    answer has none, or has one that is falsy. *)
Inductive http_answer :=
| NoAnswer
| Answer (status : N) (data : option Json.value).

Record completion_response := {
  content_type_header : option jstr;
  stream : list Transcoder.event
}.

(** The peers, as they answer during one attempt. *)
Record world := {
  w_now : Z;
  w_uuid : jstr;
  w_head : jstr -> option head_response;
  w_get : jstr -> option (list N);
  w_prepare_upload : N -> result (option prepare_data);
  w_apply : signed_get -> option (option upload_address);
  w_tos : tos_request -> http_answer;
  w_commit : jstr -> http_answer;
  w_completion : Data.packed -> result completion_response
}.

End Env.

(** ** The upload pipeline *)

Module Upload.

Import Js Exn Data Env.

Definition FILE_MAX_SIZE : N := 100 * 1024 * 1024.

(** What [axios] does with an answer under its default
    [validateStatus]: only a status from 200 to 299 is returned. *)
Definition axios_default (a : http_answer) : result (N * option Json.value) :=
  match a with
  | NoAnswer => Throw AxiosError
  | Answer status data =>
      if N.leb 200 status && N.ltb status 300 then Ok (status, data)
      else Throw AxiosError
  end.

(** [(n >>> 0).toString(16).padStart(8, "0")] *)
Fixpoint hex_digits (fuel : nat) (n : N) (acc : jstr) : jstr :=
  match fuel with
  | O => acc
  | S f =>
      if N.ltb n 16 then Sha256.hex_digit n :: acc
      else hex_digits f (n / 16)%N (Sha256.hex_digit n :: acc)
  end.

Definition toString16 (n : N) : jstr :=
  hex_digits (S (N.to_nat (N.size n))) n [].

Definition padStart8 (s : jstr) : jstr :=
  repeat 48%N (8 - List.length s) ++ s.

Definition to_uint32 (z : Z) : N := Z.to_N (z mod 4294967296).

Definition crc_header (crc : Z) : jstr := padStart8 (toString16 (to_uint32 crc)).

(** A digit of lower-case hexadecimal, and the number a string of such
    digits spells: what the peer reads back from the header. *)
Definition is_lower_hex (c : N) : bool := in_range 48 57 c || in_range 97 102 c.

Definition digit_value (c : N) : N := if N.ltb c 58 then c - 48 else c - 87.

Fixpoint hex_value_from (acc : N) (s : jstr) : N :=
  match s with
  | [] => acc
  | c :: s' => hex_value_from (16 * acc + digit_value c) s'
  end.

Definition hex_value (s : jstr) : N := hex_value_from 0 s.

(** [code !== 2000 && String(code) !== "2000"], negated. *)
Definition is_2000 (code : option Json.value) : bool :=
  negb (negb (Json.strict_eq code 2000)
        && negb (Js.eqb (Json.to_text_opt code) (lit "2000"))).

(** [res.data || {}] and then a property of it. *)
Definition body_prop (data : option Json.value) (k : string) : option Json.value :=
  match data with
  | Some v => if Json.truthy (Some v) then Json.prop v k else None
  | None => None
  end.

Section WithEnv.

Variable P : platform.
Variable W : world.

(** Lines 757-785. *)
Definition checkFileUrl (fileUrl : jstr) : result unit :=
  if isBASE64Data P fileUrl then Ok tt
  else
    match w_head W fileUrl with
    | None => Throw AxiosError
    | Some r =>
        if N.leb 400 (h_status r) then Throw API_FILE_URL_INVALID
        else
          match h_content_length r with
          | Some fileSize =>
              if N.ltb FILE_MAX_SIZE fileSize then Throw API_FILE_EXECEEDS_SIZE
              else Ok tt
          | None => Ok tt
          end
    end.

(** Lines 880-896. *)
Definition acquireUploadAuth (resourceType : N)
  : result (option jstr * jstr * upload_auth_token) :=
  match w_prepare_upload W resourceType with
  | Throw e => Throw e
  | Ok None => Throw API_REQUEST_FAILED
  | Ok (Some data) =>
      match upload_auth_token_of data with
      | None => Throw API_REQUEST_FAILED
      | Some t => Ok (service_id data, upload_host data, t)
      end
  end.

(** Lines 898-958. *)
Definition applyImageUpload (serviceId : option jstr) (uploadHost : jstr)
           (t : upload_auth_token) (fileSize : nat) (fileExtension : jstr)
  : result (jstr * jstr * jstr * jstr) :=
  let params : Signer.record :=
    [(lit "Action", Some (lit "ApplyImageUpload"));
     (lit "Version", Some (lit "2018-08-01"));
     (lit "ServiceId", serviceId);
     (lit "NeedFallback", Some (lit "true"));
     (lit "UploadNum", Some (lit "1"));
     (lit "FileSize", Some (Json.int_text (Z.of_nat fileSize)));
     (lit "FileExtension",
      Some (if startsWith (lit ".") fileExtension then fileExtension
            else lit "." ++ fileExtension))] in
  match Signer.buildAuthorization (w_now W) (lit "GET") uploadHost (lit "/")
          params (session_token t) (access_key t) (secret_key t)
          Signer.IMAGEX_REGION Signer.IMAGEX_SERVICE Signer.no_opts,
        Signer.canonicalQuery params with
  | Ok a, Some q =>
      match w_apply W {| g_url := lit "https://" ++ uploadHost ++ lit "/?" ++ q;
                         g_x_amz_date := Signer.amzDate a;
                         g_security_token := session_token t;
                         g_authorization := Signer.auth_header a |} with
      | None => Throw AxiosError
      | Some None => Throw API_REQUEST_FAILED
      | Some (Some ua) =>
          match StoreInfos0 ua, UploadHosts0 ua with
          | Some ((_ :: _) as storeUri, (_ :: _) as auth), (_ :: _) as tosHost =>
              Ok (storeUri, auth, tosHost, SessionKey ua)
          | _, _ => Throw API_REQUEST_FAILED
          end
      end
  | Throw e, _ => Throw e
  | _, None => Throw URIError
  end.

(** The request of lines 961-972. *)
Definition tos_request_of (tosHost storeUri auth : jstr) (fileData : list N)
           (mimeType : jstr) : tos_request :=
  {| t_method := lit "POST";
     t_url := lit "https://" ++ tosHost ++ lit "/upload/v1/" ++ storeUri;
     t_Authorization := auth;
     t_Content_CRC32 := crc_header (crc32 P fileData);
     t_Content_Type := or_else mimeType (lit "application/octet-stream");
     t_body := fileData |}.

(** Lines 960-989. *)
Definition uploadToTos (tosHost storeUri auth : jstr) (fileData : list N)
           (mimeType : jstr) : result unit :=
  match axios_default (w_tos W (tos_request_of tosHost storeUri auth fileData mimeType)) with
  | Throw e => Throw e
  | Ok (status, data) =>
      if N.leb 300 status || negb (is_2000 (body_prop data "code"))
      then Throw API_REQUEST_FAILED
      else Ok tt
  end.

(** [body?.Result?.Results?.[0]?.UriStatus] *)
Definition uriStatus_of (data : option Json.value) : option Json.value :=
  match body_prop data "Result" with
  | Some r =>
      match Json.prop r "Results" with
      | Some (Json.JArr (x :: _)) => Json.prop x "UriStatus"
      | _ => None
      end
  | None => None
  end.

(** Lines 1041-1128. The request, a signed POST whose body names the
    staged object, is left to the world; what is modelled is the
    reading of the answer. *)
Definition commitImageUpload (storeUri : jstr) : result (option Json.value) :=
  match axios_default (w_commit W storeUri) with
  | Throw e => Throw e
  | Ok (status, data) =>
      if N.leb 300 status || negb (is_2000 (uriStatus_of data))
      then Throw API_REQUEST_FAILED
      else Ok data
  end.

Definition lower (c : N) : N := if in_range 65 90 c then (c + 32)%N else c.

(** [/p/i.test(s)] for a pattern [p] of lower-case ASCII letters. *)
Definition test_ci (p s : jstr) : bool := includes p (map lower s).

Definition u16be (buf : list N) (i : nat) : N :=
  (nth i buf 0 * 256 + nth (S i) buf 0)%N.

Definition u32be (buf : list N) (i : nat) : N :=
  (u16be buf i * 65536 + u16be buf (2 + i))%N.

Definition u32le (buf : list N) (i : nat) : N :=
  (nth i buf 0 + nth (1 + i) buf 0 * 256 + nth (2 + i) buf 0 * 65536
   + nth (3 + i) buf 0 * 16777216)%N.

Definition u24le (buf : list N) (i : nat) : N :=
  (nth i buf 0 + nth (1 + i) buf 0 * 256 + nth (2 + i) buf 0 * 65536)%N.

Definition is_sof (marker : N) : bool :=
  existsb (N.eqb marker)
    [0xC0; 0xC1; 0xC2; 0xC3; 0xC5; 0xC6; 0xC7; 0xC9; 0xCA; 0xCB; 0xCD;
     0xCE; 0xCF]%N.

(** The loop of lines 1006-1019; each round moves [i] forward. *)
Fixpoint jpeg_scan (fuel : nat) (buf : list N) (i : nat) : option (N * N) :=
  match fuel with
  | O => None
  | S fuel' =>
      if Nat.ltb (i + 9) (List.length buf) then
        if negb (N.eqb (nth i buf 0%N) 0xFF) then jpeg_scan fuel' buf (S i)
        else if is_sof (nth (S i) buf 0%N) then
          let height := u16be buf (i + 5) in
          let width := u16be buf (i + 7) in
          if N.ltb 0 width && N.ltb 0 height then Some (width, height)
          else None
        else jpeg_scan fuel' buf (i + 2 + N.to_nat (u16be buf (i + 2)))
      else None
  end.

(** [buf.toString("ascii")]: the high bit of every byte is dropped. *)
Definition ascii (bytes : list N) : jstr := map (fun b => N.land b 127) bytes.

(** The loop of lines 1024-1035. *)
Fixpoint webp_scan (fuel : nat) (buf : list N) (p : nat) : option (N * N) :=
  match fuel with
  | O => None
  | S fuel' =>
      if Nat.leb (p + 8) (List.length buf) then
        let size := u32le buf (p + 4) in
        if Js.eqb (ascii (firstn 4 (skipn p buf))) (lit "VP8X")
           && Nat.leb (p + 18) (List.length buf)
        then Some (u24le buf (p + 12) + 1, u24le buf (p + 15) + 1)%N
        else webp_scan fuel' buf (p + 8 + N.to_nat (size + size mod 2))
      else None
  end.

(** Lines 992-1039. *)
Definition sniffImageSize (buf : list N) (mimeType : jstr) : option (N * N) :=
  if Nat.ltb (List.length buf) 16 then None
  else
    let png :=
      if test_ci (lit "png") mimeType
         || Js.eqb (firstn 4 buf) [0x89; 0x50; 0x4e; 0x47]%N
      then
        if Nat.leb 24 (List.length buf)
           && N.ltb 0 (u32be buf 16) && N.ltb 0 (u32be buf 20)
        then Some (u32be buf 16, u32be buf 20)
        else None
      else None in
    match png with
    | Some r => Some r
    | None =>
        let jpeg :=
          if test_ci (lit "jpeg") mimeType || test_ci (lit "jpg") mimeType
             || Js.eqb (firstn 2 buf) [0xff; 0xd8]%N
          then jpeg_scan (List.length buf) buf 2
          else None in
        match jpeg with
        | Some r => Some r
        | None =>
            if test_ci (lit "webp") mimeType
               || (Js.eqb (firstn 4 buf) (lit "RIFF")
                   && Js.eqb (ascii (firstn 4 (skipn 8 buf))) (lit "WEBP"))
            then webp_scan (List.length buf) buf 12
            else None
        end
    end.

(** What [uploadFile] knows of the asset before it stages it. *)
Record asset := {
  filename : jstr;
  fileData : list N;
  mimeType : jstr;
  isImage : bool;
  asset_ext : jstr
}.

(** Lines 1146-1170; the download can fail. *)
Definition materialize (fileUrl : jstr) : result asset :=
  let finish (filename : jstr) (fileData : list N) (mime0 : jstr)
             (extFromMime : jstr) : asset :=
    let mimeType :=
      or_else mime0
        (or_else (match mime_getType P filename with Some m => m | None => [] end)
                 (lit "application/octet-stream")) in
    {| filename := filename; fileData := fileData; mimeType := mimeType;
       isImage := startsWith (lit "image/") mimeType;
       asset_ext :=
         toLowerCase P
           (or_else extFromMime
              (or_else (match path_extname P filename with
                        | 46%N :: r => r
                        | e => e
                        end)
                 (or_else (match mime_getExtension P mimeType with
                           | Some e => e
                           | None => []
                           end)
                          (lit "bin")))) |} in
  if isBASE64Data P fileUrl then
    let mime0 := extractBASE64DataFormat P fileUrl in
    let extFromMime :=
      match mime_getExtension P mime0 with Some e => e | None => [] end in
    Ok (finish (w_uuid W ++ lit "." ++ or_else extFromMime (lit "bin"))
               (base64_decode P (removeBASE64DataHeader P fileUrl))
               mime0 extFromMime)
  else
    match w_get W fileUrl with
    | None => Throw AxiosError
    | Some data => Ok (finish (path_basename P fileUrl) data [] [])
    end.

(** The [try] block of lines 1172-1224. *)
Definition stage (a : asset) : result ref :=
  match acquireUploadAuth (if isImage a then 2 else 1)%N with
  | Throw e => Throw e
  | Ok (serviceId, uploadHost, t) =>
      match applyImageUpload serviceId uploadHost t
              (List.length (fileData a)) (lit "." ++ asset_ext a) with
      | Throw e => Throw e
      | Ok (storeUri, auth, tosHost, _) =>
          match uploadToTos tosHost storeUri auth (fileData a) (mimeType a) with
          | Throw e => Throw e
          | Ok _ =>
              (* here [commitImageUpload storeUri] is tried for an
                 image; what it returns or throws is logged, and
                 nothing else is done with it *)
              let size := if isImage a then sniffImageSize (fileData a) (mimeType a)
                          else None in
              let dim (f : N * N -> N) : option N :=
                if isImage a then
                  Some (match size with
                        | Some wh => if N.eqb (f wh) 0 then 1%N else f wh
                        | None => 1%N
                        end)
                else None in
              Ok {| file_url_url := storeUri; name := filename a;
                    ext := asset_ext a;
                    kind := if isImage a then lit "image" else lit "file";
                    width := dim fst; height := dim snd |}
          end
      end
  end.

(** [uploadFile(fileUrl, refreshToken)], lines 1138-1246: the check of
    the URL and the download stand before the [try]; what the [try]
    throws is caught, and answered by [null] for an image and by a
    placeholder for another file. *)
Definition uploadFile (fileUrl : jstr) : result (option ref) :=
  match checkFileUrl fileUrl with
  | Throw e => Throw e
  | Ok _ =>
      match materialize fileUrl with
      | Throw e => Throw e
      | Ok a =>
          match stage a with
          | Ok r => Ok (Some r)
          | Throw _ =>
              if isImage a then Ok None
              else Ok (Some {| file_url_url := lit "upload-failed://placeholder";
                               name := filename a; ext := asset_ext a;
                               kind := lit "file";
                               width := None; height := None |})
          end
      end
  end.

(** [normalizeCandidate] of lines 403-424; the empty result is [null]. *)
Definition normalizeCandidate (maybe : jstr) : option jstr :=
  match maybe with
  | [] => None
  | _ =>
      if isBASE64Data P maybe then Some maybe
      else
        let bare :=
          if isBASE64 P maybe && Nat.ltb 500 (List.length maybe) then
            let buf := base64_decode P maybe in
            if Nat.ltb 4 (List.length buf) then
              let png := Js.eqb (firstn 4 buf) [0x89; 0x50; 0x4e; 0x47]%N in
              let jpg := Js.eqb (firstn 2 buf) [0xff; 0xd8]%N in
              let gif := Js.eqb (Utf8.toString (firstn 6 buf)) (lit "GIF87a")
                         || Js.eqb (Utf8.toString (firstn 6 buf)) (lit "GIF89a") in
              let webp := Js.eqb (Utf8.toString (firstn 4 buf)) (lit "RIFF")
                          && Js.eqb (Utf8.toString (firstn 4 (skipn 8 buf)))
                                    (lit "WEBP") in
              let mime :=
                if png then lit "image/png"
                else if jpg then lit "image/jpeg"
                else if gif then lit "image/gif"
                else if webp then lit "image/webp"
                else lit "application/octet-stream" in
              Some (lit "data:" ++ mime ++ lit ";base64," ++ maybe)
            else None
          else None in
        match bare with
        | Some u => Some u
        | None => if isURL P maybe then Some maybe else None
        end
  end.

Definition opt_list {A} (o : option A) : list A :=
  match o with Some x => [x] | None => [] end.

(** The candidate of one part, lines 427-449. *)
Definition part_urls (v : part) : list jstr :=
  match v with
  | PStr s => opt_list (normalizeCandidate s)
  | PObj o =>
      match (if Js.eqb (p_type o) (lit "file") then p_file_url o else UrlAbsent) with
      | UrlObject (Some u) => opt_list (normalizeCandidate u)
      | _ =>
          if existsb (Js.eqb (p_type o))
                     [lit "image_url"; lit "input_image"; lit "image"]
          then
            match p_image_url o with
            | UrlString raw => opt_list (normalizeCandidate raw)
            | UrlObject (Some ((_ :: _) as raw)) => opt_list (normalizeCandidate raw)
            | _ => []
            end
          else []
      end
  end.

(** Lines 395-454. *)
Definition extractRefFileUrls (messages : list message) : list jstr :=
  match last (map Some messages) None with
  | None => []
  | Some lastMessage =>
      match content_of lastMessage with
      | CParts l => flat_map part_urls l
      | CText _ => []
      end
  end.

End WithEnv.

End Upload.

(** ** The orchestrators: [createCompletion] and [createCompletionStream] *)

Module Orchestrator.

Import Js Exn Data Env.

Definition MAX_RETRY_COUNT : nat := 3.
Definition RETRY_DELAY : N := 5000.

Definition is_alnum (c : N) : bool :=
  in_range 48 57 c || in_range 97 122 c || in_range 65 90 c.

(** [/[0-9a-zA-Z]{24}/.test(s)] *)
Fixpoint has_conv_id (s : jstr) : bool :=
  Nat.leb 24 (run is_alnum s) ||
  match s with
  | [] => false
  | _ :: s' => has_conv_id s'
  end.

(** What an attempt does that can be seen from outside, in order. *)
Inductive action :=
| Attempt (retryCount : nat)           (* the body of the call starts *)
| Completion (payload : packed)        (* the POST to /samantha/chat/completion *)
| Sleep (ms : N)                       (* setTimeout(resolve, RETRY_DELAY) *)
| RemoveConversation (convId : Json.value).

(** How a call ends for the caller: with a value, with a rejection, or
    never, when the promise it awaits is never settled. *)
Inductive outcome (A : Type) :=
| Returned (a : A)
| Raised (e : exn)
| Hangs.

Arguments Returned {A} a.
Arguments Raised {A} e.
Arguments Hangs {A}.

Record run (A : Type) := {
  result_of : outcome A;
  messages_of : list message;     (* the caller's array, as it is left *)
  actions : list action
}.

(** The answer of the streaming orchestrator: the stream handed to
    the caller, as it stands once the upstream stream has been read. *)
Record live := {
  out : Transcoder.passthrough;
  synthetic : bool;
  endCallbacks : list (option Json.value)
}.

(** The back-offs and the attempts of a log, in order. *)
Definition sleeps (l : list action) : list N :=
  flat_map (fun a => match a with Sleep ms => [ms] | _ => [] end) l.

Definition attempts (l : list action) : list nat :=
  flat_map (fun a => match a with Attempt n => [n] | _ => [] end) l.

Definition completions (l : list action) : list packed :=
  flat_map (fun a => match a with Completion p => [p] | _ => [] end) l.

Section WithEnv.

Variable SP : Sse.parser.
Variable P : platform.

(** The peers during the attempt whose [retryCount] is given. *)
Variable worlds : nat -> world.

(** [Promise.all(refFileUrls.map(uploadFile))]; of several uploads that
    fail, the first of the list is taken to fail first. *)
Fixpoint upload_all (W : world) (urls : list jstr) : result (list (option ref)) :=
  match urls with
  | [] => Ok []
  | u :: r =>
      match Upload.uploadFile P W u, upload_all W r with
      | Throw e, _ => Throw e
      | Ok _, Throw e => Throw e
      | Ok x, Ok l => Ok (x :: l)
      end
  end.

(** [removeConversation(convId, refreshToken)]: nothing for a falsy id. *)
Definition removeConversation (convId : option Json.value) : list action :=
  match convId with
  | Some c => if Json.truthy (Some c) then [RemoveConversation c] else []
  | None => []
  end.

(** The test of lines 227 and 331. A response without the header makes
    the test itself throw. *)
Definition is_event_stream (r : completion_response) : result bool :=
  match content_type_header r with
  | None => Throw TypeError
  | Some ct => Ok (includes (lit "text/event-stream") ct)
  end.

(** What both bodies do first, lines 184-226 and 287-329: the uploads,
    the reset of a reference that is no conversation id, the packing
    and the call. The packing leaves its mark on [messages] whether or
    not the call succeeds. *)
Definition open_stream (messages : list message) (refConvId : jstr)
           (retryCount : nat)
  : result completion_response * list message * jstr * list action :=
  let W := worlds retryCount in
  match upload_all W (Upload.extractRefFileUrls P messages) with
  | Throw e => (Throw e, messages, refConvId, [Attempt retryCount])
  | Ok refs =>
      let refConvId := if has_conv_id refConvId then refConvId else [] in
      let isRefConv := match refConvId with [] => false | _ => true end in
      let '(payload, messages) :=
        Packer.messagesPrepare (isBASE64 P) messages refs isRefConv in
      (w_completion W payload, messages, refConvId,
       [Attempt retryCount; Completion payload])
  end.

(** The body of [createCompletion], lines 179-248. *)
Definition completion_body (messages : list message) (refConvId : jstr)
           (retryCount : nat)
  : outcome (Transcoder.answer) * list message * jstr * list action :=
  match open_stream messages refConvId retryCount with
  | (Throw e, messages, refConvId, log) => (Raised e, messages, refConvId, log)
  | (Ok response, messages, refConvId, log) =>
      match is_event_stream response with
      | Throw e => (Raised e, messages, refConvId, log)
      | Ok false => (Raised API_REQUEST_FAILED, messages, refConvId, log)
      | Ok true =>
          match Transcoder.receiveStream SP (stream response) with
          | Transcoder.Pending => (Hangs, messages, refConvId, log)
          | Transcoder.Rejected e => (Raised e, messages, refConvId, log)
          | Transcoder.Resolved answer =>
              (Returned answer, messages, refConvId,
               log ++ removeConversation (Some (Transcoder.id answer)))
          end
      end
  end.

(** The handler of lines 248-264, with [budget] standing for
    [MAX_RETRY_COUNT - retryCount]: the test [retryCount <
    MAX_RETRY_COUNT] is the test that [budget] is not zero. *)
Fixpoint completion_loop (budget : nat) (messages : list message)
         (refConvId : jstr) (retryCount : nat) : run Transcoder.answer :=
  match completion_body messages refConvId retryCount with
  | (Raised err, messages, refConvId, log) =>
      match budget with
      | S budget' =>
          let r := completion_loop budget' messages refConvId (S retryCount) in
          {| result_of := result_of r; messages_of := messages_of r;
             actions := log ++ Sleep RETRY_DELAY :: actions r |}
      | O => {| result_of := Raised err; messages_of := messages; actions := log |}
      end
  | (res, messages, _, log) =>
      {| result_of := res; messages_of := messages; actions := log |}
  end.

(** [createCompletion(messages, refreshToken, assistantId, refConvId,
    retryCount)] *)
Definition createCompletion (messages : list message) (refConvId : jstr)
           (retryCount : nat) : run Transcoder.answer :=
  completion_loop (MAX_RETRY_COUNT - retryCount) messages refConvId retryCount.

(** The stream of lines 337-357: one chunk, then the end. *)
Definition unavailable : Transcoder.frame :=
  Transcoder.Chunk (Some (Json.JStr []))
    (Utf8.text "服务暂时不可用，第三方响应错误") Transcoder.stop.

(** The body of [createCompletionStream], lines 282-371. *)
Definition stream_body (messages : list message) (refConvId : jstr)
           (retryCount : nat)
  : outcome live * list message * jstr * list action :=
  match open_stream messages refConvId retryCount with
  | (Throw e, messages, refConvId, log) => (Raised e, messages, refConvId, log)
  | (Ok response, messages, refConvId, log) =>
      match is_event_stream response with
      | Throw e => (Raised e, messages, refConvId, log)
      | Ok false =>
          (Returned {| out := Transcoder.pt_end unavailable Transcoder.pt_new;
                       synthetic := true; endCallbacks := [] |},
           messages, refConvId, log)
      | Ok true =>
          let ts := Transcoder.createTransStream SP (stream response) in
          (Returned {| out := Transcoder.ts_stream ts; synthetic := false;
                       endCallbacks := Transcoder.ts_endCallback ts |},
           messages, refConvId,
           log ++ flat_map removeConversation (Transcoder.ts_endCallback ts))
      end
  end.

Fixpoint stream_loop (budget : nat) (messages : list message)
         (refConvId : jstr) (retryCount : nat) : run live :=
  match stream_body messages refConvId retryCount with
  | (Raised err, messages, refConvId, log) =>
      match budget with
      | S budget' =>
          let r := stream_loop budget' messages refConvId (S retryCount) in
          {| result_of := result_of r; messages_of := messages_of r;
             actions := log ++ Sleep RETRY_DELAY :: actions r |}
      | O => {| result_of := Raised err; messages_of := messages; actions := log |}
      end
  | (res, messages, _, log) =>
      {| result_of := res; messages_of := messages; actions := log |}
  end.

(** [createCompletionStream(messages, refreshToken, assistantId,
    refConvId, retryCount)] *)
Definition createCompletionStream (messages : list message) (refConvId : jstr)
           (retryCount : nat) : run live :=
  stream_loop (MAX_RETRY_COUNT - retryCount) messages refConvId retryCount.

End WithEnv.

End Orchestrator.

(** ** Concrete inputs

    A platform and worlds to run the definitions on. *)

Module Examples.

Import Js Exn Data Env.

Definition platform0 : platform :=
  {| isBASE64Data := startsWith (lit "data:");
     isBASE64 := forallb is_b64char;
     isURL := fun s => startsWith (lit "http://") s || startsWith (lit "https://") s;
     extractBASE64DataFormat := fun _ => lit "image/png";
     removeBASE64DataHeader := fun s => s;
     crc32 := fun _ => 0%Z;
     base64_decode := fun _ => [];
     mime_getType := fun f => if includes (lit ".png") f then Some (lit "image/png")
                              else None;
     mime_getExtension := fun _ => None;
     path_basename := fun s => last (split_char 47 s) [];
     path_extname := fun s => if includes (lit ".png") s then lit ".png" else [];
     toLowerCase := fun s => s |}.

Definition LF : string := String "010" EmptyString.

(** A text of the wire written with apostrophes where it has double
    quotes. *)
Definition wire (s : string) : list N :=
  map (fun c => if N.eqb c 39 then 34%N else c) (Utf8.bytes_of s).

(** A delta frame whose text is [hi], and the stream-closed frame. *)
Definition delta_frame : list N :=
  wire
    ("data: {'event_type':2001,'event_data':'{\'conversation_id\':\'c1\',\'message\':{\'content\':\'{\\\'text\\\':\\\'hi\\\'}\'}}'}"
     ++ LF ++ LF).

Definition closed_frame : list N :=
  wire ("data: {'event_type':2003}" ++ LF ++ LF).

(** A delta frame whose text is the one character U+4E2D, three bytes
    in UTF-8, and its two halves when it is cut after the first of the
    three. *)
Definition cjk_frame : list N :=
  wire
    ("data: {'event_type':2001,'event_data':'{\'message\':{\'content\':\'{\\\'text\\\':\\\'中\\\'}\'}}'}"
     ++ LF ++ LF).

Definition cut : nat := 86.

Definition cjk_head : list N := firstn cut cjk_frame.
Definition cjk_tail : list N := skipn cut cjk_frame.

Definition good_response : completion_response :=
  {| content_type_header := Some (lit "text/event-stream; charset=utf-8");
     stream := [Transcoder.Data delta_frame; Transcoder.Data closed_frame;
                Transcoder.Close] |}.

(** Peers that answer every call well: the probe with 200, the
    download with 32 zero bytes, the staging with a key. *)
Definition world_ok : world :=
  {| w_now := 1762120000123;
     w_uuid := lit "0000";
     w_head := fun _ => Some {| h_status := 200; h_content_length := Some 32%N |};
     w_get := fun _ => Some (repeat 0%N 32);
     w_prepare_upload := fun _ =>
       Ok (Some {| service_id := Some (lit "svc");
                   upload_host := lit "imagex.example";
                   upload_auth_token_of :=
                     Some {| access_key := lit "AK"; secret_key := lit "SK";
                             session_token := lit "ST" |} |});
     w_apply := fun _ =>
       Some (Some {| StoreInfos0 := Some (lit "tos-cn-i-a9rns2rl98/abc.png", lit "auth");
                     UploadHosts0 := lit "tos.example"; SessionKey := [] |});
     w_tos := fun _ => Answer 200 (Json.parse (wire "{'code':2000}"));
     w_commit := fun _ => Answer 200 None;
     w_completion := fun _ => Ok good_response |}.

Definition with_head (W : world) (h : jstr -> option head_response) : world :=
  {| w_now := w_now W; w_uuid := w_uuid W; w_head := h; w_get := w_get W;
     w_prepare_upload := w_prepare_upload W; w_apply := w_apply W;
     w_tos := w_tos W; w_commit := w_commit W; w_completion := w_completion W |}.

Definition with_tos (W : world) (t : tos_request -> http_answer) : world :=
  {| w_now := w_now W; w_uuid := w_uuid W; w_head := w_head W; w_get := w_get W;
     w_prepare_upload := w_prepare_upload W; w_apply := w_apply W;
     w_tos := t; w_commit := w_commit W; w_completion := w_completion W |}.

Definition with_completion (W : world)
           (c : packed -> result completion_response) : world :=
  {| w_now := w_now W; w_uuid := w_uuid W; w_head := w_head W; w_get := w_get W;
     w_prepare_upload := w_prepare_upload W; w_apply := w_apply W;
     w_tos := w_tos W; w_commit := w_commit W; w_completion := c |}.

(** The probe of every URL is answered by 404. *)
Definition world_404 : world :=
  with_head world_ok (fun _ => Some {| h_status := 404; h_content_length := None |}).

(** The binary transfer is answered by a code that is not 2000. *)
Definition world_tos_refused : world :=
  with_tos world_ok (fun _ => Answer 200 (Json.parse (wire "{'code':4001}"))).

(** The completion call is answered by a JSON document. *)
Definition world_json : world :=
  with_completion world_ok
    (fun _ => Ok {| content_type_header := Some (lit "application/json");
                    stream := [Transcoder.Close] |}).

Definition hello : list message :=
  [{| role := lit "user"; content_of := CText (lit "hello") |}].

(** Two messages, the last with a text part and an image part. *)
Definition with_image : list message :=
  [{| role := lit "user"; content_of := CText (lit "earlier question") |};
   {| role := lit "user";
      content_of := CParts [text_part (lit "what is this?");
                            image_part (lit "http://img.example/a.png")] |}].

(** The reference of an image that was staged. *)
Definition staged_ref : ref :=
  {| file_url_url := lit "tos-cn-i-a9rns2rl98/abc.png"; name := lit "a.png";
     ext := lit "png"; kind := lit "image"; width := Some 1%N; height := Some 1%N |}.

Definition show (s : jstr) : string := string_of_list_ascii (map ascii_of_N s).

End Examples.

(** ** The data handler over a whole stream *)

Module Chunks.

Import Js Transcoder.

(** The handler of lines 1333-1346 (and 1471-1484) run over the chunks
    of a stream, in order: the buffers it hands to [parser.feed], before
    they are decoded, and the [temp] it is left with. *)
Fixpoint handled (temp : list N) (chunks : list (list N))
  : list (list N) * list N :=
  match chunks with
  | [] => ([], temp)
  | buffer :: rest =>
      match on_data temp buffer with
      | (temp', None) => handled temp' rest
      | (temp', Some bytes) =>
          let '(fed, t) := handled temp' rest in (bytes :: fed, t)
      end
  end.

(** The parser after the texts given were fed to it one by one. *)
Definition feed_all (P : Sse.parser) (texts : list jstr) (st : Sse.pstate P)
  : Sse.pstate P :=
  fold_left (fun p t => fst (Sse.feed P p t)) texts st.

(** The chunks among the events of a stream. *)
Definition data_of (events : list event) : list (list N) :=
  flat_map (fun ev => match ev with Data b => [b] | _ => [] end) events.

(** A frame that carries a delta: no [finish_reason]. *)
Definition is_delta (f : frame) : bool :=
  match f with
  | Chunk _ _ None => true
  | _ => false
  end.

(** How a stream handed to the caller can end: not at all, with the
    final chunk and the end marker, with the end marker alone, or with
    the empty lines written when the callback fails. *)
Definition is_ending (fs : list frame) : bool :=
  match fs with
  | [] => true
  | [Chunk _ [] (Some _); DoneMarker] => true
  | [DoneMarker] => true
  | [BlankLines] => true
  | _ => false
  end.

(** What a stream handed to the caller holds when it is well formed:
    the opening chunk, then deltas, then an ending, and an ending only
    once [end] was called. *)
Definition shaped (s : passthrough) : Prop :=
  exists deltas tail,
    written s = Chunk (Some (Json.JStr [])) [] None :: deltas ++ tail
    /\ forallb is_delta deltas = true
    /\ is_ending tail = true
    /\ (tail = [] \/ ended s = true).

(** The two transcoders side by side, after the same events: they have
    fed the parser alike, and the text the buffered one holds is the text
    the live one has written. Once the promise is settled the live stream
    is ended; an answer resolved by a finishing frame has lost its one
    final newline. *)
Definition in_step (P : Sse.parser) (rs : rs_state P) (ts : ts_state P)
  : Prop :=
  rs_temp rs = ts_temp ts
  /\ rs_parser rs = ts_parser ts
  /\ rs_error_seen rs = ts_error_seen ts
  /\ rs_close_seen rs = ts_close_seen ts
  /\ match rs_calls rs with
     | [] =>
         rs_isEnd rs = false
         /\ ended (ts_stream ts) = false
         /\ closed (ts_stream ts) = false
         /\ content (rs_data rs)
            = flat_map frame_text (written (ts_stream ts))
     | Resolve FromFrame a :: _ =>
         ended (ts_stream ts) = true
         /\ content a
            = drop_final_nl (flat_map frame_text (written (ts_stream ts)))
     | Resolve _ a :: _ =>
         ended (ts_stream ts) = true
         /\ content a = flat_map frame_text (written (ts_stream ts))
     | Reject _ _ :: _ => True
     end.

End Chunks.

(** ** What a call leaves behind *)

Module Observations.

Import Js Orchestrator.

(** The conversations a log removes, in order. *)
Definition removals (l : list action) : list Json.value :=
  flat_map (fun a => match a with RemoveConversation c => [c] | _ => [] end) l.

(** The number of parts of the last message; none when its content is
    a string, or when there is no message. *)
Definition last_parts (ms : list Data.message) : nat :=
  match last (map Some ms) None with
  | Some m =>
      match Data.content_of m with
      | Data.CParts l => List.length l
      | Data.CText _ => 0
      end
  | None => 0
  end.

(** No run of base64 characters in [s] has [n] characters or more:
    wherever the text is cut, fewer than [n] such characters follow. *)
Definition runs_below (n : nat) (s : jstr) : Prop :=
  forall pre post, s = pre ++ post -> Js.run is_b64char post < n.

End Observations.

(** ** Tokens: [tokenSplit], [generateCookie] and [generateFakeMsToken] *)

Module Tokens.

Import Js.

(** [tokenSplit(authorization)], lines 1501-1503:
    [authorization.replace("Bearer ", empty).split(",")]. *)
Definition tokenSplit (authorization : jstr) : list jstr :=
  split_char 44 (replace (lit "Bearer ") [] authorization).

(** [generateCookie(refreshToken)], lines 91-96. *)
Definition generateCookie (refreshToken : jstr) : jstr :=
  join (lit "; ")
       [lit "sessionid=" ++ refreshToken; lit "sessionid_ss=" ++ refreshToken].

(** The alphabet of base64: the character of a number below 64. *)
Definition b64_char (n : N) : N :=
  (if N.ltb n 26 then 65 + n
   else if N.ltb n 52 then 97 + (n - 26)
   else if N.ltb n 62 then 48 + (n - 52)
   else if N.eqb n 62 then 43
   else 47)%N.

(** [buffer.toString("base64")]: three bytes give four characters, and
    what is left at the end is padded with [=]. *)
Fixpoint toBase64 (bytes : list N) : jstr :=
  match bytes with
  | [] => []
  | [a] => [b64_char (a / 4); b64_char ((a mod 4) * 16); 61; 61]%N
  | [a; b] =>
      [b64_char (a / 4); b64_char ((a mod 4) * 16 + b / 16);
       b64_char ((b mod 16) * 4); 61]%N
  | a :: b :: c :: r =>
      [b64_char (a / 4); b64_char ((a mod 4) * 16 + b / 16);
       b64_char ((b mod 16) * 4 + c / 64); b64_char (c mod 64)]%N
        ++ toBase64 r
  end.

(** [generateFakeMsToken()], lines 68-75; [bytes] is what
    [crypto.randomBytes(96)] gives. The three calls of [replace] have a
    global pattern of one character. *)
Definition generateFakeMsToken (bytes : list N) : jstr :=
  filter (fun c => negb (N.eqb c 61))
         (map (fun c => if N.eqb c 47 then 95%N else c)
              (map (fun c => if N.eqb c 43 then 45%N else c) (toBase64 bytes))).

(** A character of the alphabet of base64url. *)
Definition is_urlsafe (c : N) : bool :=
  in_range 65 90 c || in_range 97 122 c || in_range 48 57 c
  || N.eqb c 45 || N.eqb c 95.

End Tokens.

(** ** Answers of the service: [checkResult] and [getTokenLiveStatus] *)

Module Account.

Import Js Json Exn Env.

(** [checkResult(result)], lines 1253-1259, on the [data] of the
    answer. [_.isFinite(code)] holds of a number that is not an
    infinity; a literal beyond the doubles is one. [null] is
    [Some JNull], [undefined] is [None]. *)
Definition checkResult (data : option value) : result (option value) :=
  match data with
  | None => Ok (Some JNull)
  | Some body =>
      if negb (truthy (Some body)) then Ok (Some JNull)
      else
        match prop body "code" with
        | Some (JNum m e) =>
            match to_double m e with
            | DInf _ => Ok (Some body)
            | DZero => Ok (prop body "data")
            | DFin _ _ _ => Throw API_REQUEST_FAILED
            end
        | _ => Ok (Some body)
        end
  end.

(** [request(method, uri, refreshToken, options)], lines 106-143, for
    a response that is not a stream: every status is accepted
    ([validateStatus: () => true]), and the body goes through
    [checkResult]. *)
Definition request (a : http_answer) : result (option value) :=
  match a with
  | NoAnswer => Throw AxiosError
  | Answer _ data => checkResult data
  end.

(** [result.user_id], for a result that is not falsy. *)
Definition user_id (r : option value) : option value :=
  match r with
  | Some v => prop v "user_id"
  | None => None
  end.

(** [getTokenLiveStatus(refreshToken)], lines 1508-1519; [a] is the
    answer to the call of [/passport/account/info/v2]. The call stands
    before the [try]. *)
Definition getTokenLiveStatus (a : http_answer) : result bool :=
  match request a with
  | Throw e => Throw e
  | Ok r => Ok (truthy r && truthy (user_id r))
  end.

End Account.

(* ===================================================================== *)
(** * Part II. Theorems *)
(* ===================================================================== *)

Unset Implicit Arguments.

(** ** The orchestrators *)

Module OrchestratorFacts.

Import Js Exn Data Env Orchestrator.

Lemma sleeps_app (a b : list action) : sleeps (a ++ b) = sleeps a ++ sleeps b.
Proof. apply flat_map_app. Qed.

Lemma attempts_app (a b : list action) :
  attempts (a ++ b) = attempts a ++ attempts b.
Proof. apply flat_map_app. Qed.

Lemma completions_app (a b : list action) :
  completions (a ++ b) = completions a ++ completions b.
Proof. apply flat_map_app. Qed.

Lemma removeConversation_quiet (c : option Json.value) :
  sleeps (removeConversation c) = [] /\ attempts (removeConversation c) = []
  /\ completions (removeConversation c) = [].
Proof.
  unfold removeConversation.
  destruct c as [c|]; [destruct (Json.truthy (Some c))|]; simpl; auto.
Qed.

Section WithEnv.

Variable SP : Sse.parser.
Variable P : platform.
Variable worlds : nat -> world.

(** The first half of an attempt logs its number, and the call if
    the uploads let it come to the call. *)
Lemma open_stream_log messages refConvId rc r messages' refConvId' log :
  open_stream P worlds messages refConvId rc = (r, messages', refConvId', log) ->
  sleeps log = [] /\ attempts log = [rc].
Proof.
  unfold open_stream.
  destruct (upload_all P (worlds rc) (Upload.extractRefFileUrls P messages)).
  - destruct (Packer.messagesPrepare _ _ _ _) as [payload ms].
    intros H; inversion H; subst; simpl; auto.
  - intros H; inversion H; subst; simpl; auto.
Qed.

Lemma completion_body_log messages refConvId rc o messages' refConvId' log :
  completion_body SP P worlds messages refConvId rc
    = (o, messages', refConvId', log) ->
  sleeps log = [] /\ attempts log = [rc].
Proof.
  unfold completion_body.
  destruct (open_stream P worlds messages refConvId rc)
    as [[[r ms] ref] l] eqn:E.
  apply open_stream_log in E. destruct E as [Es Ea].
  destruct r as [response|e].
  - destruct (is_event_stream response) as [[|]|e].
    + destruct (Transcoder.receiveStream SP (stream response)) as [|a|e].
      * intros [= <- <- <- <-]; auto.
      * destruct (removeConversation_quiet (Some (Transcoder.id a)))
          as (Hs & Ha & _).
        revert Hs Ha.
        generalize (removeConversation (Some (Transcoder.id a))).
        intros rm Hs Ha [= <- <- <- <-].
        rewrite sleeps_app, attempts_app, Es, Ea, Hs, Ha. auto.
      * intros [= <- <- <- <-]; auto.
    + intros [= <- <- <- <-]; auto.
    + intros [= <- <- <- <-]; auto.
  - intros [= <- <- <- <-]; auto.
Qed.

(** The handler of lines 248-264, read on [createCompletion] itself:
    a body that raises while [retryCount < MAX_RETRY_COUNT] is
    followed by the back-off and by the whole call again, with the
    next [retryCount] and with [messages] as the body left them. *)
Lemma createCompletion_retry messages refConvId rc err messages' refConvId' log :
  completion_body SP P worlds messages refConvId rc
    = (Raised err, messages', refConvId', log) ->
  rc < MAX_RETRY_COUNT ->
  createCompletion SP P worlds messages refConvId rc =
  let r := createCompletion SP P worlds messages' refConvId' (S rc) in
  {| result_of := result_of r; messages_of := messages_of r;
     actions := log ++ Sleep RETRY_DELAY :: actions r |}.
Proof.
  intros Hb Hlt. unfold createCompletion.
  destruct (MAX_RETRY_COUNT - rc) as [|b] eqn:Eb; [lia|].
  replace (MAX_RETRY_COUNT - S rc) with b by lia.
  simpl. rewrite Hb. reflexivity.
Qed.

(** The same body with no retry left: the failure goes to the caller. *)
Lemma createCompletion_raise messages refConvId rc err messages' refConvId' log :
  completion_body SP P worlds messages refConvId rc
    = (Raised err, messages', refConvId', log) ->
  MAX_RETRY_COUNT <= rc ->
  createCompletion SP P worlds messages refConvId rc =
  {| result_of := Raised err; messages_of := messages'; actions := log |}.
Proof.
  intros Hb Hge. unfold createCompletion.
  replace (MAX_RETRY_COUNT - rc) with 0 by lia.
  simpl. rewrite Hb. reflexivity.
Qed.

(** A body that does not raise ends the call. *)
Lemma createCompletion_done messages refConvId rc o messages' refConvId' log :
  completion_body SP P worlds messages refConvId rc
    = (o, messages', refConvId', log) ->
  (forall e, o <> Raised e) ->
  createCompletion SP P worlds messages refConvId rc =
  {| result_of := o; messages_of := messages'; actions := log |}.
Proof.
  intros Hb Hne. unfold createCompletion.
  destruct (MAX_RETRY_COUNT - rc); simpl; rewrite Hb;
    destruct o; try reflexivity; exfalso; eapply Hne; reflexivity.
Qed.

Lemma completion_loop_shape budget :
  forall messages refConvId rc,
    let r := completion_loop SP P worlds budget messages refConvId rc in
    exists k,
      k <= budget
      /\ sleeps (actions r) = repeat RETRY_DELAY k
      /\ attempts (actions r) = seq rc (S k)
      /\ (forall e, result_of r = Raised e -> k = budget).
Proof.
  induction budget as [|b IH]; intros messages refConvId rc; simpl.
  - destruct (completion_body SP P worlds messages refConvId rc)
      as [[[o ms] ref] log] eqn:E.
    apply completion_body_log in E. destruct E as [Es Ea].
    exists 0. destruct o; simpl; auto.
  - destruct (completion_body SP P worlds messages refConvId rc)
      as [[[o ms] ref] log] eqn:E.
    apply completion_body_log in E. destruct E as [Es Ea].
    destruct o as [a|e|].
    + exists 0. simpl. repeat split; auto; try lia. discriminate.
    + destruct (IH ms ref (S rc)) as (k & Hk & Hs & Ha & Hr).
      exists (S k). simpl.
      rewrite sleeps_app, attempts_app, Es, Ea. simpl.
      rewrite Hs, Ha. repeat split; auto; try lia.
      intros e' He'. f_equal. eauto.
    + exists 0. simpl. repeat split; auto; try lia. discriminate.
Qed.

End WithEnv.

(** C5. The completion orchestrator, in buffered mode, retries the
    whole pipeline on any failure, at most [MAX_RETRY_COUNT = 3] times,
    with a back-off of [RETRY_DELAY = 5000] ms before every retry, and
    raises to the caller only when the retries are exhausted: a call
    from [retryCount = 0] makes attempts 0 to k with k back-offs of
    5000 ms between them, k is at most 3, and k is 3 whenever the call
    ends in a failure; an attempt that fails while a retry is left is
    followed by the back-off and the whole call again, one that fails
    with none left is raised. *)
Theorem C5_retry_bound_and_backoff :
  forall SP P worlds messages refConvId,
    (let r := createCompletion SP P worlds messages refConvId 0 in
     exists k,
       k <= 3
       /\ sleeps (actions r) = repeat 5000%N k
       /\ attempts (actions r) = seq 0 (S k)
       /\ (forall e, result_of r = Raised e -> k = 3))
    /\ (forall rc err messages' refConvId' log,
           completion_body SP P worlds messages refConvId rc
             = (Raised err, messages', refConvId', log) ->
           (rc < 3 ->
            createCompletion SP P worlds messages refConvId rc =
            {| result_of :=
                 result_of (createCompletion SP P worlds messages' refConvId' (S rc));
               messages_of :=
                 messages_of (createCompletion SP P worlds messages' refConvId' (S rc));
               actions :=
                 log ++ Sleep 5000 ::
                 actions (createCompletion SP P worlds messages' refConvId' (S rc)) |})
           /\ (3 <= rc ->
               createCompletion SP P worlds messages refConvId rc =
               {| result_of := Raised err; messages_of := messages';
                  actions := log |})).
Proof.
  intros SP P worlds messages refConvId. split.
  - apply (completion_loop_shape SP P worlds 3 messages refConvId 0).
  - intros rc err messages' refConvId' log Hb. split; intros Hrc.
    + apply (createCompletion_retry SP P worlds messages refConvId rc err
               messages' refConvId' log Hb Hrc).
    + apply (createCompletion_raise SP P worlds messages refConvId rc err
               messages' refConvId' log Hb Hrc).
Qed.

(** The witness of C5: a completion call that is answered by a JSON
    document every time is attempted four times, five seconds apart, and
    then raised. *)
Lemma C5_witness :
  let r := createCompletion Sse.reference Examples.platform0
             (fun _ => Examples.world_json) Examples.hello [] 0 in
  result_of r = Raised API_REQUEST_FAILED
  /\ sleeps (actions r) = [5000; 5000; 5000]%N
  /\ attempts (actions r) = [0; 1; 2; 3].
Proof.
  intros r.
  assert (E : result_of r = Raised API_REQUEST_FAILED) by (vm_compute; reflexivity).
  destruct (C5_retry_bound_and_backoff Sse.reference Examples.platform0
              (fun _ => Examples.world_json) Examples.hello [])
    as [(k & Hk & Hs & Ha & Hr) _].
  fold r in Hs, Ha, Hr.
  rewrite (Hr _ E) in Hs, Ha.
  split; [exact E | split; [exact Hs | exact Ha]].
Defined.


(** *** A probe that fails *)

Section Precheck.

Variable SP : Sse.parser.
Variable P : platform.




Variable worlds : nat -> world.



End Precheck.





(** *** An answer that is no event stream *)

(** C4, as amended. When the completion call is answered with a content
    type other than [text/event-stream], streaming mode substitutes
    the synthetic one-chunk answer at once, on the attempt that got the
    answer and whatever its [retryCount]: no retry is spent on it.
    Buffered mode never substitutes it: the attempt fails with the
    request failure, which is retried while a retry is left and
    raised to the caller once [retryCount] has reached the bound. *)
Theorem C4_wrong_content_type :
  forall SP P worlds messages refConvId rc response messages' refConvId' log,
    open_stream P worlds messages refConvId rc
      = (Ok response, messages', refConvId', log) ->
    is_event_stream response = Ok false ->
    createCompletionStream SP P worlds messages refConvId rc
      = {| result_of :=
             Returned {| out := Transcoder.pt_end unavailable Transcoder.pt_new;
                         synthetic := true; endCallbacks := [] |};
           messages_of := messages';
           actions := log |}
    /\ sleeps log = []
    /\ Transcoder.written (Transcoder.pt_end unavailable Transcoder.pt_new)
       = [Transcoder.Chunk (Some (Json.JStr []))
            (Utf8.text "服务暂时不可用，第三方响应错误") (Some (lit "stop"))]
    /\ completion_body SP P worlds messages refConvId rc
       = (Raised API_REQUEST_FAILED, messages', refConvId', log)
    /\ (rc < 3 ->
        result_of (createCompletion SP P worlds messages refConvId rc)
        = result_of (createCompletion SP P worlds messages' refConvId' (S rc))
        /\ actions (createCompletion SP P worlds messages refConvId rc)
           = log ++ Sleep 5000 ::
             actions (createCompletion SP P worlds messages' refConvId' (S rc)))
    /\ (3 <= rc ->
        result_of (createCompletion SP P worlds messages refConvId rc)
        = Raised API_REQUEST_FAILED).
Proof.
  intros SP P worlds messages refConvId rc response messages' refConvId' log Ho Hc.
  assert (Hb : completion_body SP P worlds messages refConvId rc
               = (Raised API_REQUEST_FAILED, messages', refConvId', log)).
  { unfold completion_body. rewrite Ho, Hc. reflexivity. }
  split; [|split; [|split; [|split; [|split]]]].
  - unfold createCompletionStream.
    destruct (MAX_RETRY_COUNT - rc); simpl; unfold stream_body;
      rewrite Ho, Hc; reflexivity.
  - apply (open_stream_log P worlds messages refConvId rc _ _ _ _ Ho).
  - reflexivity.
  - exact Hb.
  - intros Hrc.
    rewrite (createCompletion_retry SP P worlds messages refConvId rc _ _ _ _ Hb Hrc).
    simpl. auto.
  - intros Hrc.
    rewrite (createCompletion_raise SP P worlds messages refConvId rc _ _ _ _ Hb Hrc).
    reflexivity.
Qed.

(** The witness of C4: the completion call answered by a JSON document. *)
Lemma C4_witness :
  exists l,
    result_of (createCompletionStream Sse.reference Examples.platform0
                 (fun _ => Examples.world_json) Examples.hello [] 0)
    = Returned l
    /\ synthetic l = true.
Proof.
  destruct (C4_wrong_content_type Sse.reference Examples.platform0
              (fun _ => Examples.world_json) Examples.hello [] 0
              {| content_type_header := Some (lit "application/json");
                 stream := [Transcoder.Close] |}
              Examples.hello []
              [Attempt 0;
               Completion {| text := lit "hello"; content_type := 2001;
                             attachments := [] |}])
    as (H & _).
  - vm_compute. reflexivity.
  - vm_compute. reflexivity.
  - rewrite H. eexists. split; reflexivity.
Defined.

(** C4, as the spec states it, fails: the synthetic answer is given on
    the first attempt, with no retry made. *)
Lemma C4_counterexample :
  ~ (forall SP P worlds messages refConvId l,
        result_of (createCompletionStream SP P worlds messages refConvId 0)
        = Returned l ->
        synthetic l = true ->
        List.length
          (sleeps (actions (createCompletionStream SP P worlds messages refConvId 0)))
        = MAX_RETRY_COUNT).
Proof.
  intros H.
  specialize (H Sse.reference Examples.platform0 (fun _ => Examples.world_json)
                Examples.hello [] _ eq_refl eq_refl).
  vm_compute in H. discriminate.
Qed.

End OrchestratorFacts.


(** ** The binary transfer *)

Module UploadFacts.

Import Js Exn Data Env Upload.

Local Open Scope N_scope.

(* division and remainder by a constant, for [lia] *)
Local Ltac Zify.zify_post_hook ::= Z.to_euclidean_division_equations.

Lemma hex_digit_lower n : is_lower_hex (Sha256.hex_digit n) = true.
Proof.
  unfold is_lower_hex, Sha256.hex_digit, in_range.
  pose proof (N.mod_upper_bound n 16 ltac:(discriminate)) as Hm.
  destruct (N.ltb_spec (n mod 16) 10) as [Hlt|Hge].
  - apply orb_true_iff. left. apply andb_true_iff.
    split; apply N.leb_le; lia.
  - apply orb_true_iff. right. apply andb_true_iff.
    split; apply N.leb_le; lia.
Qed.

Lemma hex_digit_value n : digit_value (Sha256.hex_digit n) = n mod 16.
Proof.
  unfold digit_value, Sha256.hex_digit.
  pose proof (N.mod_upper_bound n 16 ltac:(discriminate)) as Hm.
  destruct (N.ltb_spec (n mod 16) 10) as [Hlt|Hge].
  - destruct (N.ltb_spec (48 + n mod 16) 58); lia.
  - destruct (N.ltb_spec (87 + n mod 16) 58); lia.
Qed.

Lemma hex_digits_acc fuel : forall n acc,
    hex_digits fuel n acc = hex_digits fuel n [] ++ acc.
Proof.
  induction fuel as [|f IH]; intros n acc; simpl; [reflexivity|].
  destruct (n <? 16); [reflexivity|].
  rewrite (IH (n / 16) (Sha256.hex_digit n :: acc)).
  rewrite (IH (n / 16) [Sha256.hex_digit n]).
  rewrite <- app_assoc. reflexivity.
Qed.

Lemma hex_value_from_app s : forall acc t,
    hex_value_from acc (s ++ t) = hex_value_from (hex_value_from acc s) t.
Proof.
  induction s as [|c s IH]; intros acc t; simpl; [reflexivity|]. apply IH.
Qed.

(** With fuel enough for its argument, [hex_digits] spells it. *)
Lemma hex_digits_value fuel : forall n,
    n < 16 ^ N.of_nat fuel ->
    hex_value (hex_digits fuel n []) = n.
Proof.
  induction fuel as [|f IH]; intros n Hn.
  - simpl in Hn. assert (n = 0) by lia. subst. reflexivity.
  - simpl hex_digits. destruct (N.ltb_spec n 16) as [Hlt|Hge].
    + unfold hex_value. cbn [hex_value_from]. rewrite hex_digit_value. lia.
    + rewrite hex_digits_acc. unfold hex_value.
      rewrite hex_value_from_app. fold (hex_value (hex_digits f (n / 16) [])).
      rewrite IH.
      * cbn [hex_value_from]. rewrite hex_digit_value. lia.
      * rewrite Nat2N.inj_succ, N.pow_succ_r' in Hn.
        apply N.Div0.div_lt_upper_bound. lia.
  Qed.

Lemma hex_digits_length fuel : forall n k,
    n < 16 ^ N.of_nat k -> (1 <= k)%nat ->
    (List.length (hex_digits fuel n []) <= k)%nat.
Proof.
  induction fuel as [|f IH]; intros n k Hn Hk; simpl; [lia|].
  destruct (N.ltb_spec n 16) as [Hlt|Hge]; [simpl; lia|].
  rewrite hex_digits_acc, length_app. simpl.
  destruct k as [|k]; [lia|].
  destruct k as [|k].
  - simpl in Hn. lia.
  - assert (List.length (hex_digits f (n / 16) []) <= S k)%nat; [|lia].
    apply IH; [|lia].
    rewrite Nat2N.inj_succ, N.pow_succ_r' in Hn.
    apply N.Div0.div_lt_upper_bound. lia.
Qed.

Lemma hex_digits_lower fuel : forall n acc,
    forallb is_lower_hex acc = true ->
    forallb is_lower_hex (hex_digits fuel n acc) = true.
Proof.
  induction fuel as [|f IH]; intros n acc Hacc; simpl; [assumption|].
  destruct (n <? 16).
  - simpl. rewrite hex_digit_lower. assumption.
  - apply IH. simpl. rewrite hex_digit_lower. assumption.
Qed.

Lemma size_fuel n : n < 16 ^ N.of_nat (S (N.to_nat (N.size n))).
Proof.
  rewrite Nat2N.inj_succ, N2Nat.id.
  destruct n as [|p]; [simpl; lia|].
  pose proof (N.size_gt (N.pos p)) as Hs.
  assert (2 ^ N.size (N.pos p) <= 16 ^ N.succ (N.size (N.pos p))).
  { rewrite N.pow_succ_r'.
    transitivity (16 ^ N.size (N.pos p)).
    - apply N.pow_le_mono_l. lia.
    - pose proof (N.pow_nonzero 16 (N.size (N.pos p)) ltac:(discriminate)). lia. }
  lia.
Qed.

Lemma to_uint32_bound z : to_uint32 z < 16 ^ 8.
Proof.
  unfold to_uint32.
  pose proof (Z.mod_pos_bound z 4294967296 ltac:(lia)) as Hb.
  change (16 ^ 8) with 4294967296. lia.
Qed.

Lemma hex_value_zeros k s : hex_value (repeat 48 k ++ s) = hex_value s.
Proof.
  unfold hex_value. induction k as [|k IH]; simpl; [reflexivity|]. exact IH.
Qed.

(** The header is eight lower-case hexadecimal digits that spell the
    checksum, taken as an unsigned 32-bit number. *)
Lemma crc_header_shape crc :
  List.length (crc_header crc) = 8%nat
  /\ forallb is_lower_hex (crc_header crc) = true
  /\ hex_value (crc_header crc) = to_uint32 crc.
Proof.
  unfold crc_header, padStart8, toString16.
  set (n := to_uint32 crc).
  pose proof (hex_digits_length (S (N.to_nat (N.size n))) n 8
                (to_uint32_bound crc) ltac:(lia)) as Hlen.
  split; [|split].
  - rewrite length_app, repeat_length. lia.
  - rewrite forallb_app. apply andb_true_iff. split.
    + generalize (8 - List.length (hex_digits (S (N.to_nat (N.size n))) n []))%nat.
      intros k. induction k; simpl; auto.
    + apply hex_digits_lower. reflexivity.
  - rewrite hex_value_zeros. apply hex_digits_value. apply size_fuel.
Qed.

(** [code !== 2000 && String(code) !== "2000"] fails for the number
    2000 and for what is written as 2000. *)
Lemma is_2000_spec (code : option Json.value) :
  is_2000 code = true
  <-> (Json.strict_eq code 2000 = true
       \/ Json.to_text_opt code = lit "2000").
Proof.
  assert (Heq : forall a b : jstr, Js.eqb a b = true <-> a = b).
  { induction a as [|x a IH]; intros [|y b]; cbn [Js.eqb];
      try (split; [discriminate | discriminate]); [split; reflexivity|].
    rewrite andb_true_iff, N.eqb_eq, IH. split.
    - intros [-> ->]. reflexivity.
    - intros [= -> ->]. split; reflexivity. }
  unfold is_2000. rewrite negb_true_iff, andb_false_iff, !negb_false_iff, Heq.
  reflexivity.
Qed.

(** C9, as amended. The binary transfer sends the raw bytes by POST to
    [https://<storageHost>/upload/v1/<storeUri>], with the token of the
    staged object as [Authorization] and with the CRC-32 of the bytes
    as [Content-CRC32], written as exactly eight lower-case hexadecimal
    digits that spell the checksum as an unsigned 32-bit number. It
    succeeds exactly when an answer comes back whose status is a
    success (200 to 299) and whose body carries a code that is the
    number 2000 or is written as 2000 (the string, or an array of one
    such value), and throws in every other case. *)
Theorem C9_binary_transfer :
  forall P W tosHost storeUri auth fileData mimeType,
    let q := tos_request_of P tosHost storeUri auth fileData mimeType in
    t_method q = lit "POST"
    /\ t_url q = lit "https://" ++ tosHost ++ lit "/upload/v1/" ++ storeUri
    /\ t_Authorization q = auth
    /\ t_body q = fileData
    /\ List.length (t_Content_CRC32 q) = 8%nat
    /\ forallb is_lower_hex (t_Content_CRC32 q) = true
    /\ hex_value (t_Content_CRC32 q) = Z.to_N (crc32 P fileData mod 2 ^ 32)
    /\ (uploadToTos P W tosHost storeUri auth fileData mimeType = Ok tt <->
        exists status data,
          w_tos W q = Answer status data
          /\ 200 <= status < 300
          /\ (Json.strict_eq (body_prop data "code") 2000 = true
              \/ Json.to_text_opt (body_prop data "code") = lit "2000"))
    /\ (uploadToTos P W tosHost storeUri auth fileData mimeType <> Ok tt ->
        exists e, uploadToTos P W tosHost storeUri auth fileData mimeType = Throw e).
Proof.
  intros P W tosHost storeUri auth fileData mimeType q.
  destruct (crc_header_shape (crc32 P fileData)) as (Hl & Hh & Hv).
  repeat (split; [first [reflexivity | assumption]|]).
  split.
  - unfold uploadToTos, axios_default. fold q.
    destruct (w_tos W q) as [|status data].
    + split; [discriminate|]. intros (st & d & Hw & _). discriminate.
    + destruct (N.leb_spec 200 status) as [H2|H2];
        destruct (N.ltb_spec status 300) as [H3|H3]; simpl.
      * destruct (N.leb_spec 300 status) as [H3'|H3']; [lia|]. simpl.
        destruct (is_2000 (body_prop data "code")) eqn:Ec; simpl.
        -- split; auto. intros _. exists status, data.
           split; [reflexivity|]. split; [lia|]. apply is_2000_spec. exact Ec.
        -- split; [discriminate|].
           intros (st & d & [= <- <-] & _ & Hc).
           apply is_2000_spec in Hc. congruence.
      * split; [discriminate|]. intros (st & d & [= <- <-] & Hr & _). lia.
      * split; [discriminate|]. intros (st & d & [= <- <-] & Hr & _). lia.
      * split; [discriminate|]. intros (st & d & [= <- <-] & Hr & _). lia.
  - destruct (uploadToTos P W tosHost storeUri auth fileData mimeType) as [[]|e].
    + intros H. contradiction H. reflexivity.
    + intros _. exists e. reflexivity.
Qed.

(** The witness of C9: a store that refuses the transfer, and a store
    that accepts it with a code spelled [2000.00000000000000001], which
    is the number 2000, and with the code [[2e3]], which is written as
    2000. *)
Lemma C9_witness :
  (exists e,
      uploadToTos Examples.platform0 Examples.world_tos_refused (lit "tos.example")
                  (lit "tos-cn-i-x/abc.png") (lit "auth") [1; 2; 3] (lit "image/png")
      = Throw e)
  /\ uploadToTos Examples.platform0
       (Examples.with_tos Examples.world_ok
          (fun _ => Answer 200
                      (Json.parse
                         (Examples.wire "{'code':2000.00000000000000001}"))))
       (lit "tos.example") (lit "tos-cn-i-x/abc.png") (lit "auth") [1; 2; 3]
       (lit "image/png")
     = Ok tt
  /\ uploadToTos Examples.platform0
       (Examples.with_tos Examples.world_ok
          (fun _ => Answer 200 (Json.parse (Examples.wire "{'code':[2e3]}"))))
       (lit "tos.example") (lit "tos-cn-i-x/abc.png") (lit "auth") [1; 2; 3]
       (lit "image/png")
     = Ok tt.
Proof.
  split; [|split].
  - pose proof (C9_binary_transfer Examples.platform0 Examples.world_tos_refused
                  (lit "tos.example") (lit "tos-cn-i-x/abc.png") (lit "auth")
                  [1; 2; 3] (lit "image/png")) as H.
    cbv zeta in H. destruct H as (_ & _ & _ & _ & _ & _ & _ & _ & H).
    apply H. vm_compute. discriminate.
  - pose proof (C9_binary_transfer Examples.platform0
                  (Examples.with_tos Examples.world_ok
                     (fun _ => Answer 200
                                 (Json.parse
                                    (Examples.wire
                                       "{'code':2000.00000000000000001}"))))
                  (lit "tos.example") (lit "tos-cn-i-x/abc.png") (lit "auth")
                  [1; 2; 3] (lit "image/png")) as H.
    cbv zeta in H. destruct H as (_ & _ & _ & _ & _ & _ & _ & H & _).
    apply H. eexists. eexists. split; [reflexivity|]. split; [lia|].
    left. vm_compute. reflexivity.
  - pose proof (C9_binary_transfer Examples.platform0
                  (Examples.with_tos Examples.world_ok
                     (fun _ => Answer 200
                                 (Json.parse (Examples.wire "{'code':[2e3]}"))))
                  (lit "tos.example") (lit "tos-cn-i-x/abc.png") (lit "auth")
                  [1; 2; 3] (lit "image/png")) as H.
    cbv zeta in H. destruct H as (_ & _ & _ & _ & _ & _ & _ & H & _).
    apply H. eexists. eexists. split; [reflexivity|]. split; [lia|].
    right. vm_compute. reflexivity.
Defined.

(** C9, as the spec states it, fails: the request is not a PUT. *)
Lemma C9_counterexample :
  ~ (forall P tosHost storeUri auth fileData mimeType,
        t_method (tos_request_of P tosHost storeUri auth fileData mimeType)
        = lit "PUT").
Proof.
  intros H.
  specialize (H Examples.platform0 (lit "tos.example") (lit "tos-cn-i-x/abc.png")
                (lit "auth") [1; 2; 3] (lit "image/png")).
  vm_compute in H. discriminate.
Qed.

End UploadFacts.

(** ** The message packer *)

Module PackerFacts.

Import Js Data Packer PackerSpec.

Lemma eqb_refl (a : jstr) : Js.eqb a a = true.
Proof.
  induction a as [|x a IH]; simpl; [reflexivity|].
  rewrite N.eqb_refl. exact IH.
Qed.

Lemma eqb_eq (a b : jstr) : Js.eqb a b = true -> a = b.
Proof.
  revert b. induction a as [|x a IH]; intros [|y b]; simpl; try discriminate; auto.
  intros H. apply andb_true_iff in H. destruct H as [Hx Hr].
  apply N.eqb_eq in Hx. subst. f_equal. auto.
Qed.

Lemma last_map_Some {A} (l : list A) (x : A) :
  last (map Some (l ++ [x])) None = Some x.
Proof.
  rewrite map_app. simpl. apply last_last.
Qed.

Lemma splice_snoc (pre : list message) (x item : message) :
  splice_before_last (pre ++ [x]) item = pre ++ [item; x].
Proof.
  unfold splice_before_last. rewrite length_app. simpl.
  replace (List.length pre + 1 - 1) with (List.length pre) by lia.
  rewrite firstn_app, skipn_app, firstn_all, skipn_all, Nat.sub_diag.
  simpl. rewrite app_nil_r. reflexivity.
Qed.

(** The check of the code and the words of the claim agree. *)
Lemma hasFileOrImage_spec (m : message) :
  has_file_or_image_part m -> hasFileOrImage m = true.
Proof.
  intros (l & o & Hc & Hin & Ht). unfold hasFileOrImage. rewrite Hc.
  apply existsb_exists. exists (PObj o). split; [assumption|].
  simpl. destruct Ht as [-> | ->]; rewrite eqb_refl; auto using orb_true_r.
Qed.

(** *** The pass-through branch *)

Lemma passthrough_message_flattened (acc : jstr) (m : message) :
  passthrough_message acc m = acc ++ flattened m.
Proof.
  unfold passthrough_message, flattened, text_parts.
  destruct (content_of m) as [s|l].
  - simpl. rewrite app_nil_r. reflexivity.
  - revert acc. induction l as [|v l IH]; intros acc; simpl.
    + rewrite app_nil_r. reflexivity.
    + rewrite IH. destruct (is_text_obj v) as [o|]; simpl.
      * rewrite <- !app_assoc. reflexivity.
      * reflexivity.
Qed.

Lemma passthrough_from (messages : list message) : forall acc,
    fold_left passthrough_message messages acc = acc ++ flat_map flattened messages.
Proof.
  induction messages as [|m ms IH]; intros acc; simpl.
  - rewrite app_nil_r. reflexivity.
  - rewrite IH, passthrough_message_flattened, app_assoc. reflexivity.
Qed.

(** What the first branch gathers is the flattened text of the messages,
    one after the other: no role enters it. *)
Lemma passthrough_flattened (messages : list message) :
  passthrough messages = flat_map flattened messages.
Proof.
  unfold passthrough. rewrite passthrough_from. reflexivity.
Qed.

Lemma lastText_snoc (pre : list message) (m : message) :
  lastText (pre ++ [m]) = joined m.
Proof.
  unfold lastText, joined, text_parts. rewrite last_map_Some.
  destruct (content_of m) as [s|l]; [reflexivity|].
  f_equal. induction l as [|v l IH]; simpl; [reflexivity|].
  destruct (is_text_obj v); simpl; rewrite IH; reflexivity.
Qed.

Section WithUtil.

Variable isBASE64 : jstr -> bool.

(** With an image staged, the text is the cleaned text of the last
    message, whatever the branch and whatever stands before it. *)
Lemma text_with_images (messages : list message) (refs : list (option ref))
      (isRefConv : bool) :
  imageRefs refs <> [] ->
  text (fst (messagesPrepare isBASE64 messages refs isRefConv))
  = cleanBase64 (lastText (snd (messagesPrepare isBASE64 messages refs isRefConv))).
Proof.
  intros Hrefs. unfold messagesPrepare.
  destruct (imageRefs refs) as [|r rs] eqn:E; [contradiction|].
  destruct (isRefConv || (List.length messages <? 2)); simpl.
  - reflexivity.
  - destruct (last (map Some messages) None) as [m|];
      [destruct (hasFileOrImage m)|]; reflexivity.
Qed.

(** Without one, it is the cleaned text the branch has gathered. *)
Lemma text_without_images_passthrough (messages : list message)
      (refs : list (option ref)) (isRefConv : bool) :
  imageRefs refs = [] ->
  isRefConv || (List.length messages <? 2) = true ->
  messagesPrepare isBASE64 messages refs isRefConv
  = ({| text := cleanBase64 (passthrough messages); content_type := 2001;
        attachments := [] |}, messages).
Proof.
  intros Hrefs Hb. unfold messagesPrepare. rewrite Hb, Hrefs. reflexivity.
Qed.

(** The array [messagesPrepare] leaves behind in the merging branch. *)
Lemma messages_after_merge (pre : list message) (m : message)
      (refs : list (option ref)) :
  pre <> [] ->
  snd (messagesPrepare isBASE64 (pre ++ [m]) refs false)
  = if hasFileOrImage m then pre ++ [newFileMessage; m] else pre ++ [m].
Proof.
  intros Hpre. unfold messagesPrepare.
  assert (Hlen : (List.length (pre ++ [m]) <? 2) = false).
  { apply Nat.ltb_ge. rewrite length_app. simpl.
    destruct pre; [contradiction|]. simpl. lia. }
  rewrite Hlen. simpl orb. cbv iota. rewrite last_map_Some.
  destruct (hasFileOrImage m); [rewrite splice_snoc|]; reflexivity.
Qed.

End WithUtil.

Lemma imageRefs_staged (refs : list (option ref)) (r : ref) :
  In (Some r) refs -> staged_image r -> imageRefs refs <> [].
Proof.
  intros Hin [Hd Hk] E.
  assert (Hr : In r (imageRefs refs)).
  { unfold imageRefs, rawImageRefs, safeRefs.
    apply filter_In. split; [|assumption].
    apply filter_In. split; [|assumption].
    apply in_flat_map. exists (Some r). simpl. auto. }
  rewrite E in Hr. contradiction.
Qed.

Lemma trimStart_head (s : jstr) (c : N) (r : jstr) :
  trimStart s = c :: r -> is_space c = false.
Proof.
  induction s as [|x s IH]; simpl; [discriminate|].
  destruct (is_space x) eqn:E; [assumption|].
  intros [= <- <-]. assumption.
Qed.

(** What [trim] returns does not end in white space. *)
Lemma trim_end (s u : jstr) (c : N) : trim s = u ++ [c] -> is_space c = false.
Proof.
  unfold trim, trimEnd. intros H.
  apply (f_equal (@rev N)) in H. rewrite rev_involutive, rev_app_distr in H.
  simpl in H. apply (trimStart_head _ _ _ H).
Qed.

Lemma cleanBase64_end (t u : jstr) (c : N) :
  cleanBase64 t = u ++ [c] -> is_space c = false.
Proof.
  unfold cleanBase64. destruct t as [|x t].
  - intros H. destruct u; discriminate.
  - apply trim_end.
Qed.

(** *** The cleaning of [cleanBase64] *)

Lemma remove_matches_drop (m : jstr -> option nat) (s : jstr) : forall k,
    remove_matches m s k = remove_matches m (skipn k s) 0.
Proof.
  induction s as [|c s IH]; intros [|k]; try reflexivity.
  cbn [remove_matches skipn]. apply IH.
Qed.

Lemma skipn_skipn {A} (a b : nat) (l : list A) :
  skipn a (skipn b l) = skipn (b + a) l.
Proof.
  revert l. induction b as [|b IH]; intros l; [reflexivity|].
  destruct l as [|x l]; [destruct a; reflexivity|]. cbn [skipn Nat.add]. apply IH.
Qed.

(** The header the loop looks for is the head of what is deleted. *)
Lemma embedded_data_prefix (s : jstr) :
  embedded_data s
  = match match_dataUri_prefix s with
    | Some n => Some (n + run is_b64char (skipn n s))
    | None => None
    end.
Proof.
  unfold embedded_data, match_dataUri_prefix.
  destruct (startsWith (lit "data:") s); [|reflexivity].
  destruct (run (fun c => negb (N.eqb c 59)) (skipn 5 s)) as [|n] eqn:R;
    [reflexivity|].
  cbn [Nat.ltb Nat.leb andb]. rewrite skipn_skipn.
  destruct (startsWith (lit ";base64,") (skipn (5 + S n) s)); reflexivity.
Qed.

Lemma match_dataUri_prefix_pos (s : jstr) (n : nat) :
  match_dataUri_prefix s = Some n -> 0 < n /\ s <> [].
Proof.
  unfold match_dataUri_prefix.
  destruct s as [|c s]; [discriminate|].
  destruct (startsWith (lit "data:") (c :: s)); [|discriminate].
  destruct (run _ _); [discriminate|].
  destruct (startsWith _ _); [|discriminate].
  intros [= <-]. split; [lia | discriminate].
Qed.

(** What [exec] finds, and what one pass does up to there. *)
Lemma find_dataUri_spec (s : jstr) : forall pos,
    match find_dataUri s pos with
    | None => replace_all embedded_data s = s
    | Some (start, n) =>
        exists a rest,
          s = a ++ rest
          /\ start = pos + List.length a
          /\ match_dataUri_prefix rest = Some n
          /\ replace_all embedded_data s
             = a ++ replace_all embedded_data
                      (skipn (n + run is_b64char (skipn n rest)) rest)
    end.
Proof.
  induction s as [|c s IH]; intros pos.
  - cbn. reflexivity.
  - cbn [find_dataUri].
    destruct (match_dataUri_prefix (c :: s)) as [n|] eqn:P.
    + exists [], (c :: s). split; [reflexivity|]. split; [cbn; lia|].
      split; [exact P|].
      destruct (match_dataUri_prefix_pos _ _ P) as [Hn _].
      unfold replace_all. cbn [remove_matches app].
      rewrite embedded_data_prefix, P.
      destruct (n + run is_b64char (skipn n (c :: s))) as [|k] eqn:K; [lia|].
      rewrite remove_matches_drop. reflexivity.
    + specialize (IH (S pos)).
      assert (Hc : replace_all embedded_data (c :: s)
                   = c :: replace_all embedded_data s).
      { unfold replace_all. cbn [remove_matches].
        rewrite embedded_data_prefix, P. reflexivity. }
      destruct (find_dataUri s (S pos)) as [[start n]|].
      * destruct IH as (a & rest & -> & -> & Hp & Hr).
        exists (c :: a), rest. split; [reflexivity|]. split; [cbn; lia|].
        split; [exact Hp|]. rewrite Hc, Hr. reflexivity.
      * rewrite Hc, IH. reflexivity.
Qed.

(** The loop of [cleanBase64] is one pass from left to right. *)
Lemma strip_dataUris_one_pass (fuel : nat) : forall (t : jstr) (k : nat),
    List.length t - k <= fuel ->
    k <= List.length t ->
    strip_dataUris fuel t k
    = firstn k t ++ replace_all embedded_data (skipn k t).
Proof.
  induction fuel as [|fuel IH]; intros t k Hf Hk.
  - cbn [strip_dataUris].
    rewrite (skipn_all2 t) by lia. rewrite firstn_all2 by lia.
    rewrite app_nil_r. reflexivity.
  - cbn [strip_dataUris].
    pose proof (find_dataUri_spec (skipn k t) k) as Hs.
    destruct (find_dataUri (skipn k t) k) as [[start n]|].
    + destruct Hs as (a & rest & Ht & -> & Hp & Hr).
      destruct (match_dataUri_prefix_pos _ _ Hp) as [Hn Hrest].
      assert (Hlen : List.length t = k + List.length a + List.length rest).
      { rewrite <- (firstn_skipn k t) at 1. rewrite length_app, Ht, length_app.
        rewrite firstn_length_le by lia. lia. }
      assert (Hfirst : firstn (k + List.length a) t = firstn k t ++ a).
      { rewrite <- (firstn_skipn k t) at 1.
        rewrite firstn_app, firstn_firstn.
        rewrite firstn_length_le by lia.
        replace (Nat.min (k + List.length a) k) with k by lia.
        replace (k + List.length a - k) with (List.length a) by lia.
        rewrite Ht, firstn_app, firstn_all, Nat.sub_diag. cbn [firstn].
        rewrite app_nil_r. reflexivity. }
      assert (Hskip : forall j, skipn (k + List.length a + j) t = skipn j rest).
      { intros j. rewrite <- Nat.add_assoc, <- skipn_skipn, Ht.
        rewrite skipn_app, (skipn_all2 a) by lia.
        replace (List.length a + j - List.length a) with j by lia.
        reflexivity. }
      rewrite (Hskip n).
      set (r := run is_b64char (skipn n rest)).
      replace (k + List.length a + n + r) with (k + List.length a + (n + r)) by lia.
      rewrite (Hskip (n + r)), Hfirst.
      assert (Hnew : List.length ((firstn k t ++ a) ++ skipn (n + r) rest)
                     = k + List.length a + List.length (skipn (n + r) rest)).
      { rewrite !length_app, firstn_length_le by lia. lia. }
      assert (Hrest' : 0 < List.length rest)
        by (destruct rest; [congruence | cbn; lia]).
      pose proof (length_skipn (n + r) rest) as Hsk.
      rewrite IH.
      * rewrite firstn_app, firstn_all2
          by (rewrite length_app, firstn_length_le by lia; lia).
        rewrite length_app, firstn_length_le by lia.
        replace (k + List.length a - (k + List.length a)) with 0 by lia.
        cbn [firstn]. rewrite app_nil_r.
        rewrite skipn_app, skipn_all2
          by (rewrite length_app, firstn_length_le by lia; lia).
        rewrite length_app, firstn_length_le by lia.
        replace (k + List.length a - (k + List.length a)) with 0 by lia.
        cbn [skipn app]. rewrite Hr, <- app_assoc. reflexivity.
      * rewrite Hnew. lia.
      * rewrite Hnew. lia.
    + rewrite Hs, firstn_skipn. reflexivity.
Qed.

(** [cleanBase64] does what the cleaning says. *)
Lemma cleanBase64_cleaned (t : jstr) : cleanBase64 t = cleaned t.
Proof.
  unfold cleanBase64, cleaned.
  destruct t as [|c t]; [reflexivity|].
  rewrite strip_dataUris_one_pass by (cbn; lia).
  cbn [firstn skipn app]. reflexivity.
Qed.

(** C6, as amended. When at least one image was staged, that is when
    some asset reference has a dimension and a key of the store, the
    text the packer sends is the text of the last message only: its text
    parts, joined by line feeds, and cleaned. The cleaning deletes, in
    one pass from left to right, every [data:] header with its media
    type, [;base64,] and the base64 characters that follow; it drops
    every line that, trimmed, has more than 200 characters more than
    nine tenths of which are base64 characters; and it trims the whole.
    Base64 text that is neither stays. Nothing of the earlier messages
    enters the text, in either branch. An image part in the last message
    is not enough: the counterexample below has one whose upload
    failed. *)
Theorem C6_text_with_a_staged_image :
  forall isBASE64 pre lastm refs isRefConv r,
    In (Some r) refs ->
    staged_image r ->
    text (fst (messagesPrepare isBASE64 (pre ++ [lastm]) refs isRefConv))
    = cleaned (joined lastm).
Proof.
  intros isBASE64 pre lastm refs isRefConv r Hin Hst.
  rewrite (text_with_images isBASE64 (pre ++ [lastm]) refs isRefConv
             (imageRefs_staged refs r Hin Hst)).
  rewrite cleanBase64_cleaned.
  unfold messagesPrepare.
  destruct (isRefConv || (List.length (pre ++ [lastm]) <? 2)); simpl.
  - rewrite lastText_snoc. reflexivity.
  - rewrite last_map_Some. destruct (hasFileOrImage lastm); simpl.
    + rewrite splice_snoc.
      change (pre ++ [newFileMessage; lastm])
        with (pre ++ [newFileMessage] ++ [lastm]).
      rewrite app_assoc, lastText_snoc. reflexivity.
    + rewrite lastText_snoc. reflexivity.
Qed.

(** The witness of C6: the conversation of two messages, its image
    staged; and the same with a data URI in the text of the last
    message, which is deleted. *)
Lemma C6_witness :
  text (fst (messagesPrepare (fun _ => false) Examples.with_image
               [Some Examples.staged_ref] false))
  = lit "what is this?"
  /\ text (fst (messagesPrepare (fun _ => false)
                  ([{| role := lit "user";
                       content_of := CText (lit "earlier question") |}]
                     ++ [{| role := lit "user";
                            content_of :=
                              CParts [text_part
                                        (lit "see data:image/png;base64,iVBORw0KGgo= here");
                                      image_part (lit "http://img.example/a.png")] |}])
                  [Some Examples.staged_ref] false))
     = lit "see  here".
Proof.
  assert (Hst : staged_image Examples.staged_ref)
    by (split; vm_compute; reflexivity).
  split.
  - change Examples.with_image
      with ([{| role := lit "user"; content_of := CText (lit "earlier question") |}]
              ++ [{| role := lit "user";
                     content_of := CParts [text_part (lit "what is this?");
                                           image_part (lit "http://img.example/a.png")] |}]).
    rewrite (C6_text_with_a_staged_image (fun _ => false) _ _
               [Some Examples.staged_ref] false Examples.staged_ref).
    + vm_compute. reflexivity.
    + simpl. auto.
    + exact Hst.
  - rewrite (C6_text_with_a_staged_image (fun _ => false) _ _
               [Some Examples.staged_ref] false Examples.staged_ref).
    + vm_compute. reflexivity.
    + simpl. auto.
    + exact Hst.
Defined.

(** C6, as the spec states it, fails twice. Two messages, the last with
    an image part whose upload failed, so that the reference is [null]:
    the text is the merged history, not the text of the last message.
    And with the image staged, a last message whose text is one line of
    600 base64 characters and 70 exclamation marks: fewer than nine
    tenths of the line are base64 characters, and the whole fragment is
    sent. *)
Lemma C6_counterexample :
  ~ (forall isBASE64 pre lastm refs,
        pre <> [] ->
        has_file_or_image_part lastm ->
        text (fst (messagesPrepare isBASE64 (pre ++ [lastm]) refs false))
        = cleaned (joined lastm))
  /\ (let fragment := repeat 65%N 600 ++ repeat 33%N 70 in
      text (fst (messagesPrepare (fun _ => false)
                   ([{| role := lit "user";
                        content_of := CText (lit "earlier question") |}]
                      ++ [{| role := lit "user";
                             content_of :=
                               CParts [text_part fragment;
                                       image_part (lit "http://img.example/a.png")] |}])
                   [Some Examples.staged_ref] false))
      = fragment
      /\ Js.run is_b64char fragment = 600).
Proof.
  split.
  - intros H.
    specialize (H (fun _ => false)
                  [{| role := lit "user"; content_of := CText (lit "earlier question") |}]
                  {| role := lit "user";
                     content_of := CParts [text_part (lit "what is this?");
                                           image_part (lit "http://img.example/a.png")] |}
                  [None]).
    assert (Hne : [{| role := lit "user";
                      content_of := CText (lit "earlier question") |}] <> [])
      by discriminate.
    specialize (H Hne).
    assert (Hp : has_file_or_image_part
                   {| role := lit "user";
                      content_of := CParts [text_part (lit "what is this?");
                                            image_part (lit "http://img.example/a.png")] |}).
    { eexists. eexists. split; [reflexivity|]. split; [right; left; reflexivity|].
      right. reflexivity. }
    specialize (H Hp). vm_compute in H. discriminate.
  - cbv zeta. split; vm_compute; reflexivity.
Qed.

(** C7, as amended. With at most one message, or when the caller
    continues a conversation, and no image staged, the text the packer
    sends is the flattened text of the messages, one after the other
    (for each message its text parts, each followed by a line feed),
    cleaned: every [data:] header with its media type, [;base64,] and
    the base64 characters that follow is deleted in one pass from left
    to right, every line that, trimmed, has more than 200 characters
    more than nine tenths of which are base64 characters is dropped, and
    the whole is trimmed. No role and no delimiter enters the text,
    [messages] is left as it was, and the text never ends in a line
    feed, the trimming having removed the last one. With an image
    staged, it is the cleaned text of the last message instead. *)
Theorem C7_passthrough_text :
  forall isBASE64 messages refs isRefConv,
    isRefConv = true \/ List.length messages <= 1 ->
    (imageRefs refs = [] ->
     messagesPrepare isBASE64 messages refs isRefConv
     = ({| text := cleaned (flat_map flattened messages);
           content_type := 2001; attachments := [] |}, messages))
    /\ (imageRefs refs <> [] ->
        text (fst (messagesPrepare isBASE64 messages refs isRefConv))
        = cleaned (lastText messages)
        /\ snd (messagesPrepare isBASE64 messages refs isRefConv) = messages)
    /\ (forall u c,
           text (fst (messagesPrepare isBASE64 messages refs isRefConv)) = u ++ [c] ->
           is_space c = false).
Proof.
  intros isBASE64 messages refs isRefConv Hcase.
  assert (Hb : isRefConv || (List.length messages <? 2) = true).
  { destruct Hcase as [-> | Hlen]; [reflexivity|].
    apply orb_true_iff. right. apply Nat.ltb_lt. lia. }
  split; [|split].
  - intros Hrefs.
    rewrite (text_without_images_passthrough isBASE64 messages refs isRefConv Hrefs Hb).
    rewrite passthrough_flattened, cleanBase64_cleaned. reflexivity.
  - intros Hrefs. unfold messagesPrepare. rewrite Hb.
    destruct (imageRefs refs) as [|r rs]; [contradiction|]. simpl.
    rewrite cleanBase64_cleaned. auto.
  - intros u c. unfold messagesPrepare. rewrite Hb.
    destruct (0 <? List.length (map attachment_of (imageRefs refs))); simpl;
      apply cleanBase64_end.
Qed.

(** The witness of C7: the conversation of one message. *)
Lemma C7_witness :
  messagesPrepare (fun _ => false) Examples.hello [] false
  = ({| text := lit "hello"; content_type := 2001; attachments := [] |},
     Examples.hello).
Proof.
  destruct (C7_passthrough_text (fun _ => false) Examples.hello [] false) as (H & _).
  - right. simpl. lia.
  - rewrite (H eq_refl). vm_compute. reflexivity.
Defined.

(** C7, as the spec states it, fails: the text of the one message
    [hello] is sent without the line feed that follows it in the
    flattened text; and a message that holds a data URI is sent
    without it. *)
Lemma C7_counterexample :
  ~ (forall isBASE64 m refs isRefConv,
        text (fst (messagesPrepare isBASE64 [m] refs isRefConv)) = flattened m)
  /\ text (fst (messagesPrepare (fun _ => false)
                  [{| role := lit "user";
                      content_of :=
                        CText (lit "see data:image/png;base64,iVBORw0KGgo= here") |}]
                  [] false))
     = lit "see  here".
Proof.
  split.
  - intros H.
    specialize (H (fun _ => false)
                  {| role := lit "user"; content_of := CText (lit "hello") |} [] false).
    vm_compute in H. discriminate.
  - vm_compute. reflexivity.
Qed.

End PackerFacts.

(** ** The packer under retries *)

Module RetryFacts.

Import Js Exn Data Env Packer PackerSpec Orchestrator.
Import PackerFacts OrchestratorFacts.

Lemma repeat_snoc {A} (x : A) (k : nat) : repeat x k ++ [x] = repeat x (S k).
Proof.
  induction k as [|k IH]; simpl; [reflexivity|]. rewrite IH. reflexivity.
Qed.

Section WithUtil.

Variable isBASE64 : jstr -> bool.
Variable pre : list message.
Variable lastm : message.
Hypothesis pre_not_empty : pre <> [].
Hypothesis has_part : hasFileOrImage lastm = true.

(** One call on an array that already holds [j] synthetic messages. *)
Lemma pack_adds_one (refs : list (option ref)) (j : nat) :
  snd (messagesPrepare isBASE64 (pre ++ repeat newFileMessage j ++ [lastm]) refs false)
  = pre ++ repeat newFileMessage (S j) ++ [lastm].
Proof.
  rewrite app_assoc.
  rewrite (messages_after_merge isBASE64 (pre ++ repeat newFileMessage j) lastm refs).
  - rewrite has_part. rewrite <- app_assoc. f_equal.
    change [newFileMessage; lastm] with ([newFileMessage] ++ [lastm]).
    rewrite app_assoc, repeat_snoc. reflexivity.
  - destruct pre; [contradiction|]. discriminate.
Qed.

Lemma pack_iterated (refs : list (option ref)) (k : nat) :
  Nat.iter k (fun ms => snd (messagesPrepare isBASE64 ms refs false)) (pre ++ [lastm])
  = pre ++ repeat newFileMessage k ++ [lastm].
Proof.
  induction k as [|k IH]; [reflexivity|].
  simpl Nat.iter. rewrite IH. apply pack_adds_one.
Qed.

End WithUtil.

Section WithEnv.

Variable SP : Sse.parser.
Variable P : platform.
Variable worlds : nat -> world.
Variable pre : list message.
Variable lastm : message.
Hypothesis pre_not_empty : pre <> [].
Hypothesis has_part : hasFileOrImage lastm = true.

(** An attempt leaves one more synthetic message when it comes to the
    call, and none when an upload throws before the packing. *)
Lemma open_stream_adds (j rc : nat) (refConvId : jstr) r ms refConvId' log :
  has_conv_id refConvId = false ->
  open_stream P worlds (pre ++ repeat newFileMessage j ++ [lastm]) refConvId rc
  = (r, ms, refConvId', log) ->
  has_conv_id refConvId' = false
  /\ ms = pre ++ repeat newFileMessage (j + List.length (completions log)) ++ [lastm].
Proof.
  intros Href. unfold open_stream.
  destruct (upload_all P (worlds rc) _) as [refs|e].
  - rewrite Href.
    pose proof (pack_adds_one (isBASE64 P) pre lastm pre_not_empty has_part refs j) as Hp.
    destruct (messagesPrepare (isBASE64 P) _ refs false) as [payload ms'].
    simpl in Hp. intros [= <- <- <- <-]. split; [reflexivity|].
    simpl. rewrite Hp. replace (j + 1) with (S j) by lia. reflexivity.
  - intros [= <- <- <- <-]. split; [assumption|].
    simpl. rewrite Nat.add_0_r. reflexivity.
Qed.

Lemma completion_body_adds (j rc : nat) (refConvId : jstr) o ms refConvId' log :
  has_conv_id refConvId = false ->
  completion_body SP P worlds (pre ++ repeat newFileMessage j ++ [lastm]) refConvId rc
  = (o, ms, refConvId', log) ->
  has_conv_id refConvId' = false
  /\ ms = pre ++ repeat newFileMessage (j + List.length (completions log)) ++ [lastm].
Proof.
  intros Href. unfold completion_body.
  destruct (open_stream P worlds _ refConvId rc) as [[[r ms0] ref0] log0] eqn:E.
  apply (open_stream_adds j rc refConvId r ms0 ref0 log0 Href) in E.
  destruct E as [Hr Hm].
  destruct r as [response|e].
  - destruct (is_event_stream response) as [[|]|e].
    + destruct (Transcoder.receiveStream SP (stream response)) as [|a|e].
      * intros [= <- <- <- <-]; auto.
      * destruct (removeConversation_quiet (Some (Transcoder.id a))) as (_ & _ & Hc).
        revert Hc. generalize (removeConversation (Some (Transcoder.id a))).
        intros rm Hc [= <- <- <- <-].
        rewrite completions_app, Hc, app_nil_r. auto.
      * intros [= <- <- <- <-]; auto.
    + intros [= <- <- <- <-]; auto.
    + intros [= <- <- <- <-]; auto.
  - intros [= <- <- <- <-]; auto.
Qed.

Lemma completion_loop_adds (budget : nat) : forall j rc refConvId,
    has_conv_id refConvId = false ->
    let r := completion_loop SP P worlds budget
               (pre ++ repeat newFileMessage j ++ [lastm]) refConvId rc in
    messages_of r
    = pre ++ repeat newFileMessage (j + List.length (completions (actions r)))
          ++ [lastm].
Proof.
  induction budget as [|b IH]; intros j rc refConvId Href; simpl.
  - destruct (completion_body SP P worlds _ refConvId rc)
      as [[[o ms] ref] log] eqn:E.
    apply (completion_body_adds j rc refConvId o ms ref log Href) in E.
    destruct E as [_ Hm]. destruct o; simpl; exact Hm.
  - destruct (completion_body SP P worlds _ refConvId rc)
      as [[[o ms] ref] log] eqn:E.
    apply (completion_body_adds j rc refConvId o ms ref log Href) in E.
    destruct E as [Hr Hm]. destruct o as [a|e|]; simpl; try exact Hm.
    subst ms. rewrite (IH _ (S rc) ref Hr).
    rewrite completions_app. simpl. rewrite length_app.
    rewrite Nat.add_assoc. reflexivity.
Qed.

End WithEnv.

(** C10. [messagesPrepare] changes the array it is given: for a list of
    at least two messages that continues no conversation and whose last
    message has a part of type [file] or [image_url], it leaves the
    synthetic system message spliced in just before the last message.
    Packing the array again adds one more: [k] calls leave [k] copies.
    So does a completion that is retried, since every attempt packs the
    array the attempt before it left: when the call ends, the array
    holds one copy for each attempt that came to the packing. *)
Theorem C10_packer_splices_into_its_argument :
  forall SP P worlds pre lastm refConvId,
    pre <> [] ->
    has_file_or_image_part lastm ->
    has_conv_id refConvId = false ->
    (forall isBASE64 refs,
        snd (messagesPrepare isBASE64 (pre ++ [lastm]) refs false)
        = pre ++ [newFileMessage; lastm])
    /\ (forall isBASE64 refs k,
           Nat.iter k (fun ms => snd (messagesPrepare isBASE64 ms refs false))
                    (pre ++ [lastm])
           = pre ++ repeat newFileMessage k ++ [lastm])
    /\ (let r := createCompletion SP P worlds (pre ++ [lastm]) refConvId 0 in
        messages_of r
        = pre ++ repeat newFileMessage (List.length (completions (actions r)))
              ++ [lastm]).
Proof.
  intros SP P worlds pre lastm refConvId Hpre Hpart Href.
  apply hasFileOrImage_spec in Hpart.
  split; [|split].
  - intros isBASE64 refs.
    apply (pack_adds_one isBASE64 pre lastm Hpre Hpart refs 0).
  - intros isBASE64 refs k.
    apply (pack_iterated isBASE64 pre lastm Hpre Hpart refs k).
  - apply (completion_loop_adds SP P worlds pre lastm Hpre Hpart 3 0 0 refConvId Href).
Qed.

(** The witness of C10: a completion that fails four times after the
    packing leaves four synthetic messages in the caller's array. *)
Lemma C10_witness :
  List.length
    (messages_of (createCompletion Sse.reference Examples.platform0
                    (fun _ => Examples.world_json) Examples.with_image [] 0))
  = 6.
Proof.
  destruct (C10_packer_splices_into_its_argument Sse.reference Examples.platform0
              (fun _ => Examples.world_json)
              [{| role := lit "user"; content_of := CText (lit "earlier question") |}]
              {| role := lit "user";
                 content_of := CParts [text_part (lit "what is this?");
                                       image_part (lit "http://img.example/a.png")] |}
              []) as (_ & _ & H).
  - discriminate.
  - eexists. eexists. split; [reflexivity|]. split; [right; left; reflexivity|].
    right. reflexivity.
  - reflexivity.
  - change Examples.with_image
      with ([{| role := lit "user"; content_of := CText (lit "earlier question") |}]
              ++ [{| role := lit "user";
                     content_of := CParts [text_part (lit "what is this?");
                                           image_part (lit "http://img.example/a.png")] |}]).
    rewrite H. vm_compute. reflexivity.
Defined.

End RetryFacts.

(** ** The stream transcoders *)

Module TranscoderFacts.

Import Js Json Exn Transcoder.

(** *** The decoder and the handler of the data event *)

Lemma decode_run (buf : list N) : forall st,
    Utf8.decode_from st buf
    = fst (Utf8.run st buf)
      ++ match snd (Utf8.run st buf) with
         | Utf8.Start => []
         | Utf8.Cont _ _ _ _ => [0xFFFD%N]
         end.
Proof.
  induction buf as [|b r IH]; intros st; simpl.
  - destruct st; reflexivity.
  - destruct (Utf8.step st b) as [out st'].
    rewrite IH. destruct (Utf8.run st' r) as [out' st'']. simpl.
    rewrite app_assoc. reflexivity.
Qed.

Lemma run_app (a b : list N) : forall st,
    Utf8.run st (a ++ b)
    = (fst (Utf8.run st a) ++ fst (Utf8.run (snd (Utf8.run st a)) b),
       snd (Utf8.run (snd (Utf8.run st a)) b)).
Proof.
  induction a as [|x a IH]; intros st; simpl.
  - destruct (Utf8.run st b); reflexivity.
  - destruct (Utf8.step st x) as [out st'].
    rewrite IH. destruct (Utf8.run st' a) as [out' st'']. simpl.
    rewrite app_assoc. reflexivity.
Qed.

Lemma replacement_seen (cps : list N) :
  In 0xFFFD%N cps -> existsb (N.eqb 0xFFFD) (flat_map Utf8.utf16 cps) = true.
Proof.
  intros Hin. apply existsb_exists. exists 0xFFFD%N. split; [|reflexivity].
  apply in_flat_map. exists 0xFFFD%N. split; [assumption|]. simpl. auto.
Qed.

(** A buffer that decodes without U+FFFD leaves the decoder between two
    characters. *)
Lemma clean_ends_at_boundary (a : list N) :
  Utf8.has_replacement a = false -> snd (Utf8.run Utf8.Start a) = Utf8.Start.
Proof.
  unfold Utf8.has_replacement, Utf8.toString. rewrite decode_run.
  destruct (snd (Utf8.run Utf8.Start a)) eqn:E; [reflexivity|].
  intros H. rewrite replacement_seen in H; [discriminate|].
  apply in_or_app. right. simpl. auto.
Qed.

(** So what follows it decodes on its own. *)
Lemma toString_app_clean (a b : list N) :
  Utf8.has_replacement a = false ->
  Utf8.toString (a ++ b) = Utf8.toString a ++ Utf8.toString b.
Proof.
  intros Ha. pose proof (clean_ends_at_boundary a Ha) as Hst.
  unfold Utf8.toString. rewrite !decode_run, run_app. simpl.
  rewrite Hst, app_nil_r, <- flat_map_app, <- app_assoc. reflexivity.
Qed.

(** What the handler does hold for: chunks that each decode without
    U+FFFD, as the chunks of a well-formed stream cut between frames or
    between characters do, are fed one by one as they come, and the
    texts fed make up the text of the whole stream. *)
Lemma clean_chunks_are_fed (chunks : list (list N)) :
  Forall (fun c => Utf8.has_replacement c = false) chunks ->
  fed_texts [] chunks = map Utf8.toString chunks
  /\ List.concat (fed_texts [] chunks) = Utf8.toString (List.concat chunks).
Proof.
  induction 1 as [|c chunks Hc _ [IH1 IH2]]; [split; reflexivity|].
  simpl. unfold on_data. rewrite Hc. simpl. rewrite IH1. split; [reflexivity|].
  simpl. rewrite <- IH1, IH2. symmetry. apply toString_app_clean. exact Hc.
Qed.

(** *** The latch of buffered mode *)

Section Latch.

Variable SP : Sse.parser.

Ltac split_cases :=
  repeat match goal with
         | |- context [match ?x with _ => _ end] => destruct x
         end.

(** The body of the callback either takes the finishing path, or leaves
    the latch and the calls made so far as they are. *)
Lemma rs_try_cases (st : rs_state SP) (data : jstr) :
  (fst (rs_try st data) = rs_finish st /\ snd (rs_try st data) = None)
  \/ (rs_calls (fst (rs_try st data)) = rs_calls st
      /\ rs_isEnd (fst (rs_try st data)) = rs_isEnd st).
Proof.
  unfold rs_try. split_cases; simpl; auto.
Qed.

Lemma frame_resolves_app (a b : list settle) :
  frame_resolves (a ++ b) = frame_resolves a ++ frame_resolves b.
Proof. apply flat_map_app. Qed.

Lemma latched_on_event (st : rs_state SP) (data : jstr) :
  latched st -> latched (rs_on_event st data).
Proof.
  intros [H0 H1]. unfold rs_on_event.
  destruct (rs_isEnd st) eqn:E; [split; [rewrite E; discriminate | assumption]|].
  specialize (H0 eq_refl).
  destruct (rs_try_cases st data) as [[Hf Hn] | [Hc He]];
    destruct (rs_try st data) as [st' oe]; simpl in *.
  - subst st' oe. unfold latched, rs_finish. simpl.
    rewrite frame_resolves_app, H0. simpl. split; [discriminate | lia].
  - destruct oe as [err|]; unfold latched, rs_call; simpl.
    + rewrite frame_resolves_app, Hc, H0. simpl. split; [auto | lia].
    + rewrite Hc, H0. simpl. split; [auto | lia].
Qed.

Lemma latched_on_events (events : list jstr) : forall st,
    latched st -> latched (fold_left (@rs_on_event SP) events st).
Proof.
  induction events as [|e events IH]; intros st H; simpl; [assumption|].
  apply IH. apply latched_on_event. assumption.
Qed.

Lemma latched_step (st : rs_state SP) (ev : event) :
  latched st -> latched (rs_step st ev).
Proof.
  intros [H0 H1]. destruct ev as [buffer| | |]; simpl.
  - destruct (on_data (rs_temp st) buffer) as [temp [bytes|]].
    + destruct (Sse.feed SP (rs_parser st) (Utf8.toString bytes)) as [p events].
      apply latched_on_events. split; assumption.
    + split; assumption.
  - destruct (rs_error_seen st); [split; assumption|].
    unfold latched. simpl. rewrite frame_resolves_app. simpl.
    rewrite app_nil_r. split; assumption.
  - destruct (rs_close_seen st); [split; assumption|].
    unfold latched. simpl. rewrite frame_resolves_app. simpl.
    rewrite app_nil_r. split; assumption.
  - split; assumption.
Qed.

(** Buffered mode: whatever the stream delivers and however often it
    says that it is finished, the callback of the parser calls [resolve]
    at most once. *)
Lemma receiveStream_resolves_once (events : list event) :
  List.length (frame_resolves (rs_calls (rs_run SP events))) <= 1.
Proof.
  unfold rs_run.
  assert (H : latched (rs_init SP)) by (split; simpl; auto).
  revert H. generalize (rs_init SP).
  induction events as [|ev events IH]; intros st H; simpl.
  - apply H.
  - apply IH. apply latched_step. assumption.
Qed.

End Latch.

(** A chunk that decodes with U+FFFD is put aside and nothing is fed. *)
Lemma rs_step_stash SP (st : rs_state SP) (buffer : list N) :
  Utf8.has_replacement buffer = true ->
  rs_step st (Data buffer) = rs_set_feed st (rs_temp st ++ buffer) (rs_parser st).
Proof.
  intros H. unfold rs_step, on_data. rewrite H. reflexivity.
Qed.

Lemma ts_step_stash SP (st : ts_state SP) (buffer : list N) :
  Utf8.has_replacement buffer = true ->
  ts_step st (Data buffer) = ts_set_feed st (ts_temp st ++ buffer) (ts_parser st).
Proof.
  intros H. unfold ts_step, on_data. rewrite H. reflexivity.
Qed.

(** C2. The handler of the data event does not keep the text of a chunk
    that ends inside a character together with the rest of it: a frame
    whose text is one three-byte character, cut after the first of the
    three bytes, arrives as two chunks that each decode with U+FFFD, so
    both are put aside and nothing is ever fed to the parser, whatever
    the parser: the text gathered is empty in both modes. Fed whole,
    the same bytes give the character. *)
Theorem C2_cut_inside_a_character :
  Examples.cjk_head ++ Examples.cjk_tail = Examples.cjk_frame
  /\ (forall SP,
         buffered_text SP [Data Examples.cjk_head; Data Examples.cjk_tail; Close] = []
         /\ live_text SP [Data Examples.cjk_head; Data Examples.cjk_tail; Close] = []
         /\ receiveStream SP [Data Examples.cjk_head; Data Examples.cjk_tail; Close]
            = Resolved {| id := JStr []; content := [] |})
  /\ fed_texts [] [Examples.cjk_head; Examples.cjk_tail] = []
  /\ fed_texts [] [Examples.cjk_frame] = [Utf8.toString Examples.cjk_frame]
  /\ buffered_text Sse.reference [Data Examples.cjk_frame; Close] = [0x4E2D%N]
  /\ live_text Sse.reference [Data Examples.cjk_frame; Close] = [0x4E2D%N].
Proof.
  split; [apply firstn_skipn|].
  assert (Hh : Utf8.has_replacement Examples.cjk_head = true) by (vm_compute; reflexivity).
  assert (Ht : Utf8.has_replacement Examples.cjk_tail = true) by (vm_compute; reflexivity).
  split; [|split; [|split; [|split]]].
  - intros SP.
    unfold buffered_text, live_text, receiveStream, rs_run, createTransStream.
    cbn [fold_left].
    rewrite (rs_step_stash SP _ _ Hh), (rs_step_stash SP _ _ Ht).
    rewrite (ts_step_stash SP _ _ Hh), (ts_step_stash SP _ _ Ht).
    repeat split; reflexivity.
  - unfold fed_texts, on_data. rewrite Hh, Ht. reflexivity.
  - assert (Hw : Utf8.has_replacement Examples.cjk_frame = false)
      by (vm_compute; reflexivity).
    unfold fed_texts, on_data. rewrite Hw. reflexivity.
  - vm_compute. reflexivity.
  - vm_compute. reflexivity.
Qed.

End TranscoderFacts.

(** ** The request signer *)

Module SignerFacts.

Import Js Exn Signer.

(** *** The same second, the same signature *)



(** *** A signature is one of finitely many strings *)

Lemma hex_shape (bytes : list N) :
  List.length (Sha256.hex bytes) = 2 * List.length bytes
  /\ forallb Upload.is_lower_hex (Sha256.hex bytes) = true.
Proof.
  unfold Sha256.hex. induction bytes as [|b bytes [IHl IHh]]; [split; reflexivity|].
  simpl. rewrite IHl, IHh, !UploadFacts.hex_digit_lower. split; [lia | reflexivity].
Qed.

Lemma sha256_length (msg : list N) : List.length (Sha256.sha256 msg) = 32.
Proof.
  unfold Sha256.sha256, Sha256.digest_of.
  generalize (Sha256.blocks (List.length (Sha256.pad msg)) Sha256.H0 (Sha256.pad msg)).
  intros s. reflexivity.
Qed.

Lemma hmac_length (key data : list N) : List.length (Sha256.hmac key data) = 32.
Proof.
  unfold Sha256.hmac. apply sha256_length.
Qed.

Lemma Some_inj {A} (x y : A) : Some x = Some y -> x = y.
Proof.
  intros H.
  exact (f_equal (fun o => match o with Some z => z | None => x end) H).
Qed.

Lemma hex_hmac_shape (key data : list N) :
  List.length (Sha256.hex (Sha256.hmac key data)) = 64
  /\ forallb Upload.is_lower_hex (Sha256.hex (Sha256.hmac key data)) = true.
Proof.
  destruct (hex_shape (Sha256.hmac key data)) as [Hl Hh].
  pose proof (hmac_length key data) as E.
  split; [|exact Hh]. rewrite Hl, E. reflexivity.
Qed.

Lemma signature_shape date method host path params sessionToken secretKey
      region service o sig :
  signature date method host path params sessionToken secretKey region service o
  = Some sig ->
  List.length sig = 64 /\ forallb Upload.is_lower_hex sig = true.
Proof.
  unfold signature.
  destruct (canonicalRequest date method host path params sessionToken o) as [cr|];
    [|discriminate].
  intros H. apply Some_inj in H. subst sig.
  exact (hex_hmac_shape (signingKey date secretKey region service)
           (Utf8.fromString (stringToSign date region service cr))).
  Qed.

Lemma lower_hex_in_alphabet (c : N) :
  Upload.is_lower_hex c = true -> In c hex_alphabet.
Proof.
  unfold Upload.is_lower_hex, in_range. intros H.
  apply orb_true_iff in H.
  assert (Hc : (48 <= c <= 57 \/ 97 <= c <= 102)%N).
  { destruct H as [H|H]; apply andb_true_iff in H; destruct H as [H1 H2];
      apply N.leb_le in H1; apply N.leb_le in H2; lia. }
  assert (Hd : (c = 48 \/ c = 49 \/ c = 50 \/ c = 51 \/ c = 52 \/ c = 53 \/ c = 54
                \/ c = 55 \/ c = 56 \/ c = 57 \/ c = 97 \/ c = 98 \/ c = 99
                \/ c = 100 \/ c = 101 \/ c = 102)%N) by lia.
  unfold hex_alphabet. simpl. intuition.
Qed.

Lemma all_hex_complete (s : jstr) :
  forallb Upload.is_lower_hex s = true -> In s (all_hex (List.length s)).
Proof.
  induction s as [|c s IH]; [simpl; auto|].
  intros H. cbn [forallb] in H. apply andb_true_iff in H. destruct H as [Hc Hs].
  cbn [List.length all_hex]. apply in_flat_map. exists s. split; [auto|].
  apply (in_map (fun d => d :: s)). apply lower_hex_in_alphabet. assumption.
Qed.

(** The pigeonhole: a function from the numbers into a finite list takes
    some value twice. *)
Lemma not_injective_into {A} (f : nat -> A) (l : list A) :
  (forall n, In (f n) l) ->
  ~ (forall i j, f i = f j -> i = j).
Proof.
  intros Hin Hinj.
  assert (Hnd : NoDup (map f (seq 0 (S (List.length l))))).
  { apply Injective_map_NoDup; [exact Hinj | apply seq_NoDup]. }
  assert (Hincl : incl (map f (seq 0 (S (List.length l)))) l).
  { intros x Hx. apply in_map_iff in Hx. destruct Hx as (n & <- & _). apply Hin. }
  pose proof (NoDup_incl_length Hnd Hincl) as Hlen.
  rewrite length_map, length_seq in Hlen. lia.
Qed.

(** *** The encoder is injective *)

Local Open Scope N_scope.

(* division and remainder by a constant, for [lia] *)
Local Ltac Zify.zify_post_hook ::= Z.to_euclidean_division_equations.

Ltac bool_to_prop :=
  repeat match goal with
         | H : (_ && _)%bool = true |- _ => apply andb_true_iff in H; destruct H
         | H : (_ || _)%bool = true |- _ => apply orb_true_iff in H; destruct H
         | H : (_ && _)%bool = false |- _ => apply andb_false_iff in H; destruct H
         | H : (_ || _)%bool = false |- _ => apply orb_false_iff in H; destruct H
         | H : negb _ = true |- _ => apply negb_true_iff in H
         | H : negb _ = false |- _ => apply negb_false_iff in H
         | H : (_ <=? _) = true |- _ => apply N.leb_le in H
         | H : (_ <=? _) = false |- _ => apply N.leb_gt in H
         | H : (_ <? _) = true |- _ => apply N.ltb_lt in H
         | H : (_ <? _) = false |- _ => apply N.ltb_ge in H
         | H : (_ =? _) = true |- _ => apply N.eqb_eq in H
         | H : (_ =? _) = false |- _ => apply N.eqb_neq in H
         end.

Lemma upper_hex_digit_inj (a b : N) :
  upper_hex_digit a = upper_hex_digit b -> a mod 16 = b mod 16.
Proof.
  unfold upper_hex_digit.
  destruct (N.ltb_spec (a mod 16) 10); destruct (N.ltb_spec (b mod 16) 10); lia.
Qed.

Lemma pct_inj (a b : N) : a < 256 -> b < 256 -> pct a = pct b -> a = b.
Proof.
  intros Ha Hb H. unfold pct in H.
  injection H as H1 H2.
  apply upper_hex_digit_inj in H1. apply upper_hex_digit_inj in H2. lia.
Qed.

(** No character of an escape is one of the five escaped afterwards,
    and none is left alone by the encoder. *)
Lemma pct_chars (b c : N) :
  In c (pct b) -> is_sub_delim c = false /\ c <> 38 /\ (c = 37 \/ is_unreserved c = true).
Proof.
  unfold pct, upper_hex_digit. simpl.
  intros [<-|[<-|[<-|[]]]].
  - repeat split; [discriminate | left; reflexivity].
  - destruct (N.ltb_spec ((b / 16) mod 16) 10) as [H|H].
    + assert (Hc : exists d, d < 10 /\ (b / 16) mod 16 = d) by (eexists; split; eauto).
      destruct Hc as (d & Hd & ->).
      assert (Hcase : d = 0 \/ d = 1 \/ d = 2 \/ d = 3 \/ d = 4 \/ d = 5 \/ d = 6
                      \/ d = 7 \/ d = 8 \/ d = 9) by lia.
      repeat destruct Hcase as [-> | Hcase]; try subst d;
        (repeat split; [discriminate | right; reflexivity]).
    + pose proof (N.mod_upper_bound (b / 16) 16 ltac:(discriminate)) as Hu.
      assert (Hc : exists d, 10 <= d < 16 /\ (b / 16) mod 16 = d) by (eexists; split; eauto).
      destruct Hc as (d & Hd & ->).
      assert (Hcase : d = 10 \/ d = 11 \/ d = 12 \/ d = 13 \/ d = 14 \/ d = 15) by lia.
      repeat destruct Hcase as [-> | Hcase]; try subst d;
        (repeat split; [discriminate | right; reflexivity]).
  - destruct (N.ltb_spec (b mod 16) 10) as [H|H].
    + assert (Hc : exists d, d < 10 /\ b mod 16 = d) by (eexists; split; eauto).
      destruct Hc as (d & Hd & ->).
      assert (Hcase : d = 0 \/ d = 1 \/ d = 2 \/ d = 3 \/ d = 4 \/ d = 5 \/ d = 6
                      \/ d = 7 \/ d = 8 \/ d = 9) by lia.
      repeat destruct Hcase as [-> | Hcase]; try subst d;
        (repeat split; [discriminate | right; reflexivity]).
    + pose proof (N.mod_upper_bound b 16 ltac:(discriminate)) as Hu.
      assert (Hc : exists d, 10 <= d < 16 /\ b mod 16 = d) by (eexists; split; eauto).
      destruct Hc as (d & Hd & ->).
      assert (Hcase : d = 10 \/ d = 11 \/ d = 12 \/ d = 13 \/ d = 14 \/ d = 15) by lia.
      repeat destruct Hcase as [-> | Hcase]; try subst d;
        (repeat split; [discriminate | right; reflexivity]).
Qed.

Lemma pct_app_inj (a b : N) (x y : jstr) :
  a < 256 -> b < 256 -> pct a ++ x = pct b ++ y -> a = b /\ x = y.
Proof.
  intros Ha Hb H. unfold pct in H. cbn [app] in H.
  injection H as H1 H2 H3. split; [|assumption].
  apply upper_hex_digit_inj in H1. apply upper_hex_digit_inj in H2. lia.
Qed.

(** The UTF-8 bytes of a code point are bytes. *)
Lemma encode_cp_bytes (cp : N) :
  cp < 0x110000 -> Forall (fun b => b < 256) (Utf8.encode_cp cp).
Proof.
  intros H. unfold Utf8.encode_cp.
  destruct (N.ltb_spec cp 0x80); [repeat constructor; lia|].
  destruct (N.ltb_spec cp 0x800); [repeat constructor; lia|].
  destruct (N.ltb_spec cp 0x10000); repeat constructor; lia.
Qed.

(** The escaped bytes of a code point are a prefix code, and tell the
    code point. *)
Lemma escaped_cp_inj (cp1 cp2 : N) (x y : jstr) :
  cp1 < 0x110000 -> cp2 < 0x110000 ->
  flat_map pct (Utf8.encode_cp cp1) ++ x = flat_map pct (Utf8.encode_cp cp2) ++ y ->
  cp1 = cp2 /\ x = y.
Proof.
  intros H1 H2.
  pose proof (encode_cp_bytes cp1 H1) as B1.
  pose proof (encode_cp_bytes cp2 H2) as B2.
  revert B1 B2. unfold Utf8.encode_cp.
  destruct (N.ltb_spec cp1 0x80); [|destruct (N.ltb_spec cp1 0x800);
                                     [|destruct (N.ltb_spec cp1 0x10000)]];
    (destruct (N.ltb_spec cp2 0x80); [|destruct (N.ltb_spec cp2 0x800);
                                        [|destruct (N.ltb_spec cp2 0x10000)]]);
    intros B1 B2 Heq; cbn [flat_map] in Heq; rewrite <- ?app_assoc in Heq;
    cbn [app] in Heq;
    repeat match goal with
           | B : Forall _ (_ :: _) |- _ => inversion B; subst; clear B
           | B : Forall _ [] |- _ => clear B
           end;
    repeat match goal with
           | E : pct ?a ++ ?u = pct ?b ++ ?v |- _ =>
               apply pct_app_inj in E; [destruct E | assumption | assumption]
           end;
    try (split; [lia | assumption]);
    try (exfalso; lia).
Qed.

Lemma escape_pcts (bs : list N) (x : jstr) :
  escape_sub_delims (flat_map pct bs ++ x) = flat_map pct bs ++ escape_sub_delims x.
Proof.
  unfold escape_sub_delims. rewrite flat_map_app. f_equal.
  induction bs as [|b bs IH]; [reflexivity|].
  cbn [flat_map]. rewrite flat_map_app, IH. f_equal.
  assert (Hc : forall c, In c (pct b) -> is_sub_delim c = false)
    by (intros c Hc; apply (pct_chars b c Hc)).
  revert Hc. generalize (pct b). intros l Hl.
  induction l as [|c l IHl]; [reflexivity|].
  cbn [flat_map]. rewrite (Hl c (or_introl eq_refl)).
  rewrite IHl; [reflexivity|]. intros c' Hc'. apply Hl. right. assumption.
Qed.

Lemma sub_delim_small (c : N) : is_sub_delim c = true -> c < 0x80.
Proof.
  unfold is_sub_delim. intros H. bool_to_prop; lia.
Qed.

Lemma sub_delim_plain (c : N) :
  is_sub_delim c = true ->
  uri_unreserved c = true /\ Utf8.is_high c = false /\ Utf8.is_low c = false.
Proof.
  unfold is_sub_delim. intros H.
  bool_to_prop; subst; repeat split; reflexivity.
Qed.

(** [rfc3986Encode], head by head. *)
Lemma rfc3986Encode_cons (c : N) (r : jstr) :
  rfc3986Encode (c :: r)
  = match head_token c r with
    | None => None
    | Some (t, r') => option_map (app t) (rfc3986Encode r')
    end.
Proof.
  unfold rfc3986Encode, head_token, is_unreserved. cbn [encodeURIComponent].
  destruct (is_sub_delim c) eqn:Es.
  - destruct (sub_delim_plain c Es) as (-> & -> & ->). cbn [andb negb].
    pose proof (sub_delim_small c Es) as Hs.
    unfold Utf8.encode_cp. apply N.ltb_lt in Hs. rewrite Hs.
    destruct (encodeURIComponent r) as [e|]; [|reflexivity]. cbn [option_map].
    unfold escape_sub_delims. cbn [flat_map]. rewrite Es, app_nil_r. reflexivity.
  - rewrite andb_true_r. destruct (uri_unreserved c).
    + destruct (encodeURIComponent r) as [e|]; [|reflexivity]. cbn [option_map].
      unfold escape_sub_delims. cbn [flat_map app]. rewrite Es. reflexivity.
    + destruct (Utf8.is_high c).
      * destruct r as [|l r']; [reflexivity|].
        destruct (Utf8.is_low l); [|reflexivity].
        destruct (encodeURIComponent r') as [e|]; [|reflexivity]. cbn [option_map].
        rewrite escape_pcts. reflexivity.
      * destruct (Utf8.is_low c); [reflexivity|].
        destruct (encodeURIComponent r) as [e|]; [|reflexivity]. cbn [option_map].
        rewrite escape_pcts. reflexivity.
Qed.

Lemma head_token_shape (c : N) (r t r' : jstr) :
  head_token c r = Some (t, r') -> head_shape c r t r'.
Proof.
  unfold head_token.
  destruct (is_unreserved c) eqn:Eu.
  - intros [= <- <-]. constructor. assumption.
  - destruct (Utf8.is_high c) eqn:Eh.
    + destruct r as [|l r0]; [discriminate|].
      destruct (Utf8.is_low l) eqn:El; [|discriminate].
      intros [= <- <-]. constructor; assumption.
    + destruct (Utf8.is_low c) eqn:El; [discriminate|].
      intros [= <- <-]. constructor; assumption.
Qed.

Lemma unreserved_not_percent (c : N) : is_unreserved c = true -> c <> 37.
Proof.
  intros H ->. discriminate H.
Qed.

Lemma escaped_starts_with_percent (cp : N) :
  exists rest, flat_map pct (Utf8.encode_cp cp) = 37 :: rest.
Proof.
  unfold Utf8.encode_cp.
  destruct (cp <? 0x80); [|destruct (cp <? 0x800); [|destruct (cp <? 0x10000)]];
    cbn [flat_map pct app]; eexists; reflexivity.
Qed.

Lemma pair_cp_range (h l : N) :
  Utf8.is_high h = true -> Utf8.is_low l = true ->
  0x10000 <= Utf8.pair_cp h l < 0x110000.
Proof.
  unfold Utf8.is_high, Utf8.is_low, Utf8.pair_cp, in_range. intros Hh Hl.
  bool_to_prop. lia.
Qed.

Lemma pair_cp_inj (h1 l1 h2 l2 : N) :
  Utf8.is_high h1 = true -> Utf8.is_low l1 = true ->
  Utf8.is_high h2 = true -> Utf8.is_low l2 = true ->
  Utf8.pair_cp h1 l1 = Utf8.pair_cp h2 l2 -> h1 = h2 /\ l1 = l2.
Proof.
  unfold Utf8.is_high, Utf8.is_low, Utf8.pair_cp, in_range. intros A B C D E.
  bool_to_prop. lia.
Qed.

(** Two heads written alike are the same head. *)
Lemma head_shape_inj c1 r1 t1 r1' c2 r2 t2 r2' (x y : jstr) :
  head_shape c1 r1 t1 r1' -> head_shape c2 r2 t2 r2' ->
  c1 < 65536 -> c2 < 65536 ->
  t1 ++ x = t2 ++ y ->
  x = y /\ exists u, c1 :: r1 = u ++ r1' /\ c2 :: r2 = u ++ r2'.
Proof.
  intros S1 S2 W1 W2 H.
  destruct S1 as [c1 r1 U1 | c1 r1 U1 Hh1 Hl1 | h1 l1 r1 Hh1 Hl1];
    destruct S2 as [c2 r2 U2 | c2 r2 U2 Hh2 Hl2 | h2 l2 r2 Hh2 Hl2].
  - cbn [app] in H. injection H as -> ->. split; [reflexivity|].
    exists [c2]. split; reflexivity.
  - destruct (escaped_starts_with_percent c2) as [rest E]. rewrite E in H.
    cbn [app] in H. injection H as -> _.
    exfalso. apply (unreserved_not_percent 37 U1). reflexivity.
  - destruct (escaped_starts_with_percent (Utf8.pair_cp h2 l2)) as [rest E].
    rewrite E in H. cbn [app] in H. injection H as -> _.
    exfalso. apply (unreserved_not_percent 37 U1). reflexivity.
  - destruct (escaped_starts_with_percent c1) as [rest E]. rewrite E in H.
    cbn [app] in H. injection H as <- _.
    exfalso. apply (unreserved_not_percent 37 U2). reflexivity.
  - apply escaped_cp_inj in H; [|lia|lia]. destruct H as [-> ->].
    split; [reflexivity|]. exists [c2]. split; reflexivity.
  - pose proof (pair_cp_range h2 l2 Hh2 Hl2) as R.
    apply escaped_cp_inj in H; [|lia|lia]. destruct H as [E _]. exfalso. lia.
  - destruct (escaped_starts_with_percent (Utf8.pair_cp h1 l1)) as [rest E].
    rewrite E in H. cbn [app] in H. injection H as <- _.
    exfalso. apply (unreserved_not_percent 37 U2). reflexivity.
  - pose proof (pair_cp_range h1 l1 Hh1 Hl1) as R.
    apply escaped_cp_inj in H; [|lia|lia]. destruct H as [E _]. exfalso. lia.
  - pose proof (pair_cp_range h1 l1 Hh1 Hl1) as R1.
    pose proof (pair_cp_range h2 l2 Hh2 Hl2) as R2.
    apply escaped_cp_inj in H; [|lia|lia]. destruct H as [E ->].
    apply pair_cp_inj in E; try assumption. destruct E as [-> ->].
    split; [reflexivity|]. exists [h2; l2]. split; reflexivity.
Qed.

Lemma head_shape_rest c r t r' :
  head_shape c r t r' ->
  (List.length r' < List.length (c :: r))%nat
  /\ (code_units (c :: r) -> code_units r')
  /\ t <> [].
Proof.
  intros S. destruct S as [c r U | c r U Hh Hl | h l r Hh Hl].
  - repeat split; [simpl; lia | intros W; inversion W; assumption | discriminate].
  - repeat split; [simpl; lia | intros W; inversion W; assumption |].
    destruct (escaped_starts_with_percent c) as [rest ->]. discriminate.
  - repeat split; [simpl; lia | |].
    + intros W. inversion W as [|? ? _ W']. inversion W'. assumption.
    + destruct (escaped_starts_with_percent (Utf8.pair_cp h l)) as [rest ->].
      discriminate.
Qed.

Lemma rfc3986Encode_inj_bounded (n : nat) : forall s1 s2 o,
    (List.length s1 <= n)%nat ->
    code_units s1 -> code_units s2 ->
    rfc3986Encode s1 = Some o -> rfc3986Encode s2 = Some o -> s1 = s2.
Proof.
  induction n as [|n IH]; intros s1 s2 o Hlen W1 W2 E1 E2.
  - destruct s1; [|simpl in Hlen; lia].
    apply Some_inj in E1. subst o.
    destruct s2 as [|c2 r2]; [reflexivity|].
    rewrite rfc3986Encode_cons in E2.
    destruct (head_token c2 r2) as [[t2 r2']|] eqn:T2; [|discriminate].
    apply head_token_shape in T2. apply head_shape_rest in T2.
    destruct T2 as (_ & _ & Hne).
    destruct (rfc3986Encode r2'); [|discriminate].
    apply Some_inj in E2. destruct t2; [contradiction | discriminate].
  - destruct s1 as [|c1 r1].
    + apply (IH [] s2 o); simpl; auto; lia.
    + destruct s2 as [|c2 r2].
      * symmetry. apply (IH [] (c1 :: r1) o); simpl; auto; lia.
      * rewrite rfc3986Encode_cons in E1, E2.
        destruct (head_token c1 r1) as [[t1 r1']|] eqn:T1; [|discriminate].
        destruct (head_token c2 r2) as [[t2 r2']|] eqn:T2; [|discriminate].
        apply head_token_shape in T1. apply head_token_shape in T2.
        destruct (rfc3986Encode r1') as [e1|] eqn:R1; [|discriminate].
        destruct (rfc3986Encode r2') as [e2|] eqn:R2; [|discriminate].
        apply Some_inj in E1. apply Some_inj in E2. subst o.
        assert (Hc1 : c1 < 65536) by (inversion W1; assumption).
        assert (Hc2 : c2 < 65536) by (inversion W2; assumption).
        destruct (head_shape_inj _ _ _ _ _ _ _ _ e1 e2 T1 T2 Hc1 Hc2 (eq_sym E2))
          as (He & u & U1 & U2).
          subst e2.
          destruct (head_shape_rest _ _ _ _ T1) as (L1 & K1 & _).
          destruct (head_shape_rest _ _ _ _ T2) as (_ & K2 & _).
          rewrite U1, U2. f_equal.
          apply (IH r1' r2' e1); auto. simpl in Hlen, L1. lia.
Qed.

(** [rfc3986Encode] is injective on strings of code units. *)
Lemma rfc3986Encode_inj (s1 s2 o : jstr) :
  code_units s1 -> code_units s2 ->
  rfc3986Encode s1 = Some o -> rfc3986Encode s2 = Some o -> s1 = s2.
Proof.
  apply (rfc3986Encode_inj_bounded (List.length s1)). lia.
Qed.

(** *** The canonical query tells the values apart *)











Lemma eqb_neq (a b : jstr) : a <> b -> Js.eqb a b = false.
Proof.
  intros H. destruct (Js.eqb a b) eqn:E; [|reflexivity].
  apply PackerFacts.eqb_eq in E. contradiction.
Qed.

Lemma get_other (pre post : record) (k k' : jstr) (v1 v2 : option jstr) :
  k' <> k ->
  get (pre ++ (k, v1) :: post) k' = get (pre ++ (k, v2) :: post) k'.
Proof.
  intros Hne. induction pre as [|[a b] pre IH]; cbn [app get].
  - rewrite (eqb_neq k' k Hne). reflexivity.
  - destruct (Js.eqb k' a); [reflexivity | exact IH].
Qed.





(** *** More values than signatures *)

Lemma rfc3986Encode_letters (n : nat) :
  rfc3986Encode (repeat 97 n) = Some (repeat 97 n).
Proof.
  induction n as [|n IH]; [reflexivity|].
  cbn [repeat]. rewrite rfc3986Encode_cons. unfold head_token.
  assert (U : is_unreserved 97 = true) by reflexivity.
  rewrite U, IH. reflexivity.
Qed.

Lemma canonicalQuery_one_param (n : nat) :
  canonicalQuery (one_param n) = Some (lit "a" ++ lit "=" ++ repeat 97 n).
Proof.
  unfold canonicalQuery, one_param, keys, sort.
  cbn [map fst fold_right insert sequence]. unfold query_pair. cbn [get].
  rewrite PackerFacts.eqb_refl. cbn [or_empty].
  assert (A : rfc3986Encode (lit "a") = Some (lit "a")) by reflexivity.
  rewrite A, rfc3986Encode_letters. reflexivity.
Qed.

Lemma signature_one_param date method host path sessionToken secretKey
      region service o (n : nat) :
  exists sig,
    signature date method host path (one_param n) sessionToken secretKey
              region service o = Some sig.
Proof.
  unfold signature, canonicalRequest. cbv beta zeta.
  rewrite canonicalQuery_one_param. eexists. reflexivity.
Qed.

Lemma code_units_letters (n : nat) : code_units (repeat 97 n).
Proof.
  unfold code_units. induction n as [|n IH]; cbn [repeat]; constructor.
  - reflexivity.
  - exact IH.
Qed.

Lemma letters_differ (i j : nat) : i <> j -> repeat 97 i <> repeat 97 j.
Proof.
  intros Hne Heq. apply Hne.
  rewrite <- (repeat_length 97 i), <- (repeat_length 97 j), Heq. reflexivity.
Qed.

(** Collisions there are, though none can be shown: a signature is one
    of the [16^64] strings of 64 hexadecimal digits, the values are
    without number, so two of the values [a], [aa], [aaa], ... of the
    parameter [a] are signed alike. That two values are signed alike
    only by a collision of the hash is all that can be said. *)
Lemma signature_not_injective :
  ~ (forall date method host path sessionToken secretKey region service o
            (pre post : record) (k v1 v2 s1 s2 : jstr),
        ~ In k (keys pre) ->
        code_units v1 -> code_units v2 ->
        v1 <> v2 ->
        signature date method host path (pre ++ (k, Some v1) :: post)
                  sessionToken secretKey region service o = Some s1 ->
        signature date method host path (pre ++ (k, Some v2) :: post)
                  sessionToken secretKey region service o = Some s2 ->
        s1 <> s2).
Proof.
  intros claim.
  set (sign := fun n : nat =>
                 signature 0%Z [] [] [] (one_param n) [] [] [] [] no_opts).
  set (f := fun n : nat => match sign n with Some s => s | None => [] end).
  assert (Hdef : forall n, sign n = Some (f n)).
  { intros n. unfold f.
    destruct (signature_one_param 0%Z [] [] [] [] [] [] [] no_opts n) as (s & Hs).
    fold (sign n) in Hs. rewrite Hs. reflexivity. }
  apply (not_injective_into f (all_hex 64)).
  - intros n. pose proof (Hdef n) as Hs. unfold sign in Hs.
    apply signature_shape in Hs. destruct Hs as [Hl Hx].
    rewrite <- Hl. apply all_hex_complete. exact Hx.
  - intros i j Hij. destruct (Nat.eq_dec i j) as [E|E]; [exact E|]. exfalso.
    apply (claim 0%Z [] [] [] [] [] [] [] no_opts [] [] (lit "a")
                 (repeat 97 i) (repeat 97 j) (f i) (f j)).
    + intros [].
    + apply code_units_letters.
    + apply code_units_letters.
    + apply letters_differ. exact E.
    + exact (Hdef i).
    + exact (Hdef j).
    + exact Hij.
Qed.




End SignerFacts.

(** ** The data handler and the parser *)

Module ChunkFacts.

Import Js Json Exn Transcoder Chunks.

(** *** Nothing is lost, nothing is reordered *)

Lemma handled_conserves (chunks : list (list N)) : forall temp,
    List.concat (fst (handled temp chunks)) ++ snd (handled temp chunks)
    = temp ++ List.concat chunks.
Proof.
  induction chunks as [|b rest IH]; intros temp; cbn [handled].
  - simpl. rewrite app_nil_r. reflexivity.
  - unfold on_data. destruct (Utf8.has_replacement b).
    + rewrite IH. cbn [List.concat]. rewrite app_assoc. reflexivity.
    + destruct temp as [|t0 temp].
      * specialize (IH []). destruct (handled [] rest) as [fed t].
        cbn [fst snd List.concat] in *. rewrite <- app_assoc, IH. reflexivity.
      * specialize (IH []). destruct (handled [] rest) as [fed t].
        cbn [fst snd List.concat] in *. rewrite <- app_assoc, IH.
        cbn [app]. rewrite <- app_assoc. reflexivity.
Qed.

Lemma handled_fed_texts (chunks : list (list N)) : forall temp,
    fed_texts temp chunks = map Utf8.toString (fst (handled temp chunks)).
Proof.
  induction chunks as [|b rest IH]; intros temp; cbn [handled fed_texts].
  - reflexivity.
  - destruct (on_data temp b) as [temp' [bytes|]].
    + rewrite IH. destruct (handled temp' rest) as [fed t]. reflexivity.
    + apply IH.
Qed.

Lemma handled_snoc (chunks : list (list N)) (b : list N) : forall temp,
    handled temp (chunks ++ [b])
    = let '(fed, t) := handled temp chunks in
      match on_data t b with
      | (t', None) => (fed, t')
      | (t', Some bytes) => (fed ++ [bytes], t')
      end.
Proof.
  induction chunks as [|c rest IH]; intros temp; cbn [handled app].
  - destruct (on_data temp b) as [t' [bytes|]]; reflexivity.
  - destruct (on_data temp c) as [temp' [bytes|]].
    + rewrite IH. destruct (handled temp' rest) as [fed t].
      destruct (on_data t b) as [t' [bytes'|]]; reflexivity.
    + rewrite IH. reflexivity.
Qed.

(** Case analysis on the innermost scrutinee of the goal. *)
Ltac split_inner :=
  repeat match goal with
         | |- context [match ?x with _ => _ end] =>
             lazymatch x with
             | context [match _ with _ => _ end] => fail
             | _ => destruct x
             end
         end.

(** The callback of the parser never touches [temp]. *)
Lemma rs_try_temp SP (st : rs_state SP) (data : jstr) :
  rs_temp (fst (rs_try st data)) = rs_temp st.
Proof.
  unfold rs_try. split_inner; reflexivity.
Qed.

Lemma rs_on_event_temp SP (st : rs_state SP) (data : jstr) :
  rs_temp (rs_on_event st data) = rs_temp st.
Proof.
  unfold rs_on_event. destruct (rs_isEnd st); [reflexivity|].
  pose proof (rs_try_temp SP st data) as H.
  destruct (rs_try st data) as [st' [e|]]; exact H.
Qed.

Lemma rs_on_events_temp SP (events : list jstr) : forall st : rs_state SP,
    rs_temp (fold_left (@rs_on_event SP) events st) = rs_temp st.
Proof.
  induction events as [|e events IH]; intros st; simpl; [reflexivity|].
  rewrite IH. apply rs_on_event_temp.
Qed.

Lemma ts_try_temp SP (st : ts_state SP) (data : jstr) :
  ts_temp (fst (ts_try st data)) = ts_temp st.
Proof.
  unfold ts_try. split_inner; reflexivity.
Qed.

Lemma ts_on_event_temp SP (st : ts_state SP) (data : jstr) :
  ts_temp (ts_on_event st data) = ts_temp st.
Proof.
  unfold ts_on_event.
  pose proof (ts_try_temp SP st data) as H.
  destruct (ts_try st data) as [st' [e|]]; exact H.
Qed.

Lemma ts_on_events_temp SP (events : list jstr) : forall st : ts_state SP,
    ts_temp (fold_left (@ts_on_event SP) events st) = ts_temp st.
Proof.
  induction events as [|e events IH]; intros st; simpl; [reflexivity|].
  rewrite IH. apply ts_on_event_temp.
Qed.

Lemma rs_step_temp SP (st : rs_state SP) (ev : event) :
  rs_temp (rs_step st ev)
  = match ev with
    | Data b => fst (on_data (rs_temp st) b)
    | _ => rs_temp st
    end.
Proof.
  destruct ev as [b| | |]; cbn [rs_step].
  - destruct (on_data (rs_temp st) b) as [temp [bytes|]]; cbn [fst].
    + destruct (Sse.feed SP (rs_parser st) (Utf8.toString bytes)) as [p evs].
      rewrite rs_on_events_temp. reflexivity.
    + reflexivity.
  - destruct (rs_error_seen st); reflexivity.
  - destruct (rs_close_seen st); reflexivity.
  - reflexivity.
Qed.

Lemma ts_step_temp SP (st : ts_state SP) (ev : event) :
  ts_temp (ts_step st ev)
  = match ev with
    | Data b => fst (on_data (ts_temp st) b)
    | _ => ts_temp st
    end.
Proof.
  destruct ev as [b| | |]; cbn [ts_step].
  - destruct (on_data (ts_temp st) b) as [temp [bytes|]]; cbn [fst].
    + destruct (Sse.feed SP (ts_parser st) (Utf8.toString bytes)) as [p evs].
      rewrite ts_on_events_temp. reflexivity.
    + reflexivity.
  - destruct (ts_error_seen st); reflexivity.
  - destruct (ts_close_seen st); reflexivity.
  - reflexivity.
Qed.

Lemma handled_temp_step (chunks : list (list N)) : forall temp,
    snd (handled temp chunks)
    = fold_left (fun t b => fst (on_data t b)) chunks temp.
Proof.
  induction chunks as [|b rest IH]; intros temp; cbn [handled fold_left].
  - reflexivity.
  - destruct (on_data temp b) as [temp' [bytes|]]; cbn [fst].
    + rewrite <- IH. destruct (handled temp' rest) as [fed t]. reflexivity.
    + apply IH.
Qed.

Lemma rs_run_temp SP (events : list event) : forall st : rs_state SP,
    rs_temp (fold_left (@rs_step SP) events st)
    = snd (handled (rs_temp st) (data_of events)).
Proof.
  induction events as [|ev events IH]; intros st; [reflexivity|].
  cbn [fold_left]. rewrite IH, rs_step_temp.
  destruct ev as [b| | |]; try reflexivity.
  cbn [data_of flat_map app handled].
  destruct (on_data (rs_temp st) b) as [temp' [bytes|]]; cbn [fst].
  - change (flat_map _ events) with (data_of events).
    destruct (handled temp' (data_of events)); reflexivity.
  - reflexivity.
Qed.

Lemma ts_run_temp SP (events : list event) : forall st : ts_state SP,
    ts_temp (fold_left (@ts_step SP) events st)
    = snd (handled (ts_temp st) (data_of events)).
Proof.
  induction events as [|ev events IH]; intros st; [reflexivity|].
  cbn [fold_left]. rewrite IH, ts_step_temp.
  destruct ev as [b| | |]; try reflexivity.
  cbn [data_of flat_map app handled].
  destruct (on_data (ts_temp st) b) as [temp' [bytes|]]; cbn [fst].
  - change (flat_map _ events) with (data_of events).
    destruct (handled temp' (data_of events)); reflexivity.
  - reflexivity.
Qed.

(** X1. The handler of the data event neither drops nor reorders a
    byte: in both transcoders, whatever the stream, the buffers handed
    to the parser so far, followed by the bytes held back in [temp], are
    the bytes received so far; the texts fed are the decodings of those
    buffers; and right after a chunk that decodes without U+FFFD nothing
    is held back. *)
Theorem X1_handler_conserves_bytes :
  forall SP (events : list event),
    let chunks := data_of events in
    let fed := fst (handled [] chunks) in
    List.concat fed ++ rs_temp (rs_run SP events) = List.concat chunks
    /\ List.concat fed ++ ts_temp (createTransStream SP events)
       = List.concat chunks
    /\ fed_texts [] chunks = map Utf8.toString fed
    /\ (forall before b,
           chunks = before ++ [b] ->
           Utf8.has_replacement b = false ->
           rs_temp (rs_run SP events) = []
           /\ List.concat fed = List.concat chunks).
Proof.
  intros SP events chunks fed.
  assert (Hr : rs_temp (rs_run SP events) = snd (handled [] chunks)).
  { unfold rs_run. rewrite rs_run_temp. reflexivity. }
  assert (Ht : ts_temp (createTransStream SP events) = snd (handled [] chunks)).
  { unfold createTransStream. rewrite ts_run_temp. reflexivity. }
  pose proof (handled_conserves chunks []) as Hc. cbn [app] in Hc.
  split; [rewrite Hr; exact Hc|].
  split; [rewrite Ht; exact Hc|].
  split; [apply handled_fed_texts|].
  intros before b Hb Hclean.
  assert (Hs : snd (handled [] chunks) = []).
  { rewrite Hb, handled_snoc.
    destruct (handled [] before) as [f t]. unfold on_data. rewrite Hclean.
    destruct t; reflexivity. }
  split; [rewrite Hr; exact Hs|].
  fold fed in Hc. rewrite Hs, app_nil_r in Hc. exact Hc.
Qed.

(** The witness of X1: the character cut in two, then the closing
    frame, which decodes cleanly and so takes everything with it. *)
Lemma X1_witness :
  rs_temp (rs_run Sse.reference
             [Data Examples.cjk_head; Data Examples.cjk_tail;
              Data Examples.closed_frame]) = [].
Proof.
  destruct (X1_handler_conserves_bytes Sse.reference
              [Data Examples.cjk_head; Data Examples.cjk_tail;
               Data Examples.closed_frame]) as (_ & _ & _ & H).
  destruct (H [Examples.cjk_head; Examples.cjk_tail] Examples.closed_frame)
    as [Ht _].
  - reflexivity.
  - vm_compute. reflexivity.
  - exact Ht.
Defined.

End ChunkFacts.

(** ** The two transcoders, whatever the stream *)

Module StreamFacts.

Import Js Json Exn Transcoder Chunks.

(** *** Buffered mode after the finishing frame *)

Lemma rs_on_events_ended SP (events : list jstr) : forall st : rs_state SP,
    rs_isEnd st = true -> fold_left (@rs_on_event SP) events st = st.
Proof.
  induction events as [|e events IH]; intros st H; cbn [fold_left].
  - reflexivity.
  - unfold rs_on_event at 2. rewrite H. apply IH. exact H.
Qed.

Lemma rs_step_ended SP (st : rs_state SP) (ev : event) :
  rs_isEnd st = true ->
  rs_isEnd (rs_step st ev) = true /\ rs_data (rs_step st ev) = rs_data st.
Proof.
  intros H. destruct ev as [b| | |]; cbn [rs_step].
  - destruct (on_data (rs_temp st) b) as [temp [bytes|]].
    + destruct (Sse.feed SP (rs_parser st) (Utf8.toString bytes)) as [p evs].
      rewrite rs_on_events_ended; [|exact H]. split; [exact H | reflexivity].
    + split; [exact H | reflexivity].
  - destruct (rs_error_seen st); split; try exact H; reflexivity.
  - destruct (rs_close_seen st); split; try exact H; reflexivity.
  - split; [exact H | reflexivity].
Qed.

Lemma rs_steps_ended SP (events : list event) : forall st : rs_state SP,
    rs_isEnd st = true ->
    rs_data (fold_left (@rs_step SP) events st) = rs_data st.
Proof.
  induction events as [|ev events IH]; intros st H; cbn [fold_left].
  - reflexivity.
  - destruct (rs_step_ended SP st ev H) as [He Hd].
    rewrite (IH _ He). exact Hd.
Qed.

(** X3. Buffered mode keeps its latch. Whatever the stream delivers,
    the callback of the parser calls [resolve] at most once; and once
    the finishing frame was read, nothing that follows changes the
    object that was resolved, neither its [id] nor its [content]. *)
Theorem X3_buffered_mode_finishes_once :
  forall SP (events more : list event),
    List.length (frame_resolves (rs_calls (rs_run SP (events ++ more)))) <= 1
    /\ (rs_isEnd (rs_run SP events) = true ->
        rs_data (rs_run SP (events ++ more)) = rs_data (rs_run SP events)).
Proof.
  intros SP events more. split.
  - apply TranscoderFacts.receiveStream_resolves_once.
  - intros H. unfold rs_run in *. rewrite fold_left_app.
    apply rs_steps_ended. exact H.
Qed.

(** The witness of X3: a delta after the closing frame is not read. *)
Lemma X3_witness :
  buffered_text Sse.reference
    [Data Examples.delta_frame; Data Examples.closed_frame;
     Data Examples.delta_frame; Close]
  = lit "hi".
Proof.
  destruct (X3_buffered_mode_finishes_once Sse.reference
              [Data Examples.delta_frame; Data Examples.closed_frame]
              [Data Examples.delta_frame; Close]) as [_ H].
  unfold buffered_text. cbn [app] in H. rewrite H.
  - vm_compute. reflexivity.
  - vm_compute. reflexivity.
Defined.

(** *** Live mode: the shape of what is written *)

Lemma shaped_write_delta (s : passthrough) id t :
  shaped s -> shaped (pt_write (Chunk id t None) s).
Proof.
  intros (deltas & tail & Hw & Hd & He & Ht). unfold pt_write.
  destruct (ended s) eqn:E; cbn [orb].
  - exists deltas, tail. cbn [written ended]. auto.
  - destruct Ht as [-> | Ht]; [|congruence].
    destruct (closed s).
    + exists deltas, []. cbn [written ended]. auto.
    + exists (deltas ++ [Chunk id t None]), []. cbn [written ended].
      rewrite Hw, !app_nil_r, forallb_app, Hd. auto.
Qed.

Lemma shaped_end (s : passthrough) (f : frame) :
  is_ending [f] = true -> shaped s -> shaped (pt_end_unless_closed f s).
Proof.
  intros Hf (deltas & tail & Hw & Hd & He & Ht).
  unfold pt_end_unless_closed, pt_end.
  destruct (closed s) eqn:C; [exists deltas, tail; auto|].
  destruct (ended s) eqn:E; cbn [orb].
  - exists deltas, tail. cbn [written ended]. auto.
  - destruct Ht as [-> | Ht]; [|congruence].
    exists deltas, [f]. cbn [written ended]. rewrite Hw, app_nil_r.
    cbn [app]. auto.
Qed.

Lemma shaped_finish (s : passthrough) id :
  shaped s ->
  shaped (pt_end_unless_closed DoneMarker (pt_write (Chunk id [] stop) s)).
Proof.
  intros (deltas & tail & Hw & Hd & He & Ht).
  unfold pt_end_unless_closed, pt_end, pt_write.
  destruct (closed s) eqn:C; destruct (ended s) eqn:E;
    cbn [orb closed ended written]; rewrite ?C, ?E; cbn [orb closed ended written].
  - exists deltas, tail. auto.
  - exists deltas, tail. auto.
  - exists deltas, tail. auto.
  - destruct Ht as [-> | Ht]; [|congruence].
    exists deltas, [Chunk id [] stop; DoneMarker].
    rewrite Hw, app_nil_r. cbn [app]. rewrite <- app_assoc. cbn [app]. auto.
Qed.

Lemma shaped_close (s : passthrough) : shaped s -> shaped (pt_close s).
Proof.
  intros (deltas & tail & Hw & Hd & He & Ht). exists deltas, tail. auto.
Qed.

Lemma shaped_try SP (st : ts_state SP) (data : jstr) :
  shaped (ts_stream st) -> shaped (ts_stream (fst (ts_try st data))).
Proof.
  intros H. unfold ts_try, ts_finish, ts_with.
  cbn [ts_stream ts_convId ts_endCallback].
  ChunkFacts.split_inner; cbn [fst ts_stream];
    first [ exact H | apply shaped_finish; exact H
          | apply shaped_write_delta; exact H ].
Qed.

Lemma shaped_on_event SP (st : ts_state SP) (data : jstr) :
  shaped (ts_stream st) -> shaped (ts_stream (ts_on_event st data)).
Proof.
  intros H. unfold ts_on_event.
  pose proof (shaped_try SP st data H) as Ht.
  destruct (ts_try st data) as [st' [e|]]; cbn [fst] in Ht.
  - cbn [ts_with ts_stream]. apply shaped_end; [reflexivity | exact Ht].
  - exact Ht.
Qed.

Lemma shaped_on_events SP (events : list jstr) : forall st : ts_state SP,
    shaped (ts_stream st) ->
    shaped (ts_stream (fold_left (@ts_on_event SP) events st)).
Proof.
  induction events as [|e events IH]; intros st H; cbn [fold_left].
  - exact H.
  - apply IH. apply shaped_on_event. exact H.
Qed.

Lemma shaped_step SP (st : ts_state SP) (ev : event) :
  shaped (ts_stream st) -> shaped (ts_stream (ts_step st ev)).
Proof.
  intros H. destruct ev as [b| | |]; cbn [ts_step].
  - destruct (on_data (ts_temp st) b) as [temp [bytes|]].
    + destruct (Sse.feed SP (ts_parser st) (Utf8.toString bytes)) as [p evs].
      apply shaped_on_events. exact H.
    + exact H.
  - destruct (ts_error_seen st); [exact H|].
    cbn [ts_stream]. apply shaped_end; [reflexivity | exact H].
  - destruct (ts_close_seen st); [exact H|].
    cbn [ts_stream]. apply shaped_end; [reflexivity | exact H].
  - cbn [ts_with ts_stream]. apply shaped_close. exact H.
Qed.

(** *** One ending *)








(** X4. Live mode: whatever the upstream stream delivers, and whenever
    the caller closes its end, what the stream handed to the caller
    holds is the opening chunk, then chunks that carry deltas, then at
    most one ending: the final chunk with the end marker, the end
    marker alone, or the empty lines of a failure. Nothing follows an
    ending, and an ending is there only once [end] was called. *)
Theorem X4_live_stream_is_well_formed :
  forall SP (events : list event),
    shaped (ts_stream (createTransStream SP events)).
Proof.
  intros SP events. unfold createTransStream.
  assert (H : shaped (ts_stream (ts_init SP))).
  { exists [], []. cbn. auto. }
  revert H. generalize (ts_init SP).
  induction events as [|ev events IH]; intros st H; cbn [fold_left].
  - exact H.
  - apply IH. apply shaped_step. exact H.
Qed.

End StreamFacts.

(** ** The streaming orchestrator under retries *)

Module StreamRetryFacts.

Import Js Exn Data Env Orchestrator OrchestratorFacts.

Lemma removals_quiet (ids : list (option Json.value)) :
  sleeps (flat_map removeConversation ids) = []
  /\ attempts (flat_map removeConversation ids) = [].
Proof.
  induction ids as [|c ids [IHs IHa]]; [split; reflexivity|].
  cbn [flat_map]. rewrite sleeps_app, attempts_app, IHs, IHa.
  destruct (removeConversation_quiet c) as (Hs & Ha & _).
  rewrite Hs, Ha. split; reflexivity.
Qed.

Section WithEnv.

Variable SP : Sse.parser.
Variable P : platform.
Variable worlds : nat -> world.

Lemma stream_body_log messages refConvId rc o messages' refConvId' log :
  stream_body SP P worlds messages refConvId rc
    = (o, messages', refConvId', log) ->
  sleeps log = [] /\ attempts log = [rc] /\ o <> Hangs.
Proof.
  unfold stream_body.
  destruct (open_stream P worlds messages refConvId rc)
    as [[[r ms] ref] l] eqn:E.
  apply open_stream_log in E. destruct E as [Es Ea].
  destruct r as [response|e].
  - destruct (is_event_stream response) as [[|]|e].
    + destruct (removals_quiet
                  (Transcoder.ts_endCallback
                     (Transcoder.createTransStream SP (stream response))))
        as [Hs Ha].
      revert Hs Ha.
      generalize (flat_map removeConversation
                    (Transcoder.ts_endCallback
                       (Transcoder.createTransStream SP (stream response)))).
      intros rm Hs Ha [= <- <- <- <-].
      rewrite sleeps_app, attempts_app, Es, Ea, Hs, Ha.
      repeat split; auto. discriminate.
    + intros [= <- <- <- <-]. repeat split; auto. discriminate.
    + intros [= <- <- <- <-]. repeat split; auto. discriminate.
  - intros [= <- <- <- <-]. repeat split; auto. discriminate.
Qed.

Lemma stream_loop_shape budget :
  forall messages refConvId rc,
    let r := stream_loop SP P worlds budget messages refConvId rc in
    (exists k,
        k <= budget
        /\ sleeps (actions r) = repeat RETRY_DELAY k
        /\ attempts (actions r) = seq rc (S k)
        /\ (forall e, result_of r = Raised e -> k = budget))
    /\ result_of r <> Hangs.
Proof.
  induction budget as [|b IH]; intros messages refConvId rc; cbn [stream_loop].
  - destruct (stream_body SP P worlds messages refConvId rc)
      as [[[o ms] ref] log] eqn:E.
    apply stream_body_log in E. destruct E as (Es & Ea & Hh).
    split.
    + exists 0. destruct o; cbn [actions result_of repeat seq]; auto.
    + destruct o; cbn [result_of]; auto; discriminate.
  - destruct (stream_body SP P worlds messages refConvId rc)
      as [[[o ms] ref] log] eqn:E.
    apply stream_body_log in E. destruct E as (Es & Ea & Hh).
    destruct o as [a|e|].
    + split; [|discriminate].
      exists 0. cbn [actions result_of repeat seq].
      repeat split; auto; try lia. discriminate.
    + destruct (IH ms ref (S rc)) as ((k & Hk & Hs & Ha & Hr) & Hn).
      split; [|exact Hn].
      exists (S k). cbn [actions result_of].
      rewrite sleeps_app, attempts_app, Es, Ea. cbn [app sleeps attempts flat_map].
      fold (sleeps (actions (stream_loop SP P worlds b ms ref (S rc)))).
      fold (attempts (actions (stream_loop SP P worlds b ms ref (S rc)))).
      rewrite Hs, Ha. repeat split; auto; try lia.
      intros e' He'. f_equal. eauto.
    + congruence.
Qed.

End WithEnv.

(** X5. The streaming orchestrator retries as the buffered one does: a
    call from [retryCount = 0] makes attempts 0 to k with k back-offs of
    5000 ms between them, k is at most 3, and k is 3 whenever the call
    ends in a failure. It never leaves its caller waiting: it answers
    with a stream or with a failure. *)
Theorem X5_streaming_retry_bound :
  forall SP P worlds messages refConvId,
    let r := createCompletionStream SP P worlds messages refConvId 0 in
    (exists k,
        k <= 3
        /\ sleeps (actions r) = repeat 5000%N k
        /\ attempts (actions r) = seq 0 (S k)
        /\ (forall e, result_of r = Raised e -> k = 3))
    /\ result_of r <> Hangs.
Proof.
  intros SP P worlds messages refConvId.
  apply (stream_loop_shape SP P worlds 3 messages refConvId 0).
Qed.

(** The witness of X5: every probe of the image is answered by 404. *)
Lemma X5_witness :
  let r := createCompletionStream Sse.reference Examples.platform0
             (fun _ => Examples.world_404) Examples.with_image [] 0 in
  result_of r = Raised API_FILE_URL_INVALID
  /\ sleeps (actions r) = [5000; 5000; 5000]%N
  /\ attempts (actions r) = [0; 1; 2; 3].
Proof.
  intros r.
  assert (E : result_of r = Raised API_FILE_URL_INVALID) by (vm_compute; reflexivity).
  destruct (X5_streaming_retry_bound Sse.reference Examples.platform0
              (fun _ => Examples.world_404) Examples.with_image [])
    as [(k & Hk & Hs & Ha & Hr) _].
  fold r in Hs, Ha, Hr.
  rewrite (Hr _ E) in Hs, Ha.
  split; [exact E | split; [exact Hs | exact Ha]].
Defined.

End StreamRetryFacts.

(** ** The size of an image *)

Module SniffFacts.

Import Js Exn Data Env Upload.

Lemma nth_byte (buf : list N) (i : nat) :
  Forall (fun b => (b < 256)%N) buf -> (nth i buf 0 < 256)%N.
Proof.
  intros H. revert i. induction H as [|b buf Hb _ IH]; intros [|i]; cbn [nth];
    try lia; auto.
Qed.

Lemma u16be_bound (buf : list N) (i : nat) :
  Forall (fun b => (b < 256)%N) buf -> (u16be buf i < 65536)%N.
Proof.
  intros H. unfold u16be.
  pose proof (nth_byte buf i H). pose proof (nth_byte buf (S i) H). lia.
Qed.

Lemma u32be_bound (buf : list N) (i : nat) :
  Forall (fun b => (b < 256)%N) buf -> (u32be buf i < 4294967296)%N.
Proof.
  intros H. unfold u32be.
  pose proof (u16be_bound buf i H). pose proof (u16be_bound buf (2 + i) H). lia.
Qed.

Lemma u24le_bound (buf : list N) (i : nat) :
  Forall (fun b => (b < 256)%N) buf -> (u24le buf i < 16777216)%N.
Proof.
  intros H. unfold u24le.
  pose proof (nth_byte buf i H). pose proof (nth_byte buf (1 + i) H).
  pose proof (nth_byte buf (2 + i) H). lia.
Qed.

Lemma jpeg_scan_found (fuel : nat) (buf : list N) : forall i w h,
    jpeg_scan fuel buf i = Some (w, h) ->
    (0 < w)%N /\ (0 < h)%N
    /\ (Forall (fun b => (b < 256)%N) buf -> (w < 65536)%N /\ (h < 65536)%N).
Proof.
  induction fuel as [|fuel IH]; intros i w h; cbn [jpeg_scan]; [discriminate|].
  destruct (Nat.ltb (i + 9) (List.length buf)); [|discriminate].
  destruct (negb (N.eqb (nth i buf 0%N) 255)); [apply IH|].
  destruct (is_sof (nth (S i) buf 0%N)); [|apply IH].
  destruct (N.ltb 0 (u16be buf (i + 7))) eqn:Ew; [|discriminate].
  destruct (N.ltb 0 (u16be buf (i + 5))) eqn:Eh; [|discriminate].
  cbn [andb]. intros [= <- <-].
  apply N.ltb_lt in Ew. apply N.ltb_lt in Eh.
  repeat split; auto; apply u16be_bound; assumption.
Qed.

Lemma webp_scan_found (fuel : nat) (buf : list N) : forall p w h,
    webp_scan fuel buf p = Some (w, h) ->
    (0 < w)%N /\ (0 < h)%N
    /\ (Forall (fun b => (b < 256)%N) buf ->
        (w <= 16777216)%N /\ (h <= 16777216)%N).
Proof.
  induction fuel as [|fuel IH]; intros p w h; cbn [webp_scan]; [discriminate|].
  destruct (Nat.leb (p + 8) (List.length buf)); [|discriminate].
  destruct (Js.eqb (ascii (firstn 4 (skipn p buf))) (lit "VP8X")
            && Nat.leb (p + 18) (List.length buf)); [|apply IH].
  intros [= <- <-].
  split; [lia|]. split; [lia|]. intros H.
  pose proof (u24le_bound buf (p + 12) H).
  pose proof (u24le_bound buf (p + 15) H). lia.
Qed.

Lemma first_some {A} (a b : option A) (r : A) :
  match a with Some x => Some x | None => b end = Some r ->
  a = Some r \/ b = Some r.
Proof. destruct a; auto. Qed.

Lemma guarded {A} (c : bool) (a : option A) (r : A) :
  (if c then a else None) = Some r -> c = true /\ a = Some r.
Proof. destruct c; [auto | discriminate]. Qed.

(** Where an answer of [sniffImageSize] comes from. *)
Lemma sniff_sources (buf : list N) (mimeType : jstr) (w h : N) :
  sniffImageSize buf mimeType = Some (w, h) ->
  16 <= List.length buf
  /\ ((w = u32be buf 16 /\ h = u32be buf 20 /\ (0 < w)%N /\ (0 < h)%N)
      \/ jpeg_scan (List.length buf) buf 2 = Some (w, h)
      \/ webp_scan (List.length buf) buf 12 = Some (w, h)).
Proof.
  unfold sniffImageSize.
  destruct (Nat.ltb (List.length buf) 16) eqn:El; [discriminate|].
  apply Nat.ltb_ge in El. intros H. split; [exact El|].
  cbv zeta in H. apply first_some in H. destruct H as [H|H].
  - left. apply guarded in H. destruct H as [_ H].
    apply guarded in H. destruct H as [Hc H]. injection H as <- <-.
    apply andb_true_iff in Hc. destruct Hc as [Hc Hh].
    apply andb_true_iff in Hc. destruct Hc as [_ Hw].
    apply N.ltb_lt in Hw. apply N.ltb_lt in Hh. auto.
  - right. apply first_some in H. destruct H as [H|H].
    + left. apply guarded in H. apply H.
    + right. apply guarded in H. apply H.
Qed.

(** X6. [sniffImageSize] answers nothing for a buffer of fewer than 16
    bytes, and when it answers, for whatever bytes and whatever MIME
    type, neither dimension is zero; read from bytes, both are below
    [2^32]. *)
Theorem X6_sniffed_sizes_are_positive :
  forall (buf : list N) (mimeType : jstr) (w h : N),
    sniffImageSize buf mimeType = Some (w, h) ->
    16 <= List.length buf
    /\ (0 < w)%N /\ (0 < h)%N
    /\ (Forall (fun b => (b < 256)%N) buf ->
        (w < 4294967296)%N /\ (h < 4294967296)%N).
Proof.
  intros buf mimeType w h H.
  destruct (sniff_sources buf mimeType w h H) as [Hl [Hpng | [Hj | Hw]]].
  - destruct Hpng as (-> & -> & Hw & Hh).
    repeat split; auto; apply u32be_bound; assumption.
  - destruct (jpeg_scan_found _ _ _ _ _ Hj) as (Hw & Hh & Hb).
    repeat split; auto; destruct (Hb H0); lia.
  - destruct (webp_scan_found _ _ _ _ _ Hw) as (Hw' & Hh & Hb).
    repeat split; auto; destruct (Hb H0); lia.
Qed.

(** The witness of X6: the first 24 bytes of a PNG file of 640 by 480. *)
Lemma X6_witness :
  sniffImageSize
    [137; 80; 78; 71; 13; 10; 26; 10; 0; 0; 0; 13; 73; 72; 68; 82;
     0; 0; 2; 128; 0; 0; 1; 224]%N (lit "image/png")
  = Some (640, 480)%N.
Proof.
  assert (E : sniffImageSize
                [137; 80; 78; 71; 13; 10; 26; 10; 0; 0; 0; 13; 73; 72; 68; 82;
                 0; 0; 2; 128; 0; 0; 1; 224]%N (lit "image/png")
              = Some (640, 480)%N) by (vm_compute; reflexivity).
  destruct (X6_sniffed_sizes_are_positive _ _ _ _ E) as (_ & _ & _ & _).
  exact E.
Defined.

End SniffFacts.

(** ** What [uploadFile] hands to the packer *)

Module AssetFacts.

Import Js Exn Data Env Upload Packer PackerSpec.

Section WithEnv.

Variable P : platform.
Variable W : world.

(** A reference that was staged: an image carries two dimensions that
    are not zero, another file carries none. *)
Lemma stage_shape (a : asset) (r : ref) :
  stage P W a = Ok r ->
  name r = filename a /\ ext r = asset_ext a
  /\ ((isImage a = true /\ kind r = lit "image"
       /\ exists w h, width r = Some w /\ height r = Some h
                      /\ (0 < w)%N /\ (0 < h)%N)
      \/ (isImage a = false /\ kind r = lit "file"
          /\ width r = None /\ height r = None)).
Proof.
  unfold stage.
  destruct (acquireUploadAuth W _) as [[[serviceId uploadHost] t]|e]; [|discriminate].
  destruct (applyImageUpload W serviceId uploadHost t _ _)
    as [[[[storeUri auth] tosHost] sk]|e]; [|discriminate].
  destruct (uploadToTos P W tosHost storeUri auth _ _) as [u|e]; [|discriminate].
  intros [= <-]. cbn [name ext kind width height].
  split; [reflexivity|]. split; [reflexivity|].
  destruct (isImage a); [left | right; auto].
  repeat split.
  destruct (sniffImageSize (fileData a) (mimeType a)) as [[w h]|]; cbn [fst snd].
  - eexists. eexists. split; [reflexivity|]. split; [reflexivity|].
    split.
    + destruct (N.eqb_spec w 0); lia.
    + destruct (N.eqb_spec h 0); lia.
  - exists 1%N, 1%N. repeat split; lia.
Qed.

End WithEnv.

(** X7. [uploadFile] fails only where it stands outside its [try]: on
    the check of the URL or on the download. Once both passed, whatever
    the staging does, it answers: [null] only for an image whose staging
    failed; for an image that was staged, a reference of kind [image]
    with a width and a height that are not zero; for another file, a
    reference of kind [file] without dimensions, the placeholder
    [upload-failed://placeholder] standing for its key when the staging
    failed. *)
Theorem X7_uploadFile_outcomes :
  forall P W (url : jstr),
    (forall e,
        uploadFile P W url = Throw e ->
        checkFileUrl P W url = Throw e
        \/ (checkFileUrl P W url = Ok tt /\ materialize P W url = Throw e))
    /\ (uploadFile P W url = Ok None ->
        exists a e,
          materialize P W url = Ok a /\ isImage a = true
          /\ stage P W a = Throw e)
    /\ (forall r,
           uploadFile P W url = Ok (Some r) ->
           exists a,
             materialize P W url = Ok a
             /\ name r = filename a
             /\ ((isImage a = true /\ kind r = lit "image"
                  /\ stage P W a = Ok r
                  /\ exists w h, width r = Some w /\ height r = Some h
                                 /\ (0 < w)%N /\ (0 < h)%N)
                 \/ (isImage a = false /\ kind r = lit "file"
                     /\ width r = None /\ height r = None
                     /\ (stage P W a = Ok r
                         \/ file_url_url r = lit "upload-failed://placeholder")))).
Proof.
  intros P W url. unfold uploadFile.
  destruct (checkFileUrl P W url) as [[]|ec] eqn:Ec.
  - destruct (materialize P W url) as [a|em] eqn:Em.
    + destruct (stage P W a) as [r|es] eqn:Es.
      * split; [discriminate|]. split; [discriminate|].
        intros r' [= <-]. exists a. split; [reflexivity|].
        destruct (stage_shape P W a r Es) as (Hn & _ & [Hi | Hf]).
        -- split; [exact Hn|]. left. destruct Hi as (Hi & Hk & Hd). auto.
        -- split; [exact Hn|]. right. destruct Hf as (Hi & Hk & Hw & Hh). auto 6.
      * destruct (isImage a) eqn:Ei.
        -- split; [discriminate|]. split; [eauto|]. discriminate.
        -- split; [discriminate|]. split; [discriminate|].
           intros r [= <-]. exists a. split; [reflexivity|].
           split; [reflexivity|]. right. cbn. auto 6.
    + split; [intros e [= <-]; auto|]. split; discriminate.
  - split; [intros e [= <-]; auto|]. split; discriminate.
Qed.

(** The witness of X7: the binary transfer of an image is refused. *)
Lemma X7_witness :
  uploadFile Examples.platform0 Examples.world_tos_refused
             (lit "http://img.example/a.png")
  = Ok None.
Proof.
  assert (E : uploadFile Examples.platform0 Examples.world_tos_refused
                         (lit "http://img.example/a.png") = Ok None)
    by (vm_compute; reflexivity).
  destruct (X7_uploadFile_outcomes Examples.platform0 Examples.world_tos_refused
              (lit "http://img.example/a.png")) as (_ & H & _).
  destruct (H E) as (a & e & _). exact E.
Defined.

Lemma safeRefs_In (refs : list (option ref)) (r : ref) :
  In r (safeRefs refs) <-> In (Some r) refs.
Proof.
  unfold safeRefs. rewrite in_flat_map. split.
  - intros ([x|] & Hin & Hx); [|contradiction].
    destruct Hx as [<-|[]]. exact Hin.
  - intros H. exists (Some r). split; [exact H | left; reflexivity].
Qed.

Lemma safeRefs_length (refs : list (option ref)) :
  List.length (safeRefs refs) <= List.length refs.
Proof.
  unfold safeRefs. induction refs as [|[x|] refs IH]; cbn [flat_map app List.length]; lia.
Qed.

Lemma imageRefs_In (refs : list (option ref)) (r : ref) :
  In r (imageRefs refs) <-> In (Some r) refs /\ staged_image r.
Proof.
  unfold imageRefs, rawImageRefs, staged_image.
  rewrite !filter_In, safeRefs_In. tauto.
Qed.

Lemma filter_length_le {A} (f : A -> bool) (l : list A) :
  List.length (filter f l) <= List.length l.
Proof.
  induction l as [|x l IH]; cbn [filter List.length]; [lia|].
  destruct (f x); cbn [List.length]; lia.
Qed.

Lemma or_one_positive (d : option N) : (0 < or_one d)%N.
Proof.
  unfold or_one. destruct d as [n|]; [|lia]. destruct (N.eqb_spec n 0); lia.
Qed.

Lemma attachments_of_pack isB ms refs isRefConv :
  attachments (fst (messagesPrepare isB ms refs isRefConv))
  = map attachment_of (imageRefs refs)
  /\ content_type (fst (messagesPrepare isB ms refs isRefConv)) = 2001%N.
Proof.
  unfold messagesPrepare.
  destruct (isRefConv || Nat.ltb (List.length ms) 2); [split; reflexivity|].
  destruct (last (map Some ms) None) as [m|];
    [destruct (hasFileOrImage m)|]; split; reflexivity.
Qed.

(** X8. What the packer attaches. Whatever the messages, every
    attachment of the payload is a [vlm_image] made from a reference
    that is not [null], has a dimension and has a key of the store (one
    that starts with [tos-cn-i-]); its key is that key, its width and
    height are not zero; there are no more attachments than references;
    and references without dimensions, as those of files other than
    images are, give no attachment at all. *)
Theorem X8_attachments_are_staged_images :
  forall isB ms refs isRefConv,
    let p := fst (messagesPrepare isB ms refs isRefConv) in
    content_type p = 2001%N
    /\ List.length (attachments p) <= List.length refs
    /\ (forall a,
           In a (attachments p) ->
           a_type a = lit "vlm_image"
           /\ startsWith (lit "tos-cn-i-") (a_key a) = true
           /\ (0 < a_width a)%N /\ (0 < a_height a)%N
           /\ exists r, In (Some r) refs /\ staged_image r
                        /\ a_key a = file_url_url r)
    /\ ((forall r, In (Some r) refs -> width r = None /\ height r = None) ->
        attachments p = []).
Proof.
  intros isB ms refs isRefConv p.
  destruct (attachments_of_pack isB ms refs isRefConv) as [Ha Hc].
  fold p in Ha, Hc. rewrite Ha. split; [exact Hc|]. split; [|split].
  - rewrite length_map. unfold imageRefs, rawImageRefs.
    pose proof (filter_length_le
                  (fun r => startsWith (lit "tos-cn-i-") (file_url_url r))
                  (filter has_dims (safeRefs refs))).
    pose proof (filter_length_le has_dims (safeRefs refs)).
    pose proof (safeRefs_length refs). lia.
  - intros a Hin. apply in_map_iff in Hin. destruct Hin as (r & <- & Hr).
    apply imageRefs_In in Hr. destruct Hr as [Hin Hst].
    cbn [attachment_of a_type a_key a_width a_height].
    split; [reflexivity|]. split; [apply Hst|].
    split; [apply or_one_positive|]. split; [apply or_one_positive|].
    exists r. auto.
  - intros Hnone.
    destruct (imageRefs refs) as [|r rs] eqn:E; [reflexivity|].
    assert (Hr : In r (imageRefs refs)) by (rewrite E; left; reflexivity).
    apply imageRefs_In in Hr. destruct Hr as [Hin [Hd _]].
    destruct (Hnone r Hin) as [Hw Hh].
    unfold has_dims in Hd. rewrite Hw, Hh in Hd. discriminate.
Qed.

(** The witness of X8: one staged image among the references. *)
Lemma X8_witness :
  map a_key
      (attachments (fst (messagesPrepare (fun _ => false) Examples.with_image
                           [None; Some Examples.staged_ref] false)))
  = [lit "tos-cn-i-a9rns2rl98/abc.png"].
Proof.
  destruct (X8_attachments_are_staged_images (fun _ => false) Examples.with_image
              [None; Some Examples.staged_ref] false) as (_ & _ & H & _).
  destruct (H (attachment_of Examples.staged_ref)) as (_ & _ & _ & _ & r & _).
  - vm_compute. left. reflexivity.
  - vm_compute. reflexivity.
Defined.

End AssetFacts.

(** ** The assets of a request *)

Module ExtractFacts.

Import Js Exn Data Env Upload.

Section WithPlatform.

Variable P : platform.

(** What a candidate is normalised to. *)
Lemma normalizeCandidate_shape (s u : jstr) :
  normalizeCandidate P s = Some u ->
  u <> []
  /\ ((u = s /\ isBASE64Data P s = true)
      \/ (u = s /\ isURL P s = true)
      \/ (exists mime,
             u = lit "data:" ++ mime ++ lit ";base64," ++ s
             /\ isBASE64 P s = true /\ 500 < List.length s
             /\ In mime [lit "image/png"; lit "image/jpeg"; lit "image/gif";
                         lit "image/webp"; lit "application/octet-stream"])).
Proof.
  unfold normalizeCandidate. destruct s as [|c s]; [discriminate|].
  destruct (isBASE64Data P (c :: s)) eqn:Ed.
  - intros [= <-]. split; [discriminate | auto].
  - cbv zeta.
    destruct (isBASE64 P (c :: s)) eqn:Eb; cbn [andb].
    + destruct (Nat.ltb 500 (List.length (c :: s))) eqn:El.
      * apply Nat.ltb_lt in El.
        destruct (Nat.ltb 4 (List.length (base64_decode P (c :: s)))).
        -- intros [= <-]. split; [discriminate|]. right. right.
           eexists. split; [reflexivity|]. split; [reflexivity|].
           split; [exact El|].
           repeat match goal with
                  | |- context [if ?b then _ else _] => destruct b
                  end; cbn; auto 6.
        -- destruct (isURL P (c :: s)) eqn:Eu; [|discriminate].
           intros [= <-]. split; [discriminate | auto].
      * destruct (isURL P (c :: s)) eqn:Eu; [|discriminate].
        intros [= <-]. split; [discriminate | auto].
    + destruct (isURL P (c :: s)) eqn:Eu; [|discriminate].
      intros [= <-]. split; [discriminate | auto].
Qed.

Lemma opt_list_length {A} (o : option A) : List.length (opt_list o) <= 1.
Proof. destruct o; cbn; lia. Qed.

Lemma part_urls_length (v : part) : List.length (part_urls P v) <= 1.
Proof.
  unfold part_urls. destruct v as [s|o]; [apply opt_list_length|].
  ChunkFacts.split_inner; try apply opt_list_length; cbn; lia.
Qed.

(** The candidate a part offers, when it offers one. *)
Lemma part_urls_source (v : part) (u : jstr) :
  In u (part_urls P v) -> exists s, normalizeCandidate P s = Some u.
Proof.
  assert (H : forall s, In u (opt_list (normalizeCandidate P s)) ->
                        exists s, normalizeCandidate P s = Some u).
  { intros s Hin. exists s. destruct (normalizeCandidate P s) as [x|]; [|contradiction].
    destruct Hin as [<-|[]]. reflexivity. }
  unfold part_urls. destruct v as [s|o]; [apply H|].
  ChunkFacts.split_inner; try apply H; intros [].
Qed.

Lemma flat_map_length_le {A B} (f : A -> list B) (l : list A) :
  (forall x, List.length (f x) <= 1) ->
  List.length (flat_map f l) <= List.length l.
Proof.
  intros Hf. induction l as [|x l IH]; cbn [flat_map List.length]; [lia|].
  rewrite length_app. specialize (Hf x). lia.
Qed.

End WithPlatform.

(** X9. Only the last message of a request offers assets, and only when
    its content is an array of parts: each part offers at most one, and
    what is handed to [uploadFile] is never empty and is a data URI the
    platform recognises, a URL it recognises, or a bare base64 text of
    more than 500 characters given a [data:] header with one of five
    MIME types. *)
Theorem X9_assets_come_from_the_last_message :
  forall P (pre : list message) (m : message),
    extractRefFileUrls P [] = []
    /\ extractRefFileUrls P (pre ++ [m]) = extractRefFileUrls P [m]
    /\ (forall s, content_of m = CText s -> extractRefFileUrls P (pre ++ [m]) = [])
    /\ (forall l, content_of m = CParts l ->
                  List.length (extractRefFileUrls P (pre ++ [m])) <= List.length l)
    /\ (forall u,
           In u (extractRefFileUrls P (pre ++ [m])) ->
           u <> []
           /\ (isBASE64Data P u = true \/ isURL P u = true
               \/ exists mime raw,
                   u = lit "data:" ++ mime ++ lit ";base64," ++ raw
                   /\ isBASE64 P raw = true /\ 500 < List.length raw
                   /\ In mime [lit "image/png"; lit "image/jpeg"; lit "image/gif";
                               lit "image/webp";
                               lit "application/octet-stream"])).
Proof.
  intros P pre m.
  assert (Hlast : extractRefFileUrls P (pre ++ [m])
                  = match content_of m with
                    | CParts l => flat_map (part_urls P) l
                    | CText _ => []
                    end).
  { unfold extractRefFileUrls. rewrite PackerFacts.last_map_Some. reflexivity. }
  split; [reflexivity|]. split; [rewrite Hlast; reflexivity|].
  split; [intros s Hs; rewrite Hlast, Hs; reflexivity|]. split.
  - intros l Hl. rewrite Hlast, Hl.
    apply flat_map_length_le. apply part_urls_length.
  - intros u Hin. rewrite Hlast in Hin.
    destruct (content_of m) as [s|l]; [contradiction|].
    apply in_flat_map in Hin. destruct Hin as (v & _ & Hv).
    destruct (part_urls_source P v u Hv) as [s Hs].
    destruct (normalizeCandidate_shape P s u Hs) as [Hne [[-> Hd] | [[-> Hu] | Hb]]].
    + auto.
    + auto.
    + destruct Hb as (mime & -> & Hb & Hl & Hm).
      split; [exact Hne|]. right. right. exists mime, s. auto.
Qed.

(** The witness of X9: the image part of the last of two messages. *)
Lemma X9_witness :
  extractRefFileUrls Examples.platform0 Examples.with_image
  = [lit "http://img.example/a.png"].
Proof.
  destruct (X9_assets_come_from_the_last_message Examples.platform0
              [{| role := lit "user"; content_of := CText (lit "earlier question") |}]
              {| role := lit "user";
                 content_of := CParts [text_part (lit "what is this?");
                                       image_part (lit "http://img.example/a.png")] |})
    as (_ & _ & _ & _ & H).
  destruct (H (lit "http://img.example/a.png")) as [_ _].
  - vm_compute. left. reflexivity.
  - vm_compute. reflexivity.
Defined.

End ExtractFacts.

(** ** The packer and the caller's array *)

Module FrameFacts.

Import Js Data Packer PackerSpec PackerFacts.

Lemma snoc_cases {A} (l : list A) : l = [] \/ exists pre x, l = pre ++ [x].
Proof.
  destruct l as [|a l]; [left; reflexivity|]. right.
  destruct (exists_last (l := a :: l)) as (pre & x & H); [discriminate|].
  exists pre, x. exact H.
Qed.

(** The array the packer leaves, case by case. *)
Lemma messages_left isB (ms : list message) refs (isRefConv : bool) :
  snd (messagesPrepare isB ms refs isRefConv)
  = if isRefConv || Nat.ltb (List.length ms) 2 then ms
    else match last (map Some ms) None with
         | Some m => if hasFileOrImage m then splice_before_last ms newFileMessage
                     else ms
         | None => ms
         end.
Proof.
  unfold messagesPrepare.
  destruct (isRefConv || Nat.ltb (List.length ms) 2); [reflexivity|].
  destruct (last (map Some ms) None) as [m|];
    [destruct (hasFileOrImage m)|]; reflexivity.
Qed.

(** X10. The packer never removes, reorders or rewrites a message of
    the array it is given. It leaves the array as it was when the call
    continues a conversation, when there are fewer than two messages,
    and when the last message has no part of type [file] or
    [image_url]; otherwise the one change is the system message put in
    before the last message. Which of the two it is depends on neither
    the references nor the platform. *)
Theorem X10_packer_keeps_the_messages :
  forall isB (ms : list message) refs (isRefConv : bool),
    let ms' := snd (messagesPrepare isB ms refs isRefConv) in
    (ms' = ms
     \/ exists pre m,
         ms = pre ++ [m] /\ ms' = pre ++ [newFileMessage; m]
         /\ pre <> [] /\ isRefConv = false /\ hasFileOrImage m = true)
    /\ (isRefConv = true \/ List.length ms < 2 -> ms' = ms)
    /\ (forall pre m, ms = pre ++ [m] -> hasFileOrImage m = false -> ms' = ms)
    /\ (forall isB' refs',
           snd (messagesPrepare isB' ms refs' isRefConv) = ms').
Proof.
  intros isB ms refs isRefConv ms'. unfold ms'.
  rewrite messages_left.
  split; [|split; [|split]].
  - destruct isRefConv; cbn [orb]; [left; reflexivity|].
    destruct (Nat.ltb (List.length ms) 2) eqn:El; [left; reflexivity|].
    apply Nat.ltb_ge in El.
    destruct (snoc_cases ms) as [-> | (pre & m & ->)]; [left; reflexivity|].
    rewrite last_map_Some.
    destruct (hasFileOrImage m) eqn:Eh; [|left; reflexivity].
    right. exists pre, m. rewrite splice_snoc.
    repeat split; auto.
    intros ->. cbn in El. lia.
  - intros [-> | Hl]; [reflexivity|].
    apply Nat.ltb_lt in Hl. rewrite Hl, orb_true_r. reflexivity.
  - intros pre m -> Hh. rewrite last_map_Some, Hh.
    destruct (isRefConv || _); reflexivity.
  - intros isB' refs'. apply messages_left.
Qed.

(** The witness of X10: two messages, the last a plain text. *)
Lemma X10_witness :
  snd (messagesPrepare (fun _ => false)
         (Examples.hello ++ Examples.hello) [] false)
  = Examples.hello ++ Examples.hello.
Proof.
  destruct (X10_packer_keeps_the_messages (fun _ => false)
              (Examples.hello ++ Examples.hello) [] false) as (_ & _ & H & _).
  apply (H Examples.hello
           {| role := lit "user"; content_of := CText (lit "hello") |}).
  - reflexivity.
  - reflexivity.
Defined.

End FrameFacts.

(** ** The cleaning of a text *)

Module CleanFacts.

Import Js Data Packer PackerSpec.

Lemma includes_tail (p : jstr) (c : N) (s : jstr) :
  includes p (c :: s) = false -> includes p s = false.
Proof.
  cbn [includes]. intros H. apply orb_false_iff in H. apply H.
Qed.

Lemma includes_head (p s : jstr) :
  includes p s = false -> startsWith p s = false.
Proof.
  destruct s; cbn [includes]; intros H; apply orb_false_iff in H; apply H.
Qed.

Lemma no_dataUri (s : jstr) : forall pos,
    includes (lit "data:") s = false -> find_dataUri s pos = None.
Proof.
  induction s as [|c s IH]; intros pos H.
  - reflexivity.
  - cbn [find_dataUri]. unfold match_dataUri_prefix.
    rewrite (includes_head _ _ H). apply IH. apply (includes_tail _ _ _ H).
Qed.

Lemma split_lines_aux_nonempty (s : jstr) : forall cur,
    split_lines_aux s cur <> [].
Proof.
  induction s as [|c s IH]; intros cur; cbn [split_lines_aux]; [discriminate|].
  destruct c as [|p]; [apply IH|].
  repeat (destruct p as [p|p|]; try apply IH; try discriminate).
  destruct s as [|d s]; [apply IH|].
  destruct d as [|q]; [apply IH|].
  repeat (destruct q as [q|q|]; try apply IH; try discriminate).
Qed.

Lemma join_cons (sep x : jstr) (l : list jstr) :
  l <> [] -> join sep (x :: l) = x ++ sep ++ join sep l.
Proof. destruct l; [congruence | reflexivity]. Qed.

(** Without a carriage return, joining the lines gives the text back. *)
Lemma join_split_lines (s : jstr) : forall cur,
    ~ In 13%N s -> join nl (split_lines_aux s cur) = rev cur ++ s.
Proof.
  induction s as [|c s IH]; intros cur H.
  - cbn [split_lines_aux join]. rewrite app_nil_r. reflexivity.
  - assert (Hs : ~ In 13%N s) by (intros Hin; apply H; right; exact Hin).
    assert (Hc : c <> 13%N) by (intros ->; apply H; left; reflexivity).
    destruct (N.eq_dec c 10) as [-> | Hn].
    + cbn [split_lines_aux].
      rewrite join_cons by apply split_lines_aux_nonempty.
      rewrite (IH [] Hs). reflexivity.
    + assert (E : split_lines_aux (c :: s) cur = split_lines_aux s (c :: cur)).
      { cbn [split_lines_aux]. destruct c as [|p]; [reflexivity|].
        repeat (destruct p as [p|p|]; try reflexivity); congruence. }
      rewrite E, (IH (c :: cur) Hs). cbn [rev]. rewrite <- app_assoc. reflexivity.
Qed.

Lemma trimStart_length (s : jstr) : List.length (trimStart s) <= List.length s.
Proof.
  induction s as [|c s IH]; cbn [trimStart List.length]; [lia|].
  destruct (is_space c); cbn [List.length]; lia.
Qed.

Lemma trim_length (s : jstr) : List.length (trim s) <= List.length s.
Proof.
  unfold trim, trimEnd. rewrite length_rev.
  pose proof (trimStart_length (rev (trimStart s))) as H.
  rewrite length_rev in H. pose proof (trimStart_length s). lia.
Qed.

Lemma filter_all {A} (f : A -> bool) (l : list A) :
  Forall (fun x => f x = true) l -> filter f l = l.
Proof.
  induction 1 as [|x l Hx _ IH]; cbn [filter]; [reflexivity|].
  rewrite Hx, IH. reflexivity.
Qed.

Lemma short_line_stays (line : jstr) :
  List.length line <= 200 -> negb (looks_base64 line) = true.
Proof.
  intros H. unfold looks_base64.
  pose proof (trim_length line) as Ht.
  assert (E : Nat.ltb 200 (List.length (trim line)) = false)
    by (apply Nat.ltb_ge; lia).
  rewrite E. reflexivity.
Qed.

Lemma startsWith_snoc (p : jstr) (c : N) : forall x,
    ~ In c p -> startsWith p (x ++ [c]) = startsWith p x.
Proof.
  induction p as [|a p IH]; intros x H; [destruct x; reflexivity|].
  assert (Ha : N.eqb a c = false)
    by (apply N.eqb_neq; intros ->; apply H; left; reflexivity).
  assert (Hp : ~ In c p) by (intros Hin; apply H; right; exact Hin).
  destruct x as [|y x]; cbn [app startsWith].
  - rewrite Ha. reflexivity.
  - rewrite (IH x Hp). reflexivity.
Qed.

Lemma includes_snoc (p : jstr) (c : N) (s : jstr) :
  ~ In c p -> includes p (s ++ [c]) = includes p s.
Proof.
  intros H. induction s as [|y s IH]; cbn [app includes].
  - pose proof (startsWith_snoc p c [] H) as E. cbn [app] in E. rewrite E.
    destruct (startsWith p []); reflexivity.
  - rewrite IH. pose proof (startsWith_snoc p c (y :: s) H) as E.
    cbn [app] in E. rewrite E. reflexivity.
Qed.

Lemma split_lines_snoc (s : jstr) : forall cur,
    ~ In 13%N s ->
    split_lines_aux (s ++ [10%N]) cur = split_lines_aux s cur ++ [[]].
Proof.
  induction s as [|c s IH]; intros cur H; [reflexivity|].
  assert (Hs : ~ In 13%N s) by (intros Hin; apply H; right; exact Hin).
  assert (Hc : c <> 13%N) by (intros ->; apply H; left; reflexivity).
  destruct (N.eq_dec c 10) as [-> | Hn].
  - cbn [app split_lines_aux]. rewrite (IH [] Hs). reflexivity.
  - assert (E : forall r, split_lines_aux (c :: r) cur = split_lines_aux r (c :: cur)).
    { intros r. cbn [split_lines_aux]. destruct c as [|p]; [reflexivity|].
      repeat (destruct p as [p|p|]; try reflexivity); congruence. }
    cbn [app]. rewrite !E. apply IH. exact Hs.
Qed.

Lemma trimStart_app (s x : jstr) :
  trimStart s <> [] -> trimStart (s ++ x) = trimStart s ++ x.
Proof.
  induction s as [|c s IH]; cbn [trimStart app]; [congruence|].
  destruct (is_space c); [exact IH | reflexivity].
Qed.

Lemma trimStart_spaces (s x : jstr) :
  trimStart s = [] -> trimStart (s ++ x) = trimStart x.
Proof.
  induction s as [|c s IH]; cbn [trimStart app]; [reflexivity|].
  destruct (is_space c); [exact IH | discriminate].
Qed.

(** A line feed at the end is trimmed away. *)
Lemma trim_snoc_nl (s : jstr) : trim (s ++ nl) = trim s.
Proof.
  unfold trim, trimEnd, nl.
  destruct (trimStart s) as [|c r] eqn:E.
  - rewrite (trimStart_spaces s [10%N] E). reflexivity.
  - rewrite (trimStart_app s [10%N]) by (rewrite E; discriminate).
    rewrite E, rev_app_distr. reflexivity.
Qed.

(** X11. [cleanBase64] leaves ordinary text alone: a text that nowhere
    holds [data:], has no carriage return and no line of more than 200
    characters comes back as it was, trimmed. So a conversation of one
    message with such a text, no image staged, is sent as that text,
    trimmed. *)
Theorem X11_cleaning_spares_ordinary_text :
  forall (t : jstr),
    includes (lit "data:") t = false ->
    ~ In 13%N t ->
    Forall (fun line => List.length line <= 200) (split_lines t) ->
    cleanBase64 t = trim t
    /\ forall isB role refs isRefConv,
        imageRefs refs = [] ->
        text (fst (messagesPrepare isB
                     [{| role := role; content_of := CText t |}] refs isRefConv))
        = trim t.
Proof.
  assert (Hclean : forall t,
             includes (lit "data:") t = false ->
             ~ In 13%N t ->
             Forall (fun line => List.length line <= 200) (split_lines t) ->
             cleanBase64 t = trim t).
  { intros t Hd Hcr Hl.
    unfold cleanBase64. destruct t as [|c t]; [reflexivity|].
    assert (Hs : strip_dataUris (List.length (c :: t)) (c :: t) 0 = c :: t).
    { cbn [List.length strip_dataUris skipn].
      rewrite (no_dataUri (c :: t) 0 Hd). reflexivity. }
    rewrite Hs. rewrite filter_all.
    - unfold split_lines. rewrite (join_split_lines (c :: t) [] Hcr). reflexivity.
    - revert Hl. apply Forall_impl. intros line. apply short_line_stays. }
  intros t Hd Hcr Hl. split; [apply Hclean; assumption|].
  intros isB role refs isRefConv Hrefs.
  rewrite (PackerFacts.text_without_images_passthrough isB _ refs isRefConv Hrefs)
    by (cbn; apply orb_true_r).
  cbn [fst text passthrough fold_left passthrough_message content_of app].
  rewrite Hclean.
  - apply trim_snoc_nl.
  - unfold nl. rewrite includes_snoc; [exact Hd|].
    cbn. intros [H|[H|[H|[H|[H|[]]]]]]; discriminate.
  - unfold nl. intros Hin. apply in_app_or in Hin.
    destruct Hin as [Hin|[Hin|[]]]; [apply Hcr; exact Hin | discriminate].
  - unfold split_lines, nl. rewrite (split_lines_snoc t [] Hcr).
    apply Forall_app. split; [exact Hl|].
    constructor; [cbn; lia | constructor].
Qed.

(** The witness of X11: the one message [hello]. *)
Lemma X11_witness :
  text (fst (messagesPrepare (fun _ => false) Examples.hello [] false))
  = lit "hello".
Proof.
  destruct (X11_cleaning_spares_ordinary_text (lit "hello")) as [_ H].
  - reflexivity.
  - cbn. intros [H|[H|[H|[H|[H|[]]]]]]; discriminate.
  - constructor; [cbn; lia | constructor].
  - apply (H (fun _ => false) (lit "user") [] false). reflexivity.
Defined.

End CleanFacts.

(** ** The encoder of the signer *)

Module EncoderFacts.

Import Js Exn Signer SignerFacts.

Lemma head_shape_chars c r t r' :
  head_shape c r t r' ->
  Forall (fun x => x = 37%N \/ is_unreserved x = true) t.
Proof.
  intros S. destruct S as [c r U | c r U Hh Hl | h l r Hh Hl].
  - constructor; [right; exact U | constructor].
  - apply Forall_forall. intros x Hin. apply in_flat_map in Hin.
    destruct Hin as (b & _ & Hb). apply pct_chars in Hb. apply Hb.
  - apply Forall_forall. intros x Hin. apply in_flat_map in Hin.
    destruct Hin as (b & _ & Hb). apply pct_chars in Hb. apply Hb.
Qed.

Lemma escaped_length (cp : N) :
  3 <= List.length (flat_map pct (Utf8.encode_cp cp)).
Proof.
  unfold Utf8.encode_cp.
  destruct (N.ltb cp 128); [|destruct (N.ltb cp 2048); [|destruct (N.ltb cp 65536)]];
    cbn [flat_map pct app List.length]; lia.
Qed.

Lemma rfc3986Encode_chars_bounded (n : nat) : forall s o,
    List.length s <= n -> rfc3986Encode s = Some o ->
    Forall (fun x => x = 37%N \/ is_unreserved x = true) o
    /\ List.length s <= List.length o.
Proof.
  induction n as [|n IH]; intros s o Hlen E.
  - destruct s; [|cbn in Hlen; lia]. apply Some_inj in E. subst o.
    split; [constructor | cbn; lia].
  - destruct s as [|c r]; [apply Some_inj in E; subst o; split; [constructor | cbn; lia]|].
    rewrite rfc3986Encode_cons in E.
    destruct (head_token c r) as [[t r']|] eqn:T; [|discriminate].
    destruct (rfc3986Encode r') as [e|] eqn:R; [|discriminate].
    apply Some_inj in E. subst o.
    pose proof T as T'. apply head_token_shape in T'.
    destruct (head_shape_rest _ _ _ _ T') as (L & _ & Hne).
    destruct (IH r' e) as [Hc Hl]; [cbn in Hlen, L; lia | exact R |].
    split.
    + apply Forall_app. split; [apply (head_shape_chars _ _ _ _ T') | exact Hc].
    + rewrite length_app.
      unfold head_token in T.
      destruct (is_unreserved c).
      * injection T as <- <-. cbn [List.length] in *. lia.
      * destruct (Utf8.is_high c).
        -- destruct r as [|l r0]; [discriminate|].
           destruct (Utf8.is_low l); [|discriminate].
           injection T as <- <-.
           pose proof (escaped_length (Utf8.pair_cp c l)) as Hp.
           cbn [List.length] in *. lia.
        -- destruct (Utf8.is_low c); [discriminate|].
           injection T as <- <-.
           pose proof (escaped_length c) as Hp.
           cbn [List.length] in *. lia.
Qed.

Lemma encodeURIComponent_plain (s : jstr) :
  Forall (fun c => Utf8.is_high c = false /\ Utf8.is_low c = false) s ->
  exists e, encodeURIComponent s = Some e.
Proof.
  induction 1 as [|c s [Hh Hl] _ [e IH]]; cbn [encodeURIComponent].
  - eexists. reflexivity.
  - rewrite Hh, Hl, IH. destruct (uri_unreserved c); eexists; reflexivity.
Qed.

Lemma rfc3986Encode_same (s : jstr) :
  Forall (fun c => is_unreserved c = true) s -> rfc3986Encode s = Some s.
Proof.
  induction 1 as [|c s Hc _ IH]; [reflexivity|].
  rewrite rfc3986Encode_cons. unfold head_token. rewrite Hc, IH. reflexivity.
Qed.

(** X12. What [rfc3986Encode] writes holds only the percent sign and the
    characters it leaves alone (letters, digits, [-], [_], [.] and [~]):
    none of [!*'()] and no separator of a query; it is never shorter
    than the text; a text of characters left alone comes back as it is;
    and the encoder answers for every text without a surrogate: it
    throws only for a surrogate without its partner. *)
Theorem X12_encoder_output :
  forall (s : jstr),
    (forall o,
        rfc3986Encode s = Some o ->
        Forall (fun x => x = 37%N \/ is_unreserved x = true) o
        /\ List.length s <= List.length o)
    /\ (Forall (fun c => is_unreserved c = true) s -> rfc3986Encode s = Some s)
    /\ (Forall (fun c => Utf8.is_high c = false /\ Utf8.is_low c = false) s ->
        exists o, rfc3986Encode s = Some o).
Proof.
  intros s. split; [|split].
  - intros o. apply (rfc3986Encode_chars_bounded (List.length s)). lia.
  - apply rfc3986Encode_same.
  - intros H. destruct (encodeURIComponent_plain s H) as [e He].
    unfold rfc3986Encode. rewrite He. eexists. reflexivity.
Qed.

(** The witness of X12: a key with a space, an ampersand and a star. *)
Lemma X12_witness :
  rfc3986Encode (lit "a b&c*") = Some (lit "a%20b%26c%2A").
Proof.
  assert (E : rfc3986Encode (lit "a b&c*") = Some (lit "a%20b%26c%2A"))
    by (vm_compute; reflexivity).
  destruct (X12_encoder_output (lit "a b&c*")) as (H & _ & _).
  destruct (H _ E) as [_ _]. exact E.
Defined.

(** X13. [rfc3986Encode] is injective on strings of code units: two
    texts that are written alike are the same text. *)
Theorem X13_encoder_is_injective :
  forall (s1 s2 o : jstr),
    code_units s1 -> code_units s2 ->
    rfc3986Encode s1 = Some o -> rfc3986Encode s2 = Some o ->
    s1 = s2.
Proof.
  intros s1 s2 o H1 H2 E1 E2.
  apply (rfc3986Encode_inj s1 s2 o H1 H2 E1 E2).
Qed.

(** The witness of X13: the text [a=b] against its own encoding. *)
Lemma X13_witness : lit "a=b" = lit "a=b".
Proof.
  apply (X13_encoder_is_injective (lit "a=b") (lit "a=b") (lit "a%3Db")).
  - repeat constructor.
  - repeat constructor.
  - vm_compute. reflexivity.
  - vm_compute. reflexivity.
Defined.

End EncoderFacts.

(** ** The canonical query *)

Module CanonicalFacts.

Import Js Exn Signer SignerFacts.

(** *** The order of the keys *)

Lemma ltb_irrefl (a : jstr) : ltb a a = false.
Proof.
  induction a as [|x a IH]; [reflexivity|]. cbn [ltb].
  rewrite N.ltb_irrefl, N.eqb_refl, IH. reflexivity.
Qed.

Lemma ltb_antisym (a : jstr) : forall b,
    ltb a b = false -> ltb b a = false -> a = b.
Proof.
  induction a as [|x a IH]; intros [|y b]; cbn [ltb]; try discriminate; auto.
  intros H1 H2.
  apply orb_false_iff in H1. destruct H1 as [L1 E1].
  apply orb_false_iff in H2. destruct H2 as [L2 E2].
  apply N.ltb_ge in L1. apply N.ltb_ge in L2.
  assert (x = y) by lia. subst y.
  rewrite N.eqb_refl in E1, E2. cbn [andb] in E1, E2.
  f_equal. apply IH; assumption.
Qed.

Lemma ltb_trans (a : jstr) : forall b c,
    ltb a b = true -> ltb b c = true -> ltb a c = true.
Proof.
  induction a as [|x a IH]; intros [|y b] [|z c]; cbn [ltb];
    try discriminate; auto.
  intros H1 H2.
  apply orb_true_iff in H1. apply orb_true_iff in H2. apply orb_true_iff.
  destruct H1 as [L1 | E1]; destruct H2 as [L2 | E2].
  - left. apply N.ltb_lt in L1. apply N.ltb_lt in L2. apply N.ltb_lt. lia.
  - apply andb_true_iff in E2. destruct E2 as [E2 _]. apply N.eqb_eq in E2.
    subst z. left. exact L1.
  - apply andb_true_iff in E1. destruct E1 as [E1 _]. apply N.eqb_eq in E1.
    subst y. left. exact L2.
  - apply andb_true_iff in E1. destruct E1 as [E1 R1].
    apply andb_true_iff in E2. destruct E2 as [E2 R2].
    apply N.eqb_eq in E1. apply N.eqb_eq in E2. subst y z.
    right. rewrite N.eqb_refl. cbn [andb]. apply (IH b c R1 R2).
Qed.

(** [a] does not come after [b]. *)
Lemma not_after_trans (a b c : jstr) :
  ltb b a = false -> ltb c b = false -> ltb c a = false.
Proof.
  intros H1 H2. destruct (ltb c a) eqn:E; [|reflexivity].
  destruct (ltb a b) eqn:Eab.
  - rewrite (ltb_trans c a b E Eab) in H2. discriminate.
  - assert (a = b) by (apply ltb_antisym; assumption). subst b.
    rewrite E in H2. discriminate.
Qed.

Lemma ltb_asym (a b : jstr) : ltb a b = true -> ltb b a = false.
Proof.
  intros H. destruct (ltb b a) eqn:E; [|reflexivity].
  pose proof (ltb_trans a b a H E) as Hc. rewrite ltb_irrefl in Hc. discriminate.
Qed.

Lemma insert_perm (k : jstr) (l : list jstr) : Permutation (insert k l) (k :: l).
Proof.
  induction l as [|x l IH]; cbn [insert]; [apply Permutation_refl|].
  destruct (ltb x k); [|apply Permutation_refl].
  apply (perm_trans (perm_skip x IH)). apply perm_swap.
Qed.

Lemma sort_perm (l : list jstr) : Permutation (sort l) l.
Proof.
  unfold sort. induction l as [|x l IH]; cbn [fold_right]; [constructor|].
  apply (perm_trans (insert_perm x _)). apply perm_skip. exact IH.
Qed.

Lemma insert_sorted (k : jstr) (l : list jstr) :
  StronglySorted (fun a b => ltb b a = false) l ->
  StronglySorted (fun a b => ltb b a = false) (insert k l).
Proof.
  induction 1 as [|x l Hs IH Hx]; cbn [insert].
  - repeat constructor.
  - destruct (ltb x k) eqn:E.
    + constructor; [exact IH|].
      apply Forall_forall. intros y Hy.
      apply (Permutation_in _ (insert_perm k l)) in Hy.
      destruct Hy as [<- | Hy].
      * apply ltb_asym. exact E.
      * rewrite Forall_forall in Hx. apply Hx. exact Hy.
    + constructor; [constructor; assumption|].
      constructor; [exact E|].
      apply Forall_forall. intros y Hy. rewrite Forall_forall in Hx.
      apply (not_after_trans k x y E). apply Hx. exact Hy.
Qed.

Lemma sort_sorted (l : list jstr) :
  StronglySorted (fun a b => ltb b a = false) (sort l).
Proof.
  unfold sort. induction l as [|x l IH]; cbn [fold_right]; [constructor|].
  apply insert_sorted. exact IH.
Qed.

(** Two sorted lists with the same elements are the same list. *)
Lemma sorted_unique (l1 : list jstr) : forall l2,
    StronglySorted (fun a b => ltb b a = false) l1 ->
    StronglySorted (fun a b => ltb b a = false) l2 ->
    Permutation l1 l2 -> l1 = l2.
Proof.
  induction l1 as [|x l1 IH]; intros l2 S1 S2 Hp.
  - apply Permutation_nil in Hp. subst. reflexivity.
  - destruct l2 as [|y l2];
      [apply Permutation_sym in Hp; apply Permutation_nil in Hp; discriminate|].
    inversion S1 as [|? ? S1' F1]; subst. inversion S2 as [|? ? S2' F2]; subst.
    rewrite Forall_forall in F1, F2.
    assert (Hxy : x = y).
    { assert (Hx : In x (y :: l2))
        by (apply (Permutation_in _ Hp); left; reflexivity).
      assert (Hy : In y (x :: l1))
        by (apply (Permutation_in _ (Permutation_sym Hp)); left; reflexivity).
      destruct Hx as [Hx | Hx]; [congruence|].
      destruct Hy as [Hy | Hy]; [congruence|].
      apply ltb_antisym; [apply F2 | apply F1]; assumption. }
    subst y. f_equal. apply IH; try assumption.
    apply (Permutation_cons_inv Hp).
Qed.

Lemma sort_permuted (l1 l2 : list jstr) :
  Permutation l1 l2 -> sort l1 = sort l2.
Proof.
  intros Hp. apply sorted_unique; try apply sort_sorted.
  apply (perm_trans (sort_perm l1)). apply (perm_trans Hp).
  apply Permutation_sym. apply sort_perm.
Qed.

(** *** The values *)

Lemma get_missing (p : record) (k : jstr) : ~ In k (keys p) -> get p k = [].
Proof.
  induction p as [|[a b] p IH]; cbn [get keys map fst]; [reflexivity|].
  intros H. rewrite eqb_neq.
  - apply IH. intros Hin. apply H. right. exact Hin.
  - intros ->. apply H. left. reflexivity.
Qed.

Lemma get_permuted (p1 p2 : record) :
  Permutation p1 p2 -> NoDup (keys p1) -> forall k, get p1 k = get p2 k.
Proof.
  induction 1 as [|[a b] p1 p2 Hp IH|[a b] [c d] p|p1 p2 p3 H12 IH12 H23 IH23];
    intros Hnd k.
  - reflexivity.
  - cbn [get]. destruct (Js.eqb k a); [reflexivity|].
    apply IH. inversion Hnd; assumption.
  - cbn [get].
    destruct (Js.eqb k c) eqn:Ec; destruct (Js.eqb k a) eqn:Ea; try reflexivity.
    apply PackerFacts.eqb_eq in Ec. apply PackerFacts.eqb_eq in Ea. subst.
    cbn [keys map fst] in Hnd. inversion Hnd as [|? ? Hn _]; subst.
    exfalso. apply Hn. left. reflexivity.
  - rewrite (IH12 Hnd k). apply IH23.
    apply (Permutation_NoDup (Permutation_map fst H12) Hnd).
Qed.

(** X14. The canonical query is canonical: it lists the parameters by
    ascending key, whatever the order they were given in. Two records
    with the same keys and values, the keys distinct, have the same
    canonical query, hence the same signature and the same
    authorization. *)
Theorem X14_canonical_query_ignores_the_order :
  forall (p1 p2 : record),
    Permutation p1 p2 ->
    NoDup (keys p1) ->
    StronglySorted (fun a b => ltb b a = false) (sort (keys p1))
    /\ sort (keys p1) = sort (keys p2)
    /\ canonicalQuery p1 = canonicalQuery p2
    /\ (forall date method host path sessionToken accessKey secretKey region
               service o,
           signature date method host path p1 sessionToken secretKey region
                     service o
           = signature date method host path p2 sessionToken secretKey region
                       service o
           /\ buildAuthorization date method host path p1 sessionToken accessKey
                                 secretKey region service o
              = buildAuthorization date method host path p2 sessionToken
                                   accessKey secretKey region service o).
Proof.
  intros p1 p2 Hp Hnd.
  assert (Hk : sort (keys p1) = sort (keys p2)).
  { apply sort_permuted. unfold keys. apply Permutation_map. exact Hp. }
  assert (Hq : canonicalQuery p1 = canonicalQuery p2).
  { unfold canonicalQuery. rewrite <- Hk. f_equal. f_equal.
    apply map_ext. intros k. unfold query_pair.
    rewrite (get_permuted p1 p2 Hp Hnd k). reflexivity. }
  split; [apply sort_sorted|]. split; [exact Hk|]. split; [exact Hq|].
  intros date method host path sessionToken accessKey secretKey region service o.
  assert (Hs : signature date method host path p1 sessionToken secretKey region
                         service o
               = signature date method host path p2 sessionToken secretKey region
                           service o).
  { unfold signature, canonicalRequest. rewrite Hq. reflexivity. }
  split; [exact Hs|].
  unfold buildAuthorization. rewrite Hs. reflexivity.
Qed.

(** The witness of X14: two parameters, given in the two orders. *)
Lemma X14_witness :
  canonicalQuery [(lit "b", Some (lit "2")); (lit "a", Some (lit "1"))]
  = canonicalQuery [(lit "a", Some (lit "1")); (lit "b", Some (lit "2"))].
Proof.
  destruct (X14_canonical_query_ignores_the_order
              [(lit "b", Some (lit "2")); (lit "a", Some (lit "1"))]
              [(lit "a", Some (lit "1")); (lit "b", Some (lit "2"))]) as (_ & _ & H & _).
  - apply perm_swap.
  - apply NoDup_cons; [cbn; intros [H|[]]; discriminate|].
    apply NoDup_cons; [intros [] | apply NoDup_nil].
  - exact H.
Defined.

End CanonicalFacts.

(** ** The reference to a conversation *)

Module ReferenceFacts.

Import Js Exn Data Env Packer Orchestrator OrchestratorFacts Observations.

Lemma run_le_length (f : N -> bool) (s : jstr) : Js.run f s <= List.length s.
Proof.
  induction s as [|c s IH]; cbn [Js.run List.length]; [lia|].
  destruct (f c); lia.
Qed.

(** A text of fewer than 24 characters is no conversation id. *)
Lemma short_is_no_id (s : jstr) : List.length s < 24 -> has_conv_id s = false.
Proof.
  induction s as [|c s IH]; intros H; cbn [has_conv_id].
  - reflexivity.
  - assert (E : Nat.leb 24 (Js.run is_alnum (c :: s)) = false).
    { apply Nat.leb_gt. pose proof (run_le_length is_alnum (c :: s)). lia. }
    rewrite E. apply IH. cbn [List.length] in H. lia.
Qed.

Section WithEnv.

Variable SP : Sse.parser.
Variable P : platform.
Variable worlds : nat -> world.

(** What the first half of an attempt does with a reference that is
    no conversation id: what it does with none, but for the reference
    it hands on when the uploads fail. *)
Lemma open_stream_no_id messages refConvId rc :
  has_conv_id refConvId = false ->
  exists ref,
    (ref = refConvId \/ ref = [])
    /\ open_stream P worlds messages refConvId rc
       = (fst (fst (fst (open_stream P worlds messages [] rc))),
          snd (fst (fst (open_stream P worlds messages [] rc))),
          ref,
          snd (open_stream P worlds messages [] rc))
    /\ snd (fst (open_stream P worlds messages [] rc)) = [].
Proof.
  intros H. unfold open_stream. rewrite H. cbn [has_conv_id Js.run Nat.leb orb].
  destruct (upload_all P (worlds rc) (Upload.extractRefFileUrls P messages)).
  - exists []. destruct (messagesPrepare _ _ _ _) as [payload ms]. cbn. auto.
  - exists refConvId. cbn. auto.
Qed.

Lemma completion_body_no_id messages refConvId rc :
  has_conv_id refConvId = false ->
  exists ref,
    (ref = refConvId \/ ref = [])
    /\ completion_body SP P worlds messages refConvId rc
       = (fst (fst (fst (completion_body SP P worlds messages [] rc))),
          snd (fst (fst (completion_body SP P worlds messages [] rc))),
          ref,
          snd (completion_body SP P worlds messages [] rc))
    /\ snd (fst (completion_body SP P worlds messages [] rc)) = [].
Proof.
  intros H. destruct (open_stream_no_id messages refConvId rc H)
    as (ref & Hr & Ho & Hn).
  unfold completion_body. rewrite Ho.
  destruct (open_stream P worlds messages [] rc) as [[[r ms] ref0] log].
  cbn [fst snd] in *. subst ref0. exists ref. split; [exact Hr|].
  destruct r as [response|e]; [|cbn; auto].
  destruct (is_event_stream response) as [[|]|e]; try (cbn; auto).
  destruct (Transcoder.receiveStream SP (stream response)); cbn; auto.
Qed.

Lemma completion_loop_no_id budget : forall messages refConvId rc,
    has_conv_id refConvId = false ->
    completion_loop SP P worlds budget messages refConvId rc
    = completion_loop SP P worlds budget messages [] rc.
Proof.
  induction budget as [|b IH]; intros messages refConvId rc H.
  - cbn [completion_loop].
    destruct (completion_body_no_id messages refConvId rc H) as (ref & _ & -> & _).
    destruct (completion_body SP P worlds messages [] rc) as [[[o ms] ref0] log].
    cbn [fst snd]. destruct o; reflexivity.
  - cbn [completion_loop].
    destruct (completion_body_no_id messages refConvId rc H) as (ref & Hr & -> & Hn).
    destruct (completion_body SP P worlds messages [] rc) as [[[o ms] ref0] log].
    cbn [fst snd] in *. subst ref0. destruct o as [a|e|]; try reflexivity.
    destruct Hr as [-> | ->]; [|reflexivity].
    rewrite (IH ms refConvId (S rc) H). reflexivity.
Qed.

Lemma stream_body_no_id messages refConvId rc :
  has_conv_id refConvId = false ->
  exists ref,
    (ref = refConvId \/ ref = [])
    /\ stream_body SP P worlds messages refConvId rc
       = (fst (fst (fst (stream_body SP P worlds messages [] rc))),
          snd (fst (fst (stream_body SP P worlds messages [] rc))),
          ref,
          snd (stream_body SP P worlds messages [] rc))
    /\ snd (fst (stream_body SP P worlds messages [] rc)) = [].
Proof.
  intros H. destruct (open_stream_no_id messages refConvId rc H)
    as (ref & Hr & Ho & Hn).
  unfold stream_body. rewrite Ho.
  destruct (open_stream P worlds messages [] rc) as [[[r ms] ref0] log].
  cbn [fst snd] in *. subst ref0. exists ref. split; [exact Hr|].
  destruct r as [response|e]; [|cbn; auto].
  destruct (is_event_stream response) as [[|]|e]; cbn; auto.
Qed.

Lemma stream_loop_no_id budget : forall messages refConvId rc,
    has_conv_id refConvId = false ->
    stream_loop SP P worlds budget messages refConvId rc
    = stream_loop SP P worlds budget messages [] rc.
Proof.
  induction budget as [|b IH]; intros messages refConvId rc H.
  - cbn [stream_loop].
    destruct (stream_body_no_id messages refConvId rc H) as (ref & _ & -> & _).
    destruct (stream_body SP P worlds messages [] rc) as [[[o ms] ref0] log].
    cbn [fst snd]. destruct o; reflexivity.
  - cbn [stream_loop].
    destruct (stream_body_no_id messages refConvId rc H) as (ref & Hr & -> & Hn).
    destruct (stream_body SP P worlds messages [] rc) as [[[o ms] ref0] log].
    cbn [fst snd] in *. subst ref0. destruct o as [a|e|]; try reflexivity.
    destruct Hr as [-> | ->]; [|reflexivity].
    rewrite (IH ms refConvId (S rc) H). reflexivity.
Qed.

(** With a reference that is a conversation id, the first half of an
    attempt leaves the messages and the reference as they are. *)
Lemma open_stream_with_id messages refConvId rc :
  has_conv_id refConvId = true ->
  snd (fst (fst (open_stream P worlds messages refConvId rc))) = messages
  /\ snd (fst (open_stream P worlds messages refConvId rc)) = refConvId.
Proof.
  intros H. unfold open_stream. rewrite H.
  destruct (upload_all P (worlds rc) (Upload.extractRefFileUrls P messages));
    [|split; reflexivity].
  destruct refConvId as [|c r]; [discriminate H|].
  unfold messagesPrepare. cbn [orb fst snd]. split; reflexivity.
Qed.

Lemma completion_body_with_id messages refConvId rc :
  has_conv_id refConvId = true ->
  snd (fst (fst (completion_body SP P worlds messages refConvId rc))) = messages
  /\ snd (fst (completion_body SP P worlds messages refConvId rc)) = refConvId.
Proof.
  intros H. destruct (open_stream_with_id messages refConvId rc H) as [Hm Hr].
  unfold completion_body.
  destruct (open_stream P worlds messages refConvId rc) as [[[r ms] ref0] log].
  cbn [fst snd] in *. subst.
  destruct r as [response|e]; [|split; reflexivity].
  destruct (is_event_stream response) as [[|]|e]; try (split; reflexivity).
  destruct (Transcoder.receiveStream SP (stream response)); split; reflexivity.
Qed.

Lemma completion_loop_with_id budget : forall messages refConvId rc,
    has_conv_id refConvId = true ->
    messages_of (completion_loop SP P worlds budget messages refConvId rc)
    = messages.
Proof.
  induction budget as [|b IH]; intros messages refConvId rc H;
    cbn [completion_loop];
    destruct (completion_body_with_id messages refConvId rc H) as [Hm Hr];
    destruct (completion_body SP P worlds messages refConvId rc)
      as [[[o ms] ref0] log];
    cbn [fst snd] in *; subst; destruct o; try reflexivity.
  cbn [messages_of]. apply IH. exact H.
Qed.

Lemma stream_body_with_id messages refConvId rc :
  has_conv_id refConvId = true ->
  snd (fst (fst (stream_body SP P worlds messages refConvId rc))) = messages
  /\ snd (fst (stream_body SP P worlds messages refConvId rc)) = refConvId.
Proof.
  intros H. destruct (open_stream_with_id messages refConvId rc H) as [Hm Hr].
  unfold stream_body.
  destruct (open_stream P worlds messages refConvId rc) as [[[r ms] ref0] log].
  cbn [fst snd] in *. subst.
  destruct r as [response|e]; [|split; reflexivity].
  destruct (is_event_stream response) as [[|]|e]; split; reflexivity.
Qed.

Lemma stream_loop_with_id budget : forall messages refConvId rc,
    has_conv_id refConvId = true ->
    messages_of (stream_loop SP P worlds budget messages refConvId rc)
    = messages.
Proof.
  induction budget as [|b IH]; intros messages refConvId rc H;
    cbn [stream_loop];
    destruct (stream_body_with_id messages refConvId rc H) as [Hm Hr];
    destruct (stream_body SP P worlds messages refConvId rc)
      as [[[o ms] ref0] log];
    cbn [fst snd] in *; subst; destruct o; try reflexivity.
  cbn [messages_of]. apply IH. exact H.
Qed.

End WithEnv.

(** X15. A reference that is no conversation id is ignored: when
    [refConvId] holds no run of 24 letters and digits, as every text of
    fewer than 24 characters does, both orchestrators behave, attempt
    after attempt, as they do with no reference at all. *)
Theorem X15_ill_formed_reference_is_ignored :
  forall SP P worlds messages (refConvId : jstr) rc,
    (List.length refConvId < 24 -> has_conv_id refConvId = false)
    /\ (has_conv_id refConvId = false ->
        createCompletion SP P worlds messages refConvId rc
        = createCompletion SP P worlds messages [] rc
        /\ createCompletionStream SP P worlds messages refConvId rc
           = createCompletionStream SP P worlds messages [] rc).
Proof.
  intros SP P worlds messages refConvId rc.
  split; [apply short_is_no_id|]. intros H. split.
  - apply completion_loop_no_id. exact H.
  - apply stream_loop_no_id. exact H.
Qed.

(** The witness of X15: the reference [abc]. *)
Lemma X15_witness :
  createCompletion Sse.reference Examples.platform0 (fun _ => Examples.world_ok)
                   Examples.with_image (lit "abc") 0
  = createCompletion Sse.reference Examples.platform0 (fun _ => Examples.world_ok)
                     Examples.with_image [] 0.
Proof.
  destruct (X15_ill_formed_reference_is_ignored Sse.reference Examples.platform0
              (fun _ => Examples.world_ok) Examples.with_image (lit "abc") 0)
    as [Hs H].
  apply H. apply Hs. cbn. lia.
Defined.

(** X16. A call that continues a conversation never touches the
    caller's messages: when [refConvId] holds a conversation id, the
    array is, when either orchestrator ends, after however many
    attempts, the array that was given. *)
Theorem X16_continued_conversation_keeps_the_messages :
  forall SP P worlds messages (refConvId : jstr) rc,
    has_conv_id refConvId = true ->
    messages_of (createCompletion SP P worlds messages refConvId rc) = messages
    /\ messages_of (createCompletionStream SP P worlds messages refConvId rc)
       = messages.
Proof.
  intros SP P worlds messages refConvId rc H. split.
  - apply completion_loop_with_id. exact H.
  - apply stream_loop_with_id. exact H.
Qed.

(** The witness of X16: a reference of 24 letters, the completion call
    failing every time. *)
Lemma X16_witness :
  messages_of (createCompletion Sse.reference Examples.platform0
                 (fun _ => Examples.world_json) Examples.with_image
                 (lit "abcdefghijklmnopqrstuvwx") 0)
  = Examples.with_image.
Proof.
  apply (X16_continued_conversation_keeps_the_messages Sse.reference
           Examples.platform0 (fun _ => Examples.world_json) Examples.with_image
           (lit "abcdefghijklmnopqrstuvwx") 0).
  vm_compute. reflexivity.
Defined.

End ReferenceFacts.

(** ** The removal of the conversation *)

Module RemovalFacts.

Import Js Exn Data Env Orchestrator OrchestratorFacts Observations.

Lemma removals_app (a b : list action) :
  removals (a ++ b) = removals a ++ removals b.
Proof. apply flat_map_app. Qed.

(** What [removeConversation] removes: the conversation it is given,
    when its id is not falsy. *)
Lemma removals_of_one (c : Json.value) :
  removals (removeConversation (Some c))
  = if Json.truthy (Some c) then [c] else [].
Proof.
  unfold removeConversation. destruct (Json.truthy (Some c)); reflexivity.
Qed.

Section WithEnv.

Variable SP : Sse.parser.
Variable P : platform.
Variable worlds : nat -> world.

Lemma open_stream_removes_nothing messages refConvId rc :
  removals (snd (open_stream P worlds messages refConvId rc)) = [].
Proof.
  unfold open_stream.
  destruct (upload_all P (worlds rc) (Upload.extractRefFileUrls P messages)).
  - destruct (Packer.messagesPrepare _ _ _ _) as [payload ms]. reflexivity.
  - reflexivity.
Qed.

Lemma completion_body_removals messages refConvId rc :
  removals (snd (completion_body SP P worlds messages refConvId rc))
  = match fst (fst (fst (completion_body SP P worlds messages refConvId rc))) with
    | Returned a =>
        if Json.truthy (Some (Transcoder.id a)) then [Transcoder.id a] else []
    | _ => []
    end.
Proof.
  pose proof (open_stream_removes_nothing messages refConvId rc) as Ho.
  unfold completion_body.
  destruct (open_stream P worlds messages refConvId rc) as [[[r ms] ref0] log].
  cbn [snd] in Ho.
  destruct r as [response|e]; [|exact Ho].
  destruct (is_event_stream response) as [[|]|e]; try exact Ho.
  destruct (Transcoder.receiveStream SP (stream response)) as [|a|e];
    try exact Ho.
  cbn [fst snd]. rewrite removals_app, Ho, removals_of_one. reflexivity.
Qed.

Lemma completion_loop_removals budget : forall messages refConvId rc,
    let r := completion_loop SP P worlds budget messages refConvId rc in
    removals (actions r)
    = match result_of r with
      | Returned a =>
          if Json.truthy (Some (Transcoder.id a)) then [Transcoder.id a] else []
      | _ => []
      end.
Proof.
  induction budget as [|b IH]; intros messages refConvId rc;
    cbn [completion_loop];
    pose proof (completion_body_removals messages refConvId rc) as Hb;
    destruct (completion_body SP P worlds messages refConvId rc)
      as [[[o ms] ref0] log];
    cbn [fst snd] in Hb; destruct o as [a|e|]; cbn [actions result_of];
    try exact Hb.
  rewrite removals_app, Hb. cbn [app removals flat_map].
  apply IH.
Qed.

End WithEnv.

(** X17. Buffered mode removes the conversation only after success and
    only once: whatever the attempts, the one conversation the call
    asks upstream to delete is the one the answer names, when the call
    returns an answer and the answer has an id; a call that fails or
    whose answer has no id deletes nothing, and neither does an attempt
    that is retried. *)
Theorem X17_conversation_is_removed_after_success :
  forall SP P worlds messages refConvId rc,
    let r := createCompletion SP P worlds messages refConvId rc in
    removals (actions r)
    = match result_of r with
      | Returned a =>
          if Json.truthy (Some (Transcoder.id a)) then [Transcoder.id a] else []
      | _ => []
      end.
Proof.
  intros SP P worlds messages refConvId rc.
  apply completion_loop_removals.
Qed.

End RemovalFacts.

(** ** Tokens *)

Module TokenFacts.

Import Js Tokens.

Lemma split_char_aux_nonempty (d : N) (s : jstr) : forall cur,
    split_char_aux d s cur <> [].
Proof.
  induction s as [|c s IH]; intros cur; cbn [split_char_aux]; [discriminate|].
  destruct (N.eqb c d); [discriminate | apply IH].
Qed.

(** Joining the pieces with the separator gives the text back. *)
Lemma join_split_char (d : N) (s : jstr) : forall cur,
    join [d] (split_char_aux d s cur) = rev cur ++ s.
Proof.
  induction s as [|c s IH]; intros cur; cbn [split_char_aux].
  - cbn [join]. rewrite app_nil_r. reflexivity.
  - destruct (N.eqb_spec c d) as [-> | Hn].
    + rewrite CleanFacts.join_cons by apply split_char_aux_nonempty.
      rewrite (IH []). reflexivity.
    + rewrite (IH (c :: cur)). cbn [rev]. rewrite <- app_assoc. reflexivity.
Qed.

Lemma split_char_pieces (d : N) (s : jstr) : forall cur,
    ~ In d cur ->
    Forall (fun t => ~ In d t) (split_char_aux d s cur).
Proof.
  induction s as [|c s IH]; intros cur H; cbn [split_char_aux].
  - constructor; [|constructor]. intros Hin. apply in_rev in Hin. auto.
  - destruct (N.eqb_spec c d) as [-> | Hn].
    + constructor; [intros Hin; apply in_rev in Hin; auto|].
      apply IH. intros [].
    + apply IH. intros [Hin | Hin]; [congruence | auto].
Qed.

(** Splitting pieces that were joined gives the pieces back. *)
Lemma split_char_piece (d : N) (t : jstr) : forall s cur,
    ~ In d t ->
    split_char_aux d (t ++ s) cur = split_char_aux d s (rev t ++ cur).
Proof.
  induction t as [|c t IH]; intros s cur H; [reflexivity|].
  cbn [app split_char_aux].
  destruct (N.eqb_spec c d) as [-> | Hn]; [exfalso; apply H; left; reflexivity|].
  rewrite IH by (intros Hin; apply H; right; exact Hin).
  cbn [rev]. rewrite <- app_assoc. reflexivity.
Qed.

Lemma split_join (d : N) (ts : list jstr) : forall t cur,
    Forall (fun t => ~ In d t) (t :: ts) ->
    split_char_aux d (join [d] (t :: ts)) cur = (rev cur ++ t) :: ts.
Proof.
  induction ts as [|t2 ts IH]; intros t cur H.
  - cbn [join]. inversion H as [|? ? Ht _]; subst.
    rewrite <- (app_nil_r t) at 1. rewrite split_char_piece by exact Ht.
    cbn [split_char_aux]. rewrite rev_app_distr, rev_involutive. reflexivity.
  - inversion H as [|? ? Ht Hrest]; subst.
    rewrite CleanFacts.join_cons by discriminate.
    rewrite split_char_piece by exact Ht.
    cbn [app split_char_aux]. rewrite N.eqb_refl.
    rewrite rev_app_distr, rev_involutive.
    rewrite (IH t2 [] Hrest). reflexivity.
Qed.

Lemma replace_prefix (p r s : jstr) :
  p <> [] -> replace p r (p ++ s) = r ++ s.
Proof.
  intros Hp.
  assert (Hs : forall x, startsWith p (p ++ x) = true).
  { intros x. induction p as [|c p IH]; [reflexivity|].
    cbn [app startsWith]. rewrite N.eqb_refl.
    destruct p; [reflexivity | apply IH; discriminate]. }
  destruct p as [|c p]; [congruence|].
  cbn [app replace]. pose proof (Hs s) as E. cbn [app] in E. rewrite E.
  f_equal. change (c :: p ++ s) with ((c :: p) ++ s).
  rewrite skipn_app, skipn_all, Nat.sub_diag. reflexivity.
Qed.

(** X18. [tokenSplit] undoes the joining of tokens: for tokens without
    a comma, at least one of them, the header [Bearer t1,t2,...] is
    split into exactly those tokens. Whatever the header, the answer is
    never empty, none of its tokens holds a comma, and joined by commas
    they give the header back, less its first [Bearer ]. *)
Theorem X18_tokenSplit_round_trip :
  forall (authorization : jstr) (t : jstr) (ts : list jstr),
    tokenSplit authorization <> []
    /\ Forall (fun x => ~ In 44%N x) (tokenSplit authorization)
    /\ join (lit ",") (tokenSplit authorization)
       = replace (lit "Bearer ") [] authorization
    /\ (Forall (fun x => ~ In 44%N x) (t :: ts) ->
        tokenSplit (lit "Bearer " ++ join (lit ",") (t :: ts)) = t :: ts).
Proof.
  intros authorization t ts. unfold tokenSplit, split_char.
  split; [apply split_char_aux_nonempty|].
  split; [apply split_char_pieces; intros []|].
  split; [apply (join_split_char 44 _ [])|].
  intros H. rewrite replace_prefix by discriminate.
  apply (split_join 44 ts t [] H).
Qed.

(** The witness of X18: two tokens. *)
Lemma X18_witness :
  tokenSplit (lit "Bearer abc,def") = [lit "abc"; lit "def"].
Proof.
  destruct (X18_tokenSplit_round_trip [] (lit "abc") [lit "def"])
    as (_ & _ & _ & H).
  apply H. repeat constructor; cbn; intuition discriminate.
Defined.

(** *** The fake token *)

Local Ltac Zify.zify_post_hook ::= Z.to_euclidean_division_equations.

Lemma b64_char_safe (n : N) :
  (n < 64)%N ->
  let c := (fun c => if N.eqb c 47 then 95%N else c)
             ((fun c => if N.eqb c 43 then 45%N else c) (b64_char n)) in
  is_urlsafe c = true /\ N.eqb c 61 = false.
Proof.
  intros H. unfold b64_char.
  destruct (N.ltb_spec n 26); [|destruct (N.ltb_spec n 52);
    [|destruct (N.ltb_spec n 62); [|destruct (N.eqb_spec n 62)]]]; cbv zeta.
  - assert (E1 : N.eqb (65 + n) 43 = false) by (apply N.eqb_neq; lia).
    assert (E2 : N.eqb (65 + n) 47 = false) by (apply N.eqb_neq; lia).
    rewrite E1, E2. split; [|apply N.eqb_neq; lia].
    unfold is_urlsafe, in_range.
    assert (L1 : N.leb 65 (65 + n) = true) by (apply N.leb_le; lia).
    assert (L2 : N.leb (65 + n) 90 = true) by (apply N.leb_le; lia).
    rewrite L1, L2. reflexivity.
  - assert (E1 : N.eqb (97 + (n - 26)) 43 = false) by (apply N.eqb_neq; lia).
    assert (E2 : N.eqb (97 + (n - 26)) 47 = false) by (apply N.eqb_neq; lia).
    rewrite E1, E2. split; [|apply N.eqb_neq; lia].
    unfold is_urlsafe, in_range.
    assert (L1 : N.leb 97 (97 + (n - 26)) = true) by (apply N.leb_le; lia).
    assert (L2 : N.leb (97 + (n - 26)) 122 = true) by (apply N.leb_le; lia).
    rewrite L1, L2. rewrite orb_true_r. reflexivity.
  - assert (E1 : N.eqb (48 + (n - 52)) 43 = false) by (apply N.eqb_neq; lia).
    assert (E2 : N.eqb (48 + (n - 52)) 47 = false) by (apply N.eqb_neq; lia).
    rewrite E1, E2. split; [|apply N.eqb_neq; lia].
    unfold is_urlsafe, in_range.
    assert (L1 : N.leb 48 (48 + (n - 52)) = true) by (apply N.leb_le; lia).
    assert (L2 : N.leb (48 + (n - 52)) 57 = true) by (apply N.leb_le; lia).
    rewrite L1, L2. rewrite !orb_true_r. reflexivity.
  - split; reflexivity.
  - split; reflexivity.
Qed.

Lemma token_of_triples (k : nat) : forall bytes,
    List.length bytes = 3 * k ->
    Forall (fun b => (b < 256)%N) bytes ->
    List.length (generateFakeMsToken bytes) = 4 * k
    /\ forallb is_urlsafe (generateFakeMsToken bytes) = true.
Proof.
  induction k as [|k IH]; intros bytes Hl Hb.
  - destruct bytes; [split; reflexivity | discriminate].
  - destruct bytes as [|a [|b [|c r]]]; try (cbn in Hl; lia).
    inversion Hb as [|? ? Ha Hb1]; subst.
    inversion Hb1 as [|? ? Hb' Hb2]; subst.
    inversion Hb2 as [|? ? Hc Hr]; subst.
    destruct (IH r) as [IHl IHs]; [cbn in Hl; lia | exact Hr |].
    unfold generateFakeMsToken in *. cbn [toBase64].
    rewrite !map_app, filter_app. cbn [map filter].
    destruct (b64_char_safe (a / 4)) as [S1 E1]; [lia|].
    destruct (b64_char_safe ((a mod 4) * 16 + b / 16)) as [S2 E2]; [lia|].
    destruct (b64_char_safe ((b mod 16) * 4 + c / 64)) as [S3 E3]; [lia|].
    destruct (b64_char_safe (c mod 64)) as [S4 E4]; [lia|].
    cbv zeta in S1, S2, S3, S4, E1, E2, E3, E4.
    rewrite E1, E2, E3, E4. cbn [negb app List.length forallb].
    rewrite S1, S2, S3, S4, IHl, IHs. split; [lia | reflexivity].
Qed.

(** X19. The fake token is made of 128 characters of the alphabet of
    base64url, whatever the 96 random bytes: letters, digits, [-] and
    [_], with no padding, no [+] and no [/]. *)
Theorem X19_fake_token_is_urlsafe :
  forall (bytes : list N),
    List.length bytes = 96 ->
    Forall (fun b => (b < 256)%N) bytes ->
    List.length (generateFakeMsToken bytes) = 128
    /\ forallb is_urlsafe (generateFakeMsToken bytes) = true.
Proof.
  intros bytes Hl Hb. apply (token_of_triples 32 bytes Hl Hb).
Qed.

(** The witness of X19: the bytes 255, 96 of them. *)
Lemma X19_witness :
  generateFakeMsToken (repeat 255%N 96) = repeat 95%N 128.
Proof.
  destruct (X19_fake_token_is_urlsafe (repeat 255%N 96)) as [_ _].
  - reflexivity.
  - apply Forall_forall. intros b Hb. apply repeat_spec in Hb. subst. reflexivity.
  - vm_compute. reflexivity.
Defined.

End TokenFacts.

(** ** The state of a token *)

Module AccountFacts.

Import Js Json Exn Env Account.

(** X20. [getTokenLiveStatus] does not answer [false] to a refusal: a
    body whose [code] is a number that is finite and not zero makes it
    throw, the request standing before its [try]; so does an answer
    that never comes. The HTTP status plays no part. It answers [true]
    only when a [user_id] that is not falsy is found: in [data] when
    the code is a number that is zero as a double, in the body itself
    when the code is no number or is beyond the doubles. *)
Theorem X20_token_status :
  forall (status : N) (body : value),
    getTokenLiveStatus NoAnswer = Throw AxiosError
    /\ (forall status',
           getTokenLiveStatus (Answer status (Some body))
           = getTokenLiveStatus (Answer status' (Some body)))
    /\ (forall m e neg M E,
           truthy (Some body) = true ->
           prop body "code" = Some (JNum m e) ->
           to_double m e = DFin neg M E ->
           getTokenLiveStatus (Answer status (Some body))
           = Throw API_REQUEST_FAILED)
    /\ (getTokenLiveStatus (Answer status (Some body)) = Ok true ->
        (exists m e, prop body "code" = Some (JNum m e)
                     /\ to_double m e = DZero
                     /\ truthy (user_id (prop body "data")) = true)
        \/ ((forall m e, prop body "code" = Some (JNum m e) ->
                         exists neg, to_double m e = DInf neg)
            /\ truthy (prop body "user_id") = true)).
Proof.
  intros status body. split; [reflexivity|]. split; [reflexivity|]. split.
  - intros m e neg M E Ht Hc Hd. unfold getTokenLiveStatus, request, checkResult.
    rewrite Ht, Hc, Hd. reflexivity.
  - unfold getTokenLiveStatus, request, checkResult.
    destruct (truthy (Some body)) eqn:Ht; cbn [negb]; [|discriminate].
    destruct (prop body "code") as [[| |m e| | |]|] eqn:Hc;
      try (rewrite Ht; cbn [andb user_id]; intros [= H]; right;
           split; [intros m e; discriminate | exact H]).
    destruct (to_double m e) as [|neg M E|neg] eqn:Hd.
    + intros [= H]. left. exists m, e. split; [reflexivity|]. split; [exact Hd|].
      apply andb_true_iff in H. apply H.
    + discriminate.
    + rewrite Ht. cbn [andb user_id]. intros [= H]. right. split; [|exact H].
      intros m' e' [= <- <-]. exists neg. exact Hd.
Qed.

(** The witness of X20: the body with the code 4001 is a refusal; the
    body whose code is beyond the doubles is read as a body without
    code. *)
Lemma X20_witness :
  getTokenLiveStatus
    (Answer 200 (Json.parse (Examples.wire "{'code':4001,'msg':'no'}")))
  = Throw API_REQUEST_FAILED
  /\ getTokenLiveStatus
       (Answer 200 (Json.parse (Examples.wire "{'code':1e400,'user_id':1}")))
     = Ok true.
Proof.
  assert (E : Json.parse (Examples.wire "{'code':4001,'msg':'no'}")
              = Some (JObj [(lit "code", JNum 4001 0); (lit "msg", JStr (lit "no"))]))
    by (vm_compute; reflexivity).
  rewrite E. split; [|vm_compute; reflexivity].
  destruct (X20_token_status 200
              (JObj [(lit "code", JNum 4001 0); (lit "msg", JStr (lit "no"))]))
    as (_ & _ & H & _).
  eapply (H 4001%Z 0%Z).
  - reflexivity.
  - reflexivity.
  - vm_compute. reflexivity.
Defined.

End AccountFacts.

(** ** Runs of base64 characters *)

Module RunFacts.

Import Js Data Packer Observations.

Lemma run_stop (f : N -> bool) (a : jstr) (c : N) (b : jstr) :
  f c = false -> Js.run f (a ++ c :: b) = Js.run f a.
Proof.
  intros Hc. induction a as [|x a IH]; cbn [app Js.run].
  - rewrite Hc. reflexivity.
  - rewrite IH. reflexivity.
Qed.

Lemma runs_below_nil (n : nat) : 0 < n -> runs_below n [].
Proof.
  intros Hn pre post H. symmetry in H. apply app_eq_nil in H.
  destruct H as [_ ->]. exact Hn.
Qed.

Lemma runs_below_suffix (n : nat) (a b : jstr) :
  runs_below n (a ++ b) -> runs_below n b.
Proof.
  intros H pre post E. apply (H (a ++ pre) post).
  rewrite E, app_assoc. reflexivity.
Qed.

Lemma runs_below_before (n : nat) (a : jstr) (c : N) (b : jstr) :
  is_b64char c = false -> runs_below n (a ++ c :: b) -> runs_below n a.
Proof.
  intros Hc H pre post E.
  rewrite <- (run_stop is_b64char post c b Hc).
  apply (H pre (post ++ c :: b)). rewrite E, <- app_assoc. reflexivity.
Qed.

Lemma runs_below_cons (n : nat) (c : N) (s : jstr) :
  Js.run is_b64char (c :: s) < n -> runs_below n s -> runs_below n (c :: s).
Proof.
  intros Hc Hs pre post E. destruct pre as [|x pre].
  - cbn [app] in E. subst post. exact Hc.
  - cbn [app] in E. injection E as _ E. apply (Hs pre post E).
Qed.

(** *** Runs that are removed *)

Lemma remove_matches_skip (m : jstr -> option nat) (s : jstr) : forall k,
    remove_matches m s k = remove_matches m (skipn k s) 0.
Proof.
  induction s as [|c s IH]; intros [|k]; try reflexivity.
  cbn [remove_matches skipn]. apply IH.
Qed.

Lemma run_rest (f : N -> bool) (s : jstr) :
  Js.run f (skipn (Js.run f s) s) = 0
  /\ List.length (skipn (Js.run f s) s) + Js.run f s = List.length s.
Proof.
  induction s as [|c s [IH1 IH2]]; cbn [Js.run]; [split; reflexivity|].
  destruct (f c) eqn:E; cbn [skipn Js.run List.length].
  - split; [exact IH1 | lia].
  - rewrite E. split; [reflexivity | lia].
Qed.

Lemma without_long_runs (n : nat) : forall s,
    List.length s <= n ->
    runs_below 500 (replace_all match_b64run s)
    /\ (Js.run is_b64char s < 500 ->
        Js.run is_b64char (replace_all match_b64run s) = Js.run is_b64char s)
    /\ (500 <= Js.run is_b64char s ->
        Js.run is_b64char (replace_all match_b64run s) = 0).
Proof.
  induction n as [|n IH]; intros s Hl.
  - destruct s; [|cbn in Hl; lia].
    split; [apply runs_below_nil; lia|]. split; [reflexivity | cbn; lia].
  - destruct s as [|c s]; [split; [apply runs_below_nil; lia|];
                           split; [reflexivity | cbn; lia]|].
    unfold replace_all. cbn [remove_matches].
    assert (Hm : match_b64run (c :: s)
                 = if Nat.leb 500 (Js.run is_b64char (c :: s))
                   then Some (Js.run is_b64char (c :: s)) else None)
      by reflexivity.
    rewrite Hm. clear Hm.
    destruct (Nat.leb 500 (Js.run is_b64char (c :: s))) eqn:E.
    + apply Nat.leb_le in E.
      destruct (Js.run is_b64char (c :: s)) as [|k] eqn:Er; [lia|].
      rewrite remove_matches_skip.
      assert (Hrest : skipn k s = skipn (Js.run is_b64char (c :: s)) (c :: s))
        by (rewrite Er; reflexivity).
      destruct (run_rest is_b64char (c :: s)) as [R0 Rl].
      rewrite <- Hrest in R0, Rl.
      destruct (IH (skipn k s)) as (I1 & I2 & _);
        [cbn [List.length] in Hl, Rl; lia|].
      fold (replace_all match_b64run (skipn k s)).
      split; [exact I1|]. split; [lia|]. intros _. rewrite I2; lia.
    + apply Nat.leb_gt in E.
      destruct (IH s) as (I1 & I2 & _); [cbn [List.length] in Hl; lia|].
      fold (replace_all match_b64run s).
      assert (Hrun : Js.run is_b64char (c :: replace_all match_b64run s)
                     = Js.run is_b64char (c :: s)).
      { cbn [Js.run] in E |- *. destruct (is_b64char c); [|reflexivity].
        rewrite I2; [reflexivity | lia]. }
      split; [|split; [intros _; exact Hrun | lia]].
      apply runs_below_cons; [rewrite Hrun; exact E | exact I1].
Qed.

(** *** Lines *)

Lemma split_lines_other (c : N) (s cur : jstr) :
  c <> 10%N -> c <> 13%N ->
  split_lines_aux (c :: s) cur = split_lines_aux s (c :: cur).
Proof.
  intros H10 H13. cbn [split_lines_aux]. destruct c as [|p]; [reflexivity|].
  repeat (destruct p as [p|p|]; try reflexivity); congruence.
Qed.

Lemma split_lines_cr (s cur : jstr) :
  (forall r, s <> 10%N :: r) ->
  split_lines_aux (13%N :: s) cur = split_lines_aux s (13%N :: cur).
Proof.
  intros H. cbn [split_lines_aux]. destruct s as [|d s]; [reflexivity|].
  destruct d as [|p]; [reflexivity|].
  repeat (destruct p as [p|p|]; try reflexivity).
  exfalso. apply (H s). reflexivity.
Qed.

Lemma lines_below (n : nat) (s : jstr) : forall cur,
    runs_below n (rev cur ++ s) ->
    Forall (runs_below n) (split_lines_aux s cur).
Proof.
  remember (List.length s) as k eqn:Ek. revert s Ek.
  induction k as [k IH] using lt_wf_ind. intros s Ek cur H.
  destruct s as [|c s].
  - cbn [split_lines_aux]. rewrite app_nil_r in H. repeat constructor. exact H.
  - destruct (N.eq_dec c 10) as [-> | H10].
    + cbn [split_lines_aux]. constructor.
      * apply (runs_below_before n (rev cur) 10 s); [reflexivity | exact H].
      * apply (IH (List.length s)); [cbn in Ek; lia | reflexivity |].
        cbn [rev app].
        change (rev cur ++ 10%N :: s) with (rev cur ++ [10%N] ++ s) in H.
        rewrite app_assoc in H. apply (runs_below_suffix _ _ _ H).
    + destruct (N.eq_dec c 13) as [-> | H13].
      * destruct s as [|d s].
        -- rewrite split_lines_cr by (intros r; discriminate).
           apply (IH 0); [cbn in Ek; lia | reflexivity |].
           cbn [rev]. rewrite <- app_assoc. exact H.
        -- destruct (N.eq_dec d 10) as [-> | Hd].
           ++ cbn [split_lines_aux]. constructor.
              ** apply (runs_below_before n (rev cur) 13 (10%N :: s));
                   [reflexivity | exact H].
              ** apply (IH (List.length s)); [cbn in Ek; lia | reflexivity |].
                 cbn [rev app].
                 change (rev cur ++ 13%N :: 10%N :: s)
                   with (rev cur ++ [13%N; 10%N] ++ s) in H.
                 rewrite app_assoc in H. apply (runs_below_suffix _ _ _ H).
           ++ rewrite split_lines_cr by (intros r; congruence).
              apply (IH (List.length (d :: s))); [cbn in Ek |- *; lia | reflexivity |].
              cbn [rev]. rewrite <- app_assoc. exact H.
      * rewrite split_lines_other by assumption.
        apply (IH (List.length s)); [cbn in Ek; lia | reflexivity |].
        cbn [rev]. rewrite <- app_assoc. exact H.
Qed.

Lemma joined_below (n : nat) (ls : list jstr) :
  0 < n -> Forall (runs_below n) ls -> runs_below n (join nl ls).
Proof.
  intros Hn. induction 1 as [|x ls Hx Hls IH]; [apply runs_below_nil; exact Hn|].
  destruct ls as [|y ls]; [exact Hx|].
  rewrite CleanFacts.join_cons by discriminate.
  intros pre post E. unfold nl in E. cbn [app] in E.
  apply app_eq_app in E. destruct E as [m [[E1 E2] | [E1 E2]]].
  - rewrite E2. rewrite run_stop by reflexivity. apply (Hx pre m E1).
  - destruct m as [|d m].
    + cbn [app] in E2. subst post. cbn [Js.run]. exact Hn.
    + cbn [app] in E2. injection E2 as _ E2. apply (IH m post E2).
Qed.

Lemma filter_Forall {A} (P : A -> Prop) (f : A -> bool) (l : list A) :
  Forall P l -> Forall P (filter f l).
Proof.
  induction 1 as [|x l Hx _ IH]; cbn [filter]; [constructor|].
  destruct (f x); [constructor; assumption | exact IH].
Qed.

(** X21. What [cleanTextContent] returns holds no run of 500 base64
    characters or more: wherever it is cut, fewer than 500 characters
    of [A-Za-z0-9+/=] follow the cut, whatever the text and whatever
    the platform takes for base64. *)
Theorem X21_cleaned_text_has_no_long_run :
  forall (isB : jstr -> bool) (text pre post : jstr),
    cleanTextContent isB text = pre ++ post ->
    Js.run is_b64char post < 500.
Proof.
  intros isB text pre post. revert pre post.
  change (runs_below 500 (cleanTextContent isB text)).
  unfold cleanTextContent. destruct text as [|c t]; [apply runs_below_nil; lia|].
  apply joined_below; [lia|]. apply filter_Forall.
  unfold split_lines. apply lines_below. cbn [rev app].
  apply (without_long_runs _ _ (le_n _)).
Qed.

(** The witness of X21: 600 letters between two words. *)
Lemma X21_witness :
  cleanTextContent (fun _ => false) (lit "see " ++ repeat 65%N 600 ++ lit " here")
  = lit "see  here".
Proof.
  assert (E : cleanTextContent (fun _ => false)
                (lit "see " ++ repeat 65%N 600 ++ lit " here")
              = [] ++ lit "see  here") by (vm_compute; reflexivity).
  pose proof (X21_cleaned_text_has_no_long_run _ _ _ _ E) as H.
  exact E.
Defined.

End RunFacts.

(** ** The attachments of a request *)

Module PayloadFacts.

Import Js Exn Data Env Packer Orchestrator OrchestratorFacts Observations.

Lemma upload_all_length P W (urls : list jstr) : forall refs,
    upload_all P W urls = Ok refs -> List.length refs = List.length urls.
Proof.
  induction urls as [|u urls IH]; intros refs; cbn [upload_all].
  - intros [= <-]. reflexivity.
  - destruct (Upload.uploadFile P W u) as [x|e]; [|discriminate].
    destruct (upload_all P W urls) as [l|e]; [|discriminate].
    intros [= <-]. cbn [List.length]. rewrite (IH l eq_refl). reflexivity.
Qed.

Lemma urls_bound P (ms : list message) :
  List.length (Upload.extractRefFileUrls P ms) <= last_parts ms.
Proof.
  unfold Upload.extractRefFileUrls, last_parts.
  destruct (last (map Some ms) None) as [m|]; [|cbn; lia].
  destruct (content_of m) as [s|l]; [cbn; lia|].
  apply ExtractFacts.flat_map_length_le. apply ExtractFacts.part_urls_length.
Qed.

Lemma attachments_bound isB ms refs isRefConv :
  List.length (attachments (fst (messagesPrepare isB ms refs isRefConv)))
  <= List.length refs.
Proof.
  destruct (AssetFacts.attachments_of_pack isB ms refs isRefConv) as [-> _].
  rewrite length_map. unfold imageRefs, rawImageRefs.
  pose proof (AssetFacts.filter_length_le
                (fun r => startsWith (lit "tos-cn-i-") (file_url_url r))
                (filter has_dims (safeRefs refs))).
  pose proof (AssetFacts.filter_length_le has_dims (safeRefs refs)).
  pose proof (AssetFacts.safeRefs_length refs). lia.
Qed.

(** The packer leaves the last message the last. *)
Lemma last_parts_kept isB ms refs isRefConv :
  last_parts (snd (messagesPrepare isB ms refs isRefConv)) = last_parts ms.
Proof.
  rewrite FrameFacts.messages_left.
  destruct (isRefConv || Nat.ltb (List.length ms) 2); [reflexivity|].
  destruct (FrameFacts.snoc_cases ms) as [-> | (pre & m & ->)]; [reflexivity|].
  rewrite PackerFacts.last_map_Some.
  destruct (hasFileOrImage m); [|reflexivity].
  rewrite PackerFacts.splice_snoc. unfold last_parts.
  change (pre ++ [newFileMessage; m]) with (pre ++ [newFileMessage] ++ [m]).
  rewrite app_assoc, !PackerFacts.last_map_Some. reflexivity.
Qed.

Section WithEnv.

Variable SP : Sse.parser.
Variable P : platform.
Variable worlds : nat -> world.

Lemma open_stream_payloads messages refConvId rc :
  Forall (fun p => List.length (attachments p) <= last_parts messages)
         (completions (snd (open_stream P worlds messages refConvId rc)))
  /\ last_parts (snd (fst (fst (open_stream P worlds messages refConvId rc))))
     = last_parts messages.
Proof.
  unfold open_stream.
  destruct (upload_all P (worlds rc) (Upload.extractRefFileUrls P messages))
    as [refs|e] eqn:Eu; [|split; [constructor | reflexivity]].
  apply upload_all_length in Eu.
  pose proof (attachments_bound (isBASE64 P) messages refs
                (match (if has_conv_id refConvId then refConvId else []) with
                 | [] => false
                 | _ => true
                 end)) as Ha.
  pose proof (last_parts_kept (isBASE64 P) messages refs
                (match (if has_conv_id refConvId then refConvId else []) with
                 | [] => false
                 | _ => true
                 end)) as Hl.
  destruct (messagesPrepare _ _ _ _) as [payload ms]. cbn [fst snd] in *.
  split; [|exact Hl].
  constructor; [|constructor].
  pose proof (urls_bound P messages). lia.
Qed.

Lemma completion_body_payloads messages refConvId rc :
  Forall (fun p => List.length (attachments p) <= last_parts messages)
         (completions (snd (completion_body SP P worlds messages refConvId rc)))
  /\ last_parts (snd (fst (fst (completion_body SP P worlds messages refConvId rc))))
     = last_parts messages.
Proof.
  pose proof (open_stream_payloads messages refConvId rc) as Ho.
  unfold completion_body.
  destruct (open_stream P worlds messages refConvId rc) as [[[r ms] ref0] log].
  cbn [fst snd] in Ho.
  destruct r as [response|e]; [|exact Ho].
  destruct (is_event_stream response) as [[|]|e]; try exact Ho.
  destruct (Transcoder.receiveStream SP (stream response)) as [|a|e];
    try exact Ho.
  cbn [fst snd]. rewrite completions_app.
  destruct (removeConversation_quiet (Some (Transcoder.id a))) as (_ & _ & ->).
  rewrite app_nil_r. exact Ho.
Qed.

Lemma completion_loop_payloads budget : forall messages refConvId rc,
    Forall (fun p => List.length (attachments p) <= last_parts messages)
           (completions
              (actions (completion_loop SP P worlds budget messages refConvId rc))).
Proof.
  induction budget as [|b IH]; intros messages refConvId rc;
    cbn [completion_loop];
    destruct (completion_body_payloads messages refConvId rc) as [Hp Hl];
    destruct (completion_body SP P worlds messages refConvId rc)
      as [[[o ms] ref0] log];
    cbn [fst snd] in Hp, Hl; destruct o as [a|e|]; cbn [actions]; try exact Hp.
  rewrite completions_app. apply Forall_app. split; [exact Hp|].
  cbn [completions flat_map app].
  fold (completions (actions (completion_loop SP P worlds b ms ref0 (S rc)))).
  rewrite <- Hl. apply IH.
Qed.

Lemma removals_no_completions (ids : list (option Json.value)) :
  completions (flat_map removeConversation ids) = [].
Proof.
  induction ids as [|c ids IH]; [reflexivity|].
  cbn [flat_map]. rewrite completions_app, IH.
  destruct (removeConversation_quiet c) as (_ & _ & ->). reflexivity.
Qed.

Lemma stream_body_payloads messages refConvId rc :
  Forall (fun p => List.length (attachments p) <= last_parts messages)
         (completions (snd (stream_body SP P worlds messages refConvId rc)))
  /\ last_parts (snd (fst (fst (stream_body SP P worlds messages refConvId rc))))
     = last_parts messages.
Proof.
  pose proof (open_stream_payloads messages refConvId rc) as Ho.
  unfold stream_body.
  destruct (open_stream P worlds messages refConvId rc) as [[[r ms] ref0] log].
  cbn [fst snd] in Ho.
  destruct r as [response|e]; [|exact Ho].
  destruct (is_event_stream response) as [[|]|e]; try exact Ho.
  cbn [fst snd]. rewrite completions_app, removals_no_completions, app_nil_r.
  exact Ho.
Qed.

Lemma stream_loop_payloads budget : forall messages refConvId rc,
    Forall (fun p => List.length (attachments p) <= last_parts messages)
           (completions
              (actions (stream_loop SP P worlds budget messages refConvId rc))).
Proof.
  induction budget as [|b IH]; intros messages refConvId rc;
    cbn [stream_loop];
    destruct (stream_body_payloads messages refConvId rc) as [Hp Hl];
    destruct (stream_body SP P worlds messages refConvId rc)
      as [[[o ms] ref0] log];
    cbn [fst snd] in Hp, Hl; destruct o as [a|e|]; cbn [actions]; try exact Hp.
  rewrite completions_app. apply Forall_app. split; [exact Hp|].
  cbn [completions flat_map app].
  fold (completions (actions (stream_loop SP P worlds b ms ref0 (S rc)))).
  rewrite <- Hl. apply IH.
Qed.

End WithEnv.

(** X22. A request never sends more attachments than its last message
    has parts: in both modes and on every attempt, whatever the peers
    answer, each payload posted upstream carries at most that many; a
    request whose last message is a plain string carries none. *)
Theorem X22_attachments_come_from_the_last_message :
  forall SP P worlds messages refConvId rc,
    Forall (fun p => List.length (attachments p) <= last_parts messages)
           (completions
              (actions (createCompletion SP P worlds messages refConvId rc)))
    /\ Forall (fun p => List.length (attachments p) <= last_parts messages)
              (completions
                 (actions (createCompletionStream SP P worlds messages refConvId
                                                  rc)))
    /\ (last_parts messages = 0 ->
        Forall (fun p => attachments p = [])
               (completions
                  (actions (createCompletion SP P worlds messages refConvId rc)))).
Proof.
  intros SP P worlds messages refConvId rc.
  split; [apply completion_loop_payloads|].
  split; [apply stream_loop_payloads|].
  intros H0.
  pose proof (completion_loop_payloads SP P worlds (MAX_RETRY_COUNT - rc) messages
                refConvId rc) as H.
  revert H. unfold createCompletion. apply Forall_impl.
  intros p Hp. rewrite H0 in Hp. destruct (attachments p); [reflexivity|].
  cbn in Hp. lia.
Qed.

(** The witness of X22: the one message [hello], every peer answering
    well. *)
Lemma X22_witness :
  last_parts Examples.hello = 0
  /\ Forall (fun p => attachments p = [])
            (completions
               (actions (createCompletion Sse.reference Examples.platform0
                           (fun _ => Examples.world_ok) Examples.hello [] 0))).
Proof.
  assert (H0 : last_parts Examples.hello = 0) by reflexivity.
  split; [exact H0|].
  destruct (X22_attachments_come_from_the_last_message Sse.reference
              Examples.platform0 (fun _ => Examples.world_ok) Examples.hello [] 0)
    as (_ & _ & H).
  exact (H H0).
Defined.

End PayloadFacts.

(** ** The two modes side by side *)

Module AgreementFacts.

Import Js Json Exn Transcoder Chunks ChunkFacts.

Lemma frozen_write (f : frame) (s : passthrough) :
  ended s = true ->
  written (pt_write f s) = written s /\ ended (pt_write f s) = true.
Proof.
  intros E. unfold pt_write. rewrite E. cbn. auto.
Qed.

Lemma frozen_end (f : frame) (s : passthrough) :
  ended s = true ->
  written (pt_end_unless_closed f s) = written s
  /\ ended (pt_end_unless_closed f s) = true.
Proof.
  intros E. unfold pt_end_unless_closed, pt_end. rewrite E.
  destruct (closed s); cbn; auto.
Qed.

(** The callback of the parser leaves the feeding alone, and only adds
    to the calls of [resolve] and [reject]. *)
Lemma rs_try_frame SP (st : rs_state SP) (data : jstr) :
  rs_temp (fst (rs_try st data)) = rs_temp st
  /\ rs_parser (fst (rs_try st data)) = rs_parser st
  /\ rs_error_seen (fst (rs_try st data)) = rs_error_seen st
  /\ rs_close_seen (fst (rs_try st data)) = rs_close_seen st
  /\ exists more, rs_calls (fst (rs_try st data)) = rs_calls st ++ more.
Proof.
  unfold rs_try. split_inner; cbn; repeat split;
    first [ exists []; rewrite app_nil_r; reflexivity
          | eexists; reflexivity ].
Qed.

Lemma rs_on_event_frame SP (st : rs_state SP) (data : jstr) :
  rs_temp (rs_on_event st data) = rs_temp st
  /\ rs_parser (rs_on_event st data) = rs_parser st
  /\ rs_error_seen (rs_on_event st data) = rs_error_seen st
  /\ rs_close_seen (rs_on_event st data) = rs_close_seen st
  /\ exists more, rs_calls (rs_on_event st data) = rs_calls st ++ more.
Proof.
  unfold rs_on_event. destruct (rs_isEnd st).
  - repeat split. exists []. rewrite app_nil_r. reflexivity.
  - pose proof (rs_try_frame SP st data) as (H1 & H2 & H3 & H4 & more & H5).
    destruct (rs_try st data) as [st' [e|]]; cbn [fst] in *.
    + cbn. repeat split; try assumption.
      exists (more ++ [Reject FromFrame e]). rewrite H5, app_assoc. reflexivity.
    + repeat split; try assumption. exists more. exact H5.
Qed.

Lemma ts_try_frame SP (st : ts_state SP) (data : jstr) :
  ts_temp (fst (ts_try st data)) = ts_temp st
  /\ ts_parser (fst (ts_try st data)) = ts_parser st
  /\ ts_error_seen (fst (ts_try st data)) = ts_error_seen st
  /\ ts_close_seen (fst (ts_try st data)) = ts_close_seen st.
Proof.
  unfold ts_try. split_inner; cbn; repeat split.
Qed.

Lemma ts_on_event_frame SP (st : ts_state SP) (data : jstr) :
  ts_temp (ts_on_event st data) = ts_temp st
  /\ ts_parser (ts_on_event st data) = ts_parser st
  /\ ts_error_seen (ts_on_event st data) = ts_error_seen st
  /\ ts_close_seen (ts_on_event st data) = ts_close_seen st.
Proof.
  unfold ts_on_event.
  pose proof (ts_try_frame SP st data) as H.
  destruct (ts_try st data) as [st' [e|]]; exact H.
Qed.

(** Once the stream handed to the caller is ended, nothing more is
    written to it. *)
Lemma frozen_finish (f g : frame) (s : passthrough) :
  ended s = true ->
  written (pt_end_unless_closed f (pt_write g s)) = written s
  /\ ended (pt_end_unless_closed f (pt_write g s)) = true.
Proof.
  intros E. destruct (frozen_write g s E) as [W1 E1].
  destruct (frozen_end f _ E1) as [W2 E2]. rewrite W2, W1. auto.
Qed.

Lemma ts_try_frozen SP (st : ts_state SP) (data : jstr) :
  ended (ts_stream st) = true ->
  written (ts_stream (fst (ts_try st data))) = written (ts_stream st)
  /\ ended (ts_stream (fst (ts_try st data))) = true.
Proof.
  intros E. unfold ts_try. split_inner; cbn [fst ts_with ts_finish ts_stream];
    first [ split; [reflexivity | exact E]
          | apply frozen_write; exact E
          | apply frozen_finish; exact E ].
Qed.

Lemma ts_on_event_frozen SP (st : ts_state SP) (data : jstr) :
  ended (ts_stream st) = true ->
  written (ts_stream (ts_on_event st data)) = written (ts_stream st)
  /\ ended (ts_stream (ts_on_event st data)) = true.
Proof.
  intros E. unfold ts_on_event.
  pose proof (ts_try_frozen SP st data E) as [W1 E1].
  destruct (ts_try st data) as [st' [e|]]; cbn [fst] in *; [|auto].
  cbn [ts_with ts_stream].
  destruct (frozen_end BlankLines _ E1) as [W2 E2]. rewrite W2, W1. auto.
Qed.

(** While nothing is settled, one event of the parser leaves the two
    transcoders with the same text, or settles the promise. *)
Lemma open_on_event SP (rs : rs_state SP) (ts : ts_state SP) (data : jstr) :
  rs_calls rs = [] ->
  rs_isEnd rs = false ->
  ended (ts_stream ts) = false ->
  closed (ts_stream ts) = false ->
  content (rs_data rs) = flat_map frame_text (written (ts_stream ts)) ->
  (rs_calls (rs_on_event rs data) = []
   /\ rs_isEnd (rs_on_event rs data) = false
   /\ ended (ts_stream (ts_on_event ts data)) = false
   /\ closed (ts_stream (ts_on_event ts data)) = false
   /\ content (rs_data (rs_on_event rs data))
      = flat_map frame_text (written (ts_stream (ts_on_event ts data))))
  \/ (exists d,
         rs_calls (rs_on_event rs data) = [Resolve FromFrame d]
         /\ ended (ts_stream (ts_on_event ts data)) = true
         /\ content d
            = drop_final_nl
                (flat_map frame_text (written (ts_stream (ts_on_event ts data)))))
  \/ (exists e, rs_calls (rs_on_event rs data) = [Reject FromFrame e]).
Proof.
  intros Hc Hi He Hcl Ht.
  unfold rs_on_event, ts_on_event. rewrite Hi.
  unfold rs_try, ts_try. split_inner.
  all: cbn [fst snd rs_calls rs_isEnd rs_data rs_call rs_finish rs_set_data
              ts_with ts_finish ts_stream content id].
  all: unfold pt_end_unless_closed, pt_end, pt_write;
    cbn [closed ended written]; rewrite ?He, ?Hcl; cbn [orb closed ended written];
    rewrite ?He, ?Hcl; cbn [orb closed ended written].
  all: rewrite ?Hc, ?flat_map_app; cbn [app flat_map frame_text];
    rewrite ?app_nil_r, <- ?Ht.
  all: first [ left; repeat split; (reflexivity || assumption)
             | right; left; eexists; repeat split; reflexivity
             | right; right; eexists; reflexivity ].
Qed.

Lemma in_step_on_event SP (rs : rs_state SP) (ts : ts_state SP)
      (data : jstr) :
  in_step rs ts -> in_step (rs_on_event rs data) (ts_on_event ts data).
Proof.
  intros (H1 & H2 & H3 & H4 & H5). unfold in_step.
  destruct (rs_on_event_frame SP rs data) as (R1 & R2 & R3 & R4 & more & R5).
  destruct (ts_on_event_frame SP ts data) as (T1 & T2 & T3 & T4).
  rewrite R1, R2, R3, R4, T1, T2, T3, T4.
  repeat (split; [assumption|]).
  destruct (rs_calls rs) as [|c calls] eqn:Ec.
  - destruct H5 as (Hi & He & Hcl & Ht).
    destruct (open_on_event SP rs ts data Ec Hi He Hcl Ht)
      as [(-> & ? & ? & ? & ?) | [(d & -> & ? & ?) | (e & ->)]]; auto.
  - rewrite R5. cbn [app].
    destruct c as [o a|o e]; [|exact I].
    destruct o; destruct H5 as [E Ht];
      destruct (ts_on_event_frozen SP ts data E) as [W E']; rewrite W; auto.
Qed.

Lemma in_step_on_events SP (events : list jstr) :
  forall (rs : rs_state SP) (ts : ts_state SP),
    in_step rs ts ->
    in_step (fold_left (@rs_on_event SP) events rs)
            (fold_left (@ts_on_event SP) events ts).
Proof.
  induction events as [|e events IH]; intros rs ts H; cbn [fold_left];
    [exact H|].
  apply IH, in_step_on_event, H.
Qed.

Lemma in_step_step SP (rs : rs_state SP) (ts : ts_state SP) (ev : event) :
  ev <> DownstreamClosed ->
  in_step rs ts -> in_step (rs_step rs ev) (ts_step ts ev).
Proof.
  intros Hev H. pose proof H as (H1 & H2 & H3 & H4 & H5).
  destruct ev as [b| | |]; cbn [rs_step ts_step]; [| | |congruence].
  - rewrite <- H1, <- H2.
    destruct (on_data (rs_temp rs) b) as [temp [bytes|]].
    + destruct (Sse.feed SP (rs_parser rs) (Utf8.toString bytes)) as [p evs].
      apply in_step_on_events. unfold in_step. cbn. auto.
    + unfold in_step. cbn. auto.
  - rewrite <- H3. destruct (rs_error_seen rs); [exact H|].
    unfold in_step. cbn. repeat (split; [first [assumption | reflexivity]|]).
    destruct (rs_calls rs) as [|c calls]; [exact I|]. cbn [app].
    destruct c as [o a|o e]; [|exact I].
    destruct o; destruct H5 as [E Ht];
      destruct (frozen_end DoneMarker _ E) as [W E']; rewrite W; auto.
  - rewrite <- H4. destruct (rs_close_seen rs); [exact H|].
    unfold in_step. cbn. repeat (split; [first [assumption | reflexivity]|]).
    destruct (rs_calls rs) as [|c calls].
    + destruct H5 as (Hi & He & Hcl & Ht). cbn [app].
      unfold pt_end_unless_closed, pt_end. rewrite Hcl, He. cbn.
      rewrite flat_map_app. cbn. rewrite app_nil_r. auto.
    + cbn [app]. destruct c as [o a|o e]; [|exact I].
      destruct o; destruct H5 as [E Ht];
        destruct (frozen_end DoneMarker _ E) as [W E']; rewrite W; auto.
Qed.

Lemma in_step_steps SP (events : list event) :
  Forall (fun ev => ev <> DownstreamClosed) events ->
  forall (rs : rs_state SP) (ts : ts_state SP),
    in_step rs ts ->
    in_step (fold_left (@rs_step SP) events rs)
            (fold_left (@ts_step SP) events ts).
Proof.
  induction 1 as [|ev events Hev _ IH]; intros rs ts H; cbn [fold_left];
    [exact H|].
  apply IH, in_step_step; assumption.
Qed.

Lemma in_step_init SP : in_step (rs_init SP) (ts_init SP).
Proof.
  unfold in_step. cbn. repeat split; reflexivity.
Qed.

(** X23. The two modes gather the same text. As long as the caller of
    the live mode keeps its stream open, the two transcoders, given the
    same events, stay in step: while the promise of the buffered mode is
    pending its content is the text streamed so far, and when the promise
    resolves, the content of the answer is the whole text of the live
    stream, with its one final newline removed when a finishing frame
    resolved it. *)
Theorem X23_both_modes_gather_the_same_text :
  forall SP (events : list event),
    Forall (fun ev => ev <> DownstreamClosed) events ->
    in_step (rs_run SP events) (createTransStream SP events)
    /\ (receiveStream SP events = Pending ->
        buffered_text SP events = live_text SP events)
    /\ (forall a, receiveStream SP events = Resolved a ->
                  content a = live_text SP events
                  \/ content a = drop_final_nl (live_text SP events)).
Proof.
  intros SP events Hev.
  assert (H : in_step (rs_run SP events) (createTransStream SP events))
    by (apply in_step_steps; [exact Hev | apply in_step_init]).
  split; [exact H|].
  destruct H as (_ & _ & _ & _ & H).
  unfold receiveStream, buffered_text, live_text.
  destruct (rs_calls (rs_run SP events)) as [|c calls]; cbn [promise_of].
  - split; [intros _; apply H | discriminate].
  - destruct c as [o a|o e]; (split; [discriminate|]).
    + intros a' [= <-]. destruct o; destruct H as [_ H]; auto.
    + discriminate.
Qed.

(** The witness of X23: a delta, a finishing frame and the close. *)
Lemma X23_witness :
  Forall (fun ev => ev <> DownstreamClosed)
         [Data Examples.delta_frame; Data Examples.closed_frame; Close]
  /\ (forall a,
         receiveStream Sse.reference
           [Data Examples.delta_frame; Data Examples.closed_frame; Close]
         = Resolved a ->
         content a
         = live_text Sse.reference
             [Data Examples.delta_frame; Data Examples.closed_frame; Close]
         \/ content a
            = drop_final_nl
                (live_text Sse.reference
                   [Data Examples.delta_frame; Data Examples.closed_frame;
                    Close])).
Proof.
  assert (H : Forall (fun ev => ev <> DownstreamClosed)
                     [Data Examples.delta_frame; Data Examples.closed_frame;
                      Close])
    by (repeat constructor; discriminate).
  split; [exact H|].
  apply (X23_both_modes_gather_the_same_text Sse.reference _ H).
Defined.

End AgreementFacts.

(** ** Chunks cut between characters *)

Module CutFacts.

Import Js Json Exn Transcoder Chunks.

(** The callbacks leave the feeding alone, however many events the
    parser reports. *)
Lemma rs_on_events_feeding SP (events : list jstr) : forall st : rs_state SP,
    rs_temp (fold_left (@rs_on_event SP) events st) = rs_temp st
    /\ rs_parser (fold_left (@rs_on_event SP) events st) = rs_parser st.
Proof.
  induction events as [|e events IH]; intros st; cbn [fold_left];
    [split; reflexivity|].
  destruct (IH (rs_on_event st e)) as [-> ->].
  destruct (AgreementFacts.rs_on_event_frame SP st e) as (H1 & H2 & _).
  split; assumption.
Qed.

Lemma ts_on_events_feeding SP (events : list jstr) : forall st : ts_state SP,
    ts_temp (fold_left (@ts_on_event SP) events st) = ts_temp st
    /\ ts_parser (fold_left (@ts_on_event SP) events st) = ts_parser st.
Proof.
  induction events as [|e events IH]; intros st; cbn [fold_left];
    [split; reflexivity|].
  destruct (IH (ts_on_event st e)) as [-> ->].
  destruct (AgreementFacts.ts_on_event_frame SP st e) as (H1 & H2 & _).
  split; assumption.
Qed.

Lemma rs_clean_chunks_fed SP (chunks : list (list N)) :
  Forall (fun c => Utf8.has_replacement c = false) chunks ->
  forall st : rs_state SP,
    rs_temp st = [] ->
    rs_temp (fold_left (@rs_step SP) (map Data chunks) st) = []
    /\ rs_parser (fold_left (@rs_step SP) (map Data chunks) st)
       = feed_all SP (map Utf8.toString chunks) (rs_parser st).
Proof.
  induction 1 as [|c chunks Hc _ IH]; intros st Ht; cbn [map fold_left feed_all];
    [split; [exact Ht | reflexivity]|].
  assert (Hs : rs_temp (rs_step st (Data c)) = []
               /\ rs_parser (rs_step st (Data c))
                  = fst (Sse.feed SP (rs_parser st) (Utf8.toString c))).
  { cbn [rs_step]. unfold on_data. rewrite Hc, Ht.
    destruct (Sse.feed SP (rs_parser st) (Utf8.toString c)) as [p evs].
    destruct (rs_on_events_feeding SP evs (rs_set_feed st [] p)) as [-> ->].
    split; reflexivity. }
  destruct Hs as [Hs1 Hs2].
  destruct (IH _ Hs1) as [I1 I2]. split; [exact I1|].
  rewrite I2, Hs2. reflexivity.
Qed.

Lemma ts_clean_chunks_fed SP (chunks : list (list N)) :
  Forall (fun c => Utf8.has_replacement c = false) chunks ->
  forall st : ts_state SP,
    ts_temp st = [] ->
    ts_temp (fold_left (@ts_step SP) (map Data chunks) st) = []
    /\ ts_parser (fold_left (@ts_step SP) (map Data chunks) st)
       = feed_all SP (map Utf8.toString chunks) (ts_parser st).
Proof.
  induction 1 as [|c chunks Hc _ IH]; intros st Ht; cbn [map fold_left feed_all];
    [split; [exact Ht | reflexivity]|].
  assert (Hs : ts_temp (ts_step st (Data c)) = []
               /\ ts_parser (ts_step st (Data c))
                  = fst (Sse.feed SP (ts_parser st) (Utf8.toString c))).
  { cbn [ts_step]. unfold on_data. rewrite Hc, Ht.
    destruct (Sse.feed SP (ts_parser st) (Utf8.toString c)) as [p evs].
    destruct (ts_on_events_feeding SP evs (ts_set_feed st [] p)) as [-> ->].
    split; reflexivity. }
  destruct Hs as [Hs1 Hs2].
  destruct (IH _ Hs1) as [I1 I2]. split; [exact I1|].
  rewrite I2, Hs2. reflexivity.
Qed.

(** X2. Cutting a stream between characters loses nothing and holds
    nothing back. Chunks that each decode without U+FFFD, as the chunks
    of a well-formed stream cut anywhere but inside a character do, are
    decoded and fed to the parser one by one as they arrive, in both
    transcoders and whatever the parser; nothing stays in [temp]; and
    the texts fed, put end to end, are the decoding of the whole
    stream. What the parser makes of a text that reaches it in pieces
    is its own business. *)
Theorem X2_cut_between_characters :
  forall (chunks : list (list N)),
    Forall (fun c => Utf8.has_replacement c = false) chunks ->
    fed_texts [] chunks = map Utf8.toString chunks
    /\ List.concat (map Utf8.toString chunks)
       = Utf8.toString (List.concat chunks)
    /\ (forall SP,
           rs_parser (rs_run SP (map Data chunks))
           = feed_all SP (map Utf8.toString chunks) (Sse.pinit SP)
           /\ ts_parser (createTransStream SP (map Data chunks))
              = feed_all SP (map Utf8.toString chunks) (Sse.pinit SP)
           /\ rs_temp (rs_run SP (map Data chunks)) = []
           /\ ts_temp (createTransStream SP (map Data chunks)) = []).
Proof.
  intros chunks Hc.
  destruct (TranscoderFacts.clean_chunks_are_fed chunks Hc) as [F1 F2].
  split; [exact F1|]. split; [rewrite <- F1; exact F2|].
  intros SP.
  destruct (rs_clean_chunks_fed SP chunks Hc (rs_init SP) eq_refl) as [R1 R2].
  destruct (ts_clean_chunks_fed SP chunks Hc (ts_init SP) eq_refl) as [T1 T2].
  unfold rs_run, createTransStream. auto.
Qed.

(** The witness of X2: the frame of three bytes for one character, cut
    before the character and after it. *)
Lemma X2_witness :
  List.concat (map Utf8.toString
                 [firstn 85 Examples.cjk_frame;
                  firstn 3 (skipn 85 Examples.cjk_frame);
                  skipn 88 Examples.cjk_frame])
  = Utf8.toString Examples.cjk_frame.
Proof.
  destruct (X2_cut_between_characters
              [firstn 85 Examples.cjk_frame;
               firstn 3 (skipn 85 Examples.cjk_frame);
               skipn 88 Examples.cjk_frame]) as (_ & H & _).
  - repeat constructor; vm_compute; reflexivity.
  - rewrite H. vm_compute. reflexivity.
Defined.

End CutFacts.
